(** * Iterated local search over bitstring problems (NPP-Landscapes)

    A shallow embedding of [sampling/problems.py] and [sampling/ils.py]:
    the problem variants (OneMax, Knapsack, NumberPartitioning), the flip
    neighbourhood explorer, the hill climber and the iterated local search
    driver, followed by the properties established about them.

    Conventions of the embedding.
    - Python integers are [Z]; list positions and the dimension [n] are [nat]
      (every index the code uses comes from [range(len(..))] or from
      [random.randint(0, n - 1)], hence is non-negative).
    - A call either returns, raises, or (for a [while] loop) is cut off by
      the fuel of the model: type [outcome].
    - The global generator of module [random] is an explicit state: an
      arbitrary infinite sequence of raw draws and a cursor into it.
    - [copy.deepcopy] is the identity: the embedding has values, not
      references, so a copy and its original never alias. *)

From Stdlib Require Import ZArith Lia String Ascii.
From Stdlib Require DecimalString DecimalZ DecimalPos.
From stdpp Require Import base list.

Local Open Scope Z_scope.

(* ===================================================================== *)
(** ** Outcomes, exceptions and the random state *)
(* ===================================================================== *)

Inductive exn : Type :=
| IndexError
| AssertionError
| NotImplementedError
| ValueError
| TypeError
| UnboundLocalError.

Inductive outcome (A : Type) : Type :=
| Ret (a : A)
| Raise (e : exn)
| OutOfFuel.

Arguments Ret {A} a.
Arguments Raise {A} e.
Arguments OutOfFuel {A}.

Definition obind {A B : Type} (m : outcome A) (k : A -> outcome B) : outcome B :=
  match m with
  | Ret a => k a
  | Raise e => Raise e
  | OutOfFuel => OutOfFuel
  end.

(** The state of [random]: [draws] is the whole future of the generator,
    [pos] the number of draws already consumed. *)
Record Rng : Type := mkRng { draws : nat -> nat; pos : nat }.

Definition advance (g : Rng) : Rng := mkRng (draws g) (S (pos g)).

(** Computations that consume randomness. *)
Definition M (A : Type) : Type := Rng -> outcome (A * Rng).

Definition ret {A : Type} (a : A) : M A := fun g => Ret (a, g).

Definition raise {A : Type} (e : exn) : M A := fun _ => Raise e.

Definition bind {A B : Type} (m : M A) (k : A -> M B) : M B :=
  fun g =>
    match m g with
    | Ret (a, g') => k a g'
    | Raise e => Raise e
    | OutOfFuel => OutOfFuel
    end.

Definition lift {A : Type} (o : outcome A) : M A :=
  fun g =>
    match o with
    | Ret a => Ret (a, g)
    | Raise e => Raise e
    | OutOfFuel => OutOfFuel
    end.

Declare Scope py_scope.
Delimit Scope py_scope with py.
Notation "x <~ m ;; k" := (obind m (fun x => k))
  (at level 20, m at level 99, k at level 200) : py_scope.
Notation "x <- m ;; k" := (bind m (fun x => k))
  (at level 20, m at level 99, k at level 200) : py_scope.
Local Open Scope py_scope.

(** [random._randbelow(k)] for [k > 0]: a value in [0, k). *)
Definition randbelow (k : nat) : M nat :=
  fun g => Ret ((draws g (pos g) mod k)%nat, advance g).

(** [random.randint(0, n - 1)]: an empty range raises [ValueError]. *)
Definition randint0 (n : nat) : M nat :=
  match n with
  | O => raise ValueError
  | S _ => randbelow n
  end.

(** [x[i], x[j] = x[j], x[i]] *)
Definition swap {A : Type} (x : list A) (i j : nat) : list A :=
  match x !! i, x !! j with
  | Some a, Some b => <[j := a]> (<[i := b]> x)
  | _, _ => x
  end.

(** The loop of [random.shuffle]:
    [for i in reversed(range(1, len(x))): j = randbelow(i + 1); swap]. *)
Fixpoint shuffle_from {A : Type} (i : nat) (x : list A) : M (list A) :=
  match i with
  | O => ret x
  | S i' =>
      j <- randbelow (S i) ;;
      shuffle_from i' (swap x i j)
  end.

Definition shuffle {A : Type} (x : list A) : M (list A) :=
  shuffle_from (length x - 1)%nat x.

(** [l[i]] for a non-negative [i]. *)
Definition getitem {A : Type} (l : list A) (i : nat) : outcome A :=
  match l !! i with
  | Some a => Ret a
  | None => Raise IndexError
  end.

(** [sum([f(i) for i in idx])]: the comprehension is evaluated left to
    right and stops at the first element that raises. *)
Fixpoint sum_over (f : nat -> outcome Z) (idx : list nat) : outcome Z :=
  match idx with
  | [] => Ret 0
  | i :: rest =>
      v <~ f i ;;
      s <~ sum_over f rest ;;
      Ret (v + s)
  end.

Definition range (n : nat) : list nat := seq 0 n.

(* ===================================================================== *)
(** ** Solutions *)
(* ===================================================================== *)

(** [class Solution]; [weight] is the attribute that [Knapsack.full_eval]
    adds to the object ([None] while the attribute does not exist). *)
Record Solution : Type := mkSolution {
  lst : list Z;
  fitness : Z;
  invalid : bool;
  weight : option Z
}.

Definition deepcopy (sol : Solution) : Solution := sol.

(** [0 if v == 1 else 1] *)
Definition flip01 (v : Z) : Z := if v =? 1 then 0 else 1.

(** [1 if v == 0 else 0] *)
Definition flip10 (v : Z) : Z := if v =? 0 then 1 else 0.

(** [1 if v == 0 else -1] *)
Definition flip_gain (v : Z) : Z := if v =? 0 then 1 else -1.

(** [sol.lst[i] = 0 if sol.lst[i] == 1 else 1] *)
Definition flip_at (l : list Z) (i : nat) : outcome (list Z) :=
  v <~ getitem l i ;;
  Ret (<[i := flip01 v]> l).

(** [j = i; while j == i: j = random.randint(0, n - 1)], entered with the
    current value of [j]. *)
Fixpoint resample (fuel n i j : nat) : M nat :=
  if (j =? i)%nat then
    match fuel with
    | O => fun _ => OutOfFuel
    | S fuel' =>
        j' <- randint0 n ;;
        resample fuel' n i j'
    end
  else ret j.

(** The first four lines that the three [two_rnd_flips] methods share. *)
Definition sample_two (fuel n : nat) : M (nat * nat) :=
  i <- randint0 n ;;
  j <- resample fuel n i i ;;
  ret (i, j).

(* ===================================================================== *)
(** ** Problem instances *)
(* ===================================================================== *)

(** What [ils.py] uses of a problem object. [maximize] is the truth value
    of [self.maximize()]. *)
Record ProblemInstance : Type := mkProblem {
  maximize : bool;
  full_eval : Solution -> outcome Solution;
  has_flip_delta_eval : bool;
  flip_delta_eval : Solution -> nat -> outcome (bool * Z);
  flip_with_delta : Solution -> nat -> Z -> outcome Solution;
  two_rnd_flips : nat -> Solution -> M Solution
}.

(** [ProblemInstance.strictly_better]: [a > b if self.maximize() else a < b] *)
Definition strictly_better (p : ProblemInstance) (a b : Z) : bool :=
  if maximize p then a >? b else a <? b.

(** [ProblemInstance.better_or_equal]: [a >= b if self.maximize() else a <= b] *)
Definition better_or_equal (p : ProblemInstance) (a b : Z) : bool :=
  if maximize p then a >=? b else a <=? b.

Module OneMax.

(** [sol.fitness = sum(sol.lst); sol.invalid = False] *)
Definition full_eval (sol : Solution) : outcome Solution :=
  Ret (mkSolution (lst sol) (foldr Z.add 0 (lst sol)) false (weight sol)).

Definition has_flip_delta_eval : bool := true.

Definition flip_delta_eval (sol : Solution) (i : nat) : outcome (bool * Z) :=
  v <~ getitem (lst sol) i ;;
  let delta_fitness := flip_gain v in
  Ret (delta_fitness >? 0, delta_fitness).

Definition flip_with_delta (sol : Solution) (i : nat) (delta_fitness : Z)
  : outcome Solution :=
  let fitness' := fitness sol + delta_fitness in
  v <~ getitem (lst sol) i ;;
  Ret (mkSolution (<[i := flip10 v]> (lst sol)) fitness' false (weight sol)).

Definition two_rnd_flips (n : nat) (fuel : nat) (sol : Solution) : M Solution :=
  ij <- sample_two fuel n ;;
  let '(i, j) := ij in
  lift (
    vi <~ getitem (lst sol) i ;;
    vj <~ getitem (lst sol) j ;;
    let delta_fitness := flip_gain vi + flip_gain vj in
    let fitness' := fitness sol + delta_fitness in
    l1 <~ flip_at (lst sol) i ;;
    l2 <~ flip_at l1 j ;;
    Ret (mkSolution l2 fitness' false (weight sol))).

(** [class OneMax] defines no [maximize]; an object with the methods
    above exists only once [maximize] is supplied (by a subclass), and
    [maximize] is what that subclass returns. *)
Definition instance (maximize : bool) (n : nat) : ProblemInstance :=
  mkProblem maximize full_eval has_flip_delta_eval flip_delta_eval
    flip_with_delta (two_rnd_flips n).

End OneMax.

Module Knapsack.

(** [self.items[i][k]] *)
Definition item (items : list (list Z)) (i k : nat) : outcome Z :=
  row <~ getitem items i ;;
  getitem row k.

(** [sum([sol.lst[i] * self.items[i][k] for i in range(l)])] *)
Definition weighted_sum (items : list (list Z)) (l : list Z) (k : nat)
  : outcome Z :=
  sum_over (fun i => x <~ getitem l i ;; w <~ item items i k ;; Ret (x * w))
           (range (length l)).

Definition maximize : bool := true.

Definition full_eval (n : nat) (c : Z) (items : list (list Z)) (sol : Solution)
  : outcome Solution :=
  let l := length (lst sol) in
  if negb (l =? n)%nat then Raise AssertionError else
  weight' <~ weighted_sum items (lst sol) 2 ;;
  fitness' <~ (if weight' >? c then Ret 0
               else weighted_sum items (lst sol) 1) ;;
  Ret (mkSolution (lst sol) fitness' false (Some weight')).

Definition has_flip_delta_eval : bool := false.

Definition flip_delta_eval (sol : Solution) (i : nat) : outcome (bool * Z) :=
  Raise NotImplementedError.

Definition flip_with_delta (sol : Solution) (i : nat) (delta_fitness : Z)
  : outcome Solution :=
  Raise NotImplementedError.

Definition two_rnd_flips (n : nat) (c : Z) (items : list (list Z))
    (fuel : nat) (sol : Solution) : M Solution :=
  ij <- sample_two fuel n ;;
  let '(i, j) := ij in
  lift (
    l1 <~ flip_at (lst sol) i ;;
    l2 <~ flip_at l1 j ;;
    full_eval n c items (mkSolution l2 (fitness sol) (invalid sol) (weight sol))).

(** [Knapsack.weight] *)
Definition weight (items : list (list Z)) (sol : Solution) : outcome Z :=
  weighted_sum items (lst sol) 2.

Definition instance (n : nat) (c : Z) (items : list (list Z)) : ProblemInstance :=
  mkProblem maximize (full_eval n c items) has_flip_delta_eval flip_delta_eval
    flip_with_delta (two_rnd_flips n c items).

End Knapsack.

Module NumberPartitioning.

(** [sum([self.a[i] for i in range(l) if sol.lst[i] == b])]: a position
    that the filter rejects contributes nothing and does not read [a]. *)
Definition cost (a : list Z) (l : list Z) (b : Z) : outcome Z :=
  sum_over (fun i => x <~ getitem l i ;;
                     if x =? b then getitem a i else Ret 0)
           (range (length l)).

Definition maximize : bool := false.

Definition full_eval (n : nat) (a : list Z) (sol : Solution) : outcome Solution :=
  let l := length (lst sol) in
  if negb (l =? n)%nat then Raise AssertionError else
  cost1 <~ cost a (lst sol) 0 ;;
  cost2 <~ cost a (lst sol) 1 ;;
  let fitness' := if cost1 >? cost2 then cost1 - cost2 else cost2 - cost1 in
  Ret (mkSolution (lst sol) fitness' false (weight sol)).

Definition has_flip_delta_eval : bool := false.

Definition flip_delta_eval (sol : Solution) (i : nat) : outcome (bool * Z) :=
  Raise NotImplementedError.

(** Declared with two parameters, called by the explorer with three. *)
Definition flip_with_delta (sol : Solution) (i : nat) (delta_fitness : Z)
  : outcome Solution :=
  Raise TypeError.

Definition two_rnd_flips (n : nat) (a : list Z) (fuel : nat) (sol : Solution)
  : M Solution :=
  ij <- sample_two fuel n ;;
  let '(i, j) := ij in
  lift (
    l1 <~ flip_at (lst sol) i ;;
    l2 <~ flip_at l1 j ;;
    full_eval n a (mkSolution l2 (fitness sol) (invalid sol) (weight sol))).

Definition instance (n : nat) (a : list Z) : ProblemInstance :=
  mkProblem maximize (full_eval n a) has_flip_delta_eval flip_delta_eval
    flip_with_delta (two_rnd_flips n a).

End NumberPartitioning.

(* ===================================================================== *)
(** ** The classes and their instantiation *)
(* ===================================================================== *)

(** [ProblemInstance] derives from [ABC]: a subclass can be instantiated
    only when it overrides every method marked [@abstractmethod]. *)
Module Classes.

Inductive class : Type := OneMax | Knapsack | NumberPartitioning.

(** The methods [ProblemInstance] marks abstract. *)
Definition abstract_methods : list string :=
  ["maximize"; "full_eval"; "has_flip_delta_eval"; "flip_delta_eval";
   "flip_with_delta"; "two_rnd_flips"]%string.

(** The names each class body binds. *)
Definition defines (c : class) : list string :=
  match c with
  | OneMax =>
      ["__init__"; "full_eval"; "has_flip_delta_eval"; "flip_delta_eval";
       "flip_with_delta"; "two_rnd_flips"]%string
  | Knapsack =>
      ["__init__"; "__str__"; "maximize"; "full_eval"; "weight";
       "has_flip_delta_eval"; "flip_delta_eval"; "flip_with_delta";
       "two_rnd_flips"]%string
  | NumberPartitioning =>
      ["__init__"; "__str__"; "maximize"; "full_eval";
       "has_flip_delta_eval"; "flip_delta_eval"; "flip_with_delta";
       "two_rnd_flips"]%string
  end.

Definition mem (m : string) (ms : list string) : bool :=
  existsb (String.eqb m) ms.

(** [cls.__abstractmethods__] *)
Definition still_abstract (c : class) : list string :=
  filter (fun m => negb (mem m (defines c))) abstract_methods.

(** The result of [maximize()] on an object of the class, were there
    one: the class's own method, or the inherited stub, whose body is
    [pass] and which therefore returns [None]. *)
Definition maximize_result (c : class) : option bool :=
  match c with
  | OneMax => None
  | Knapsack => Some Knapsack.maximize
  | NumberPartitioning => Some NumberPartitioning.maximize
  end.

(** Truth value of the result, as the conditional expressions of
    [strictly_better] and [better_or_equal] test it. *)
Definition truthy (r : option bool) : bool :=
  match r with
  | Some b => b
  | None => false
  end.

(** The data a constructor call leaves in the object. *)
Inductive fields : Type :=
| OneMax_fields (n : nat)
| Knapsack_fields (n : nat) (c : Z) (items : list (list Z))
| NumberPartitioning_fields (n : nat) (a : list Z).

Definition class_of (f : fields) : class :=
  match f with
  | OneMax_fields _ => OneMax
  | Knapsack_fields _ _ _ => Knapsack
  | NumberPartitioning_fields _ _ => NumberPartitioning
  end.

(** Creating the object: [TypeError] while a method is still abstract. *)
Definition new (f : fields) : outcome ProblemInstance :=
  match still_abstract (class_of f) with
  | _ :: _ => Raise TypeError
  | [] =>
      Ret (match f with
           | OneMax_fields n =>
               OneMax.instance (truthy (maximize_result OneMax)) n
           | Knapsack_fields n c items => Knapsack.instance n c items
           | NumberPartitioning_fields n a => NumberPartitioning.instance n a
           end)
  end.

End Classes.

(* ===================================================================== *)
(** ** The flip neighbourhood explorer *)
(* ===================================================================== *)

(** The local variables of [flip_neighbour_explorer] that its loop
    updates. [delta_fitness] is unbound until the delta branch assigns it. *)
Record explorer_state : Type := mkState {
  improved : bool;
  delta_fitness : option Z;
  best_delta_fitness : Z;
  best_sol : Solution;
  best_i : nat
}.

(** [for i in indices: ...]; a [break] ends the recursion. *)
Fixpoint explore_indices (sol : Solution) (p : ProblemInstance)
    (first_improvement : bool) (indices : list nat) (st : explorer_state)
  : outcome explorer_state :=
  match indices with
  | [] => Ret st
  | i :: rest =>
      if has_flip_delta_eval p then
        r <~ flip_delta_eval p sol i ;;
        let '(improved', delta') := r in
        let st1 := mkState improved' (Some delta') (best_delta_fitness st)
                     (best_sol st) (best_i st) in
        if improved' then
          let st2 :=
            if strictly_better p delta' (best_delta_fitness st1)
            then mkState improved' (Some delta') delta' (best_sol st1) i
            else st1 in
          if first_improvement then Ret st2
          else explore_indices sol p first_improvement rest st2
        else explore_indices sol p first_improvement rest st1
      else
        let new_sol := deepcopy sol in
        l' <~ flip_at (lst new_sol) i ;;
        new_sol <~ full_eval p (mkSolution l' (fitness new_sol)
                                  (invalid new_sol) (weight new_sol)) ;;
        if strictly_better p (fitness new_sol) (fitness sol) then
          let st1 := mkState true (delta_fitness st) (best_delta_fitness st)
                       (best_sol st) (best_i st) in
          let st2 :=
            if strictly_better p (fitness new_sol) (fitness (best_sol st1))
            then mkState true (delta_fitness st1) (best_delta_fitness st1)
                   new_sol i
            else st1 in
          if first_improvement then Ret st2
          else explore_indices sol p first_improvement rest st2
        else explore_indices sol p first_improvement rest st
  end.

Definition flip_neighbour_explorer (sol : Solution) (p : ProblemInstance)
    (first_improvement : bool) : M (bool * Solution) :=
  let indices := range (length (lst sol)) in
  let best_delta_fitness0 := 0 in
  let best_sol0 := deepcopy sol in
  best_i0 <- lift (getitem indices 0) ;;
  let improved0 := false in
  indices <- (if first_improvement then shuffle indices else ret indices) ;;
  st <- lift (explore_indices sol p first_improvement indices
                (mkState improved0 None best_delta_fitness0 best_sol0 best_i0)) ;;
  if improved st then
    if has_flip_delta_eval p then
      let new_sol := deepcopy sol in
      d <- lift (match delta_fitness st with
                 | Some d => Ret d
                 | None => Raise UnboundLocalError
                 end) ;;
      new_sol <- lift (flip_with_delta p new_sol (best_i st) d) ;;
      ret (improved st, new_sol)
    else ret (improved st, best_sol st)
  else ret (improved st, sol).

(* ===================================================================== *)
(** ** The hill climber *)
(* ===================================================================== *)

Definition explorer : Type := Solution -> ProblemInstance -> bool -> M (bool * Solution).

(** [while improved: improved, sol = neighbour_explorer(sol, ...)] *)
Fixpoint hc_while (fuel : nat) (p : ProblemInstance) (neighbour_explorer : explorer)
    (first_improvement : bool) (improved : bool) (sol : Solution) : M Solution :=
  if improved then
    match fuel with
    | O => fun _ => OutOfFuel
    | S fuel' =>
        r <- neighbour_explorer sol p first_improvement ;;
        hc_while fuel' p neighbour_explorer first_improvement (fst r) (snd r)
    end
  else ret sol.

Definition hc (fuel : nat) (init_sol : Solution) (p : ProblemInstance)
    (neighbour_explorer : explorer) (first_improvement : bool) : M Solution :=
  r <- neighbour_explorer init_sol p first_improvement ;;
  hc_while fuel p neighbour_explorer first_improvement (fst r) (snd r).

(* ===================================================================== *)
(** ** The iterated local search driver *)
(* ===================================================================== *)

Definition local_search : Type :=
  nat -> Solution -> ProblemInstance -> explorer -> bool -> M Solution.

(** One line of the log: the best local optimum before the jump and the
    local optimum reached. *)
Definition trajectory : Type := list (Solution * Solution).

(** The acceptance step, lines 167 to 174 of [ils.py]: the new [best_lo]
    and the new [non_improvement_cnt]. *)
Definition acceptance (p : ProblemInstance) (lo best_lo : Solution)
    (non_improvement_cnt : Z) : Solution * Z :=
  if better_or_equal p (fitness lo) (fitness best_lo) then
    let best_lo := deepcopy lo in
    if strictly_better p (fitness lo) (fitness best_lo) then (best_lo, 0)
    else (best_lo, non_improvement_cnt + 1)
  else (best_lo, non_improvement_cnt + 1).

(** The body of the [while] loop of [ils]. *)
Definition ils_body (fuel : nat) (p : ProblemInstance) (ls : local_search)
    (neighbour_explorer : explorer) (first_improvement : bool)
    (best_lo : Solution) (non_improvement_cnt : Z) (log : trajectory)
  : M (Solution * Z * trajectory) :=
  let s := deepcopy best_lo in
  s <- two_rnd_flips p fuel s ;;
  lo <- ls fuel s p neighbour_explorer first_improvement ;;
  let log := log ++ [(best_lo, lo)] in
  let '(best_lo, non_improvement_cnt) :=
    acceptance p lo best_lo non_improvement_cnt in
  ret (best_lo, non_improvement_cnt, log).

(** [while non_improvement_cnt < non_impr_iters: ...] *)
Fixpoint ils_while (fuel inner : nat) (p : ProblemInstance) (ls : local_search)
    (neighbour_explorer : explorer) (non_impr_iters : Z)
    (first_improvement : bool)
    (best_lo : Solution) (non_improvement_cnt : Z) (log : trajectory)
  : M (Solution * trajectory) :=
  if non_improvement_cnt <? non_impr_iters then
    match fuel with
    | O => fun _ => OutOfFuel
    | S fuel' =>
        r <- ils_body inner p ls neighbour_explorer first_improvement
               best_lo non_improvement_cnt log ;;
        let '(best_lo, non_improvement_cnt, log) := r in
        ils_while fuel' inner p ls neighbour_explorer non_impr_iters
          first_improvement best_lo non_improvement_cnt log
    end
  else ret (best_lo, log).

(** [ils]: the result is the best local optimum, paired with the log the
    run wrote (one line for each iteration of the loop). *)
Definition ils (fuel : nat) (sol : Solution) (p : ProblemInstance)
    (ls : local_search) (neighbour_explorer : explorer)
    (non_impr_iters : Z) (first_improvement : bool)
  : M (Solution * trajectory) :=
  lo <- ls fuel sol p neighbour_explorer first_improvement ;;
  let best_lo := deepcopy lo in
  let non_improvement_cnt := 0 in
  ils_while fuel fuel p ls neighbour_explorer non_impr_iters first_improvement
    best_lo non_improvement_cnt [].

(* ===================================================================== *)
(** ** Basic facts about the building blocks *)
(* ===================================================================== *)

Definition is_bitstring (l : list Z) : Prop :=
  Forall (fun v => v = 0 \/ v = 1) l.

(** [sum(l)] *)
Definition total (l : list Z) : Z := foldr Z.add 0 l.

Lemma getitem_Ret {A : Type} (l : list A) (i : nat) (a : A) :
  getitem l i = Ret a <-> l !! i = Some a.
Proof.
  unfold getitem. destruct (l !! i); split; intros H; congruence.
Qed.

Lemma getitem_lt {A : Type} (l : list A) (i : nat) :
  (i < length l)%nat -> exists a, getitem l i = Ret a /\ l !! i = Some a.
Proof.
  intros Hi. destruct (lookup_lt_is_Some_2 l i Hi) as [a Ha].
  exists a. split; [by apply getitem_Ret | done].
Qed.

Lemma flip_at_Ret (l l' : list Z) (i : nat) :
  flip_at l i = Ret l' ->
  exists v, l !! i = Some v /\ l' = <[i := flip01 v]> l.
Proof.
  unfold flip_at, getitem. destruct (l !! i) as [v|] eqn:E; simpl; [|done].
  intros [= <-]. eauto.
Qed.

Lemma flip_at_lt (l : list Z) (i : nat) :
  (i < length l)%nat ->
  exists v, l !! i = Some v /\ flip_at l i = Ret (<[i := flip01 v]> l).
Proof.
  intros Hi. destruct (lookup_lt_is_Some_2 l i Hi) as [v Hv].
  exists v. split; [done|]. unfold flip_at, getitem. by rewrite Hv.
Qed.

Lemma flip_at_length (l l' : list Z) (i : nat) :
  flip_at l i = Ret l' -> length l' = length l.
Proof.
  intros (v & _ & ->)%flip_at_Ret. apply length_insert.
Qed.

Lemma total_insert (l : list Z) (i : nat) (x y : Z) :
  l !! i = Some x -> total (<[i := y]> l) = total l - x + y.
Proof.
  revert i. induction l as [|a l IH]; intros [|i] H; simpl in *; try done.
  - injection H as ->. unfold total. simpl. lia.
  - unfold total in *. simpl. rewrite (IH i H). lia.
Qed.

Lemma is_bitstring_lookup (l : list Z) (i : nat) (v : Z) :
  is_bitstring l -> l !! i = Some v -> v = 0 \/ v = 1.
Proof.
  intros Hb Hv. unfold is_bitstring in Hb. rewrite Forall_lookup in Hb.
  exact (Hb i v Hv).
Qed.

Lemma is_bitstring_insert (l : list Z) (i : nat) (v : Z) :
  is_bitstring l -> v = 0 \/ v = 1 -> is_bitstring (<[i := v]> l).
Proof.
  intros Hb Hv. by apply Forall_insert.
Qed.

Lemma flip01_bit (v : Z) : flip01 v = 0 \/ flip01 v = 1.
Proof. unfold flip01. destruct (v =? 1); auto. Qed.

Lemma strictly_better_irrefl (p : ProblemInstance) (a : Z) :
  strictly_better p a a = false.
Proof.
  unfold strictly_better. destruct (maximize p); lia.
Qed.

Lemma better_or_equal_refl (p : ProblemInstance) (a : Z) :
  better_or_equal p a a = true.
Proof.
  unfold better_or_equal. destruct (maximize p); lia.
Qed.


Lemma bind_Ret {A B : Type} (m : M A) (k : A -> M B) (g : Rng) (a : A) (g' : Rng) :
  m g = Ret (a, g') -> bind m k g = k a g'.
Proof.
  intros H. unfold bind. by rewrite H.
Qed.

Lemma bind_inv {A B : Type} (m : M A) (k : A -> M B) (g : Rng) (b : B) (g2 : Rng) :
  bind m k g = Ret (b, g2) ->
  exists a g1, m g = Ret (a, g1) /\ k a g1 = Ret (b, g2).
Proof.
  unfold bind. destruct (m g) as [[a g1]| |]; try done. eauto.
Qed.

Lemma lift_inv {A : Type} (o : outcome A) (g : Rng) (a : A) (g' : Rng) :
  lift o g = Ret (a, g') -> o = Ret a /\ g' = g.
Proof.
  unfold lift. destruct o; try done. by intros [= -> ->].
Qed.

Lemma obind_inv {A B : Type} (m : outcome A) (k : A -> outcome B) (b : B) :
  obind m k = Ret b -> exists a, m = Ret a /\ k a = Ret b.
Proof.
  destruct m; try done. simpl. eauto.
Qed.

(** The two orders in which [shuffle] can leave a list of two positions. *)
Lemma shuffle_two (g : Rng) :
  exists idx, shuffle (range 2) g = Ret (idx, advance g) /\
              (idx = [0; 1]%nat \/ idx = [1; 0]%nat).
Proof.
  unfold shuffle, range. cbn [length seq Nat.sub shuffle_from].
  unfold bind, randbelow, ret.
  assert (Hj : (draws g (pos g) mod 2 < 2)%nat)
    by (apply Nat.mod_upper_bound; lia).
  destruct (draws g (pos g) mod 2)%nat as [|[|j]]; [| |lia]; eauto.
Qed.

(** Closes [is_bitstring] goals on explicit lists. *)
Ltac solve_bits :=
  unfold is_bitstring;
  repeat first [apply Forall_nil_2 | apply Forall_cons_2; [auto|]].

(** The sample inputs used below. *)
Definition sol_01 : Solution := mkSolution [0; 1] 1 false None.
Definition sol_11 : Solution := mkSolution [1; 1] 2 false None.
Definition counting : Rng := mkRng (fun k => k) 0.

(* ===================================================================== *)
(** ** C4: the comparison direction of each variant *)
(* ===================================================================== *)

(** C4. The claim asks every variant for a [maximize] and names OneMax a
    maximising one. In the source Knapsack answers [True] and
    NumberPartitioning [False], but class OneMax binds no [maximize]:
    the method stays abstract, so creating a OneMax object raises
    [TypeError], and the stub it inherits returns [None], under which
    [strictly_better(a, b)] would be [a < b] and [better_or_equal(a, b)]
    would be [a <= b]. *)
Theorem OneMax_leaves_maximize_abstract :
  Classes.maximize_result Classes.Knapsack = Some true /\
  Classes.maximize_result Classes.NumberPartitioning = Some false /\
  Classes.still_abstract Classes.Knapsack = [] /\
  Classes.still_abstract Classes.NumberPartitioning = [] /\
  Classes.still_abstract Classes.OneMax = ["maximize"%string] /\
  (forall n, Classes.new (Classes.OneMax_fields n) = Raise TypeError) /\
  Classes.maximize_result Classes.OneMax = None /\
  (forall n a b,
     let stub := Classes.truthy (Classes.maximize_result Classes.OneMax) in
     strictly_better (OneMax.instance stub n) a b = (a <? b) /\
     better_or_equal (OneMax.instance stub n) a b = (a <=? b)).
Proof.
  repeat split; reflexivity.
Qed.

(* ===================================================================== *)
(** ** C2: the acceptance step of the driver *)
(* ===================================================================== *)

Lemma acceptance_unfold (p : ProblemInstance) (lo best_lo : Solution) (cnt : Z) :
  acceptance p lo best_lo cnt =
    ((if better_or_equal p (fitness lo) (fitness best_lo)
      then deepcopy lo else best_lo),
     cnt + 1).
Proof.
  unfold acceptance, deepcopy. rewrite strictly_better_irrefl.
  by destruct (better_or_equal p (fitness lo) (fitness best_lo)).
Qed.

(** C2. In the acceptance step, once [best_lo] has been replaced by a copy
    of [lo], the test [strictly_better(lo.fitness, best_lo.fitness)]
    compares a fitness with itself and is false; the counter is therefore
    never reset by that branch, and every iteration of the loop that
    completes leaves it exactly one higher. *)
Theorem acceptance_counter_increments :
  forall (p : ProblemInstance) (lo best_lo : Solution) (cnt : Z),
    strictly_better p (fitness lo) (fitness (deepcopy lo)) = false /\
    acceptance p lo best_lo cnt =
      ((if better_or_equal p (fitness lo) (fitness best_lo)
        then deepcopy lo else best_lo),
       cnt + 1) /\
    (forall fuel ls ne fi log g best' cnt' log' g',
       ils_body fuel p ls ne fi best_lo cnt log g
         = Ret (best', cnt', log', g') ->
       cnt' = cnt + 1 /\ length log' = S (length log)).
Proof.
  intros p lo best_lo cnt.
  split; [apply strictly_better_irrefl|].
  split; [apply acceptance_unfold|].
  intros fuel ls ne fi log g best' cnt' log' g'.
  unfold ils_body, bind, deepcopy.
  destruct (two_rnd_flips p fuel best_lo g) as [[s g1]| |]; try done.
  destruct (ls fuel s p ne fi g1) as [[lo1 g2]| |]; try done.
  rewrite acceptance_unfold. unfold ret. intros [= <- <- <- <-].
  split; [done|]. rewrite length_app. simpl. lia.
Qed.

Definition npp4 : ProblemInstance := NumberPartitioning.instance 4 [5; 3; 7; 4].
Definition sol_0110 : Solution := mkSolution [0; 1; 1; 0] 1 false None.

Lemma acceptance_counter_increments_witness :
  exists best' cnt' log' g',
    ils_body 10 npp4 hc flip_neighbour_explorer true sol_0110 0 [] counting
      = Ret (best', cnt', log', g') /\
    cnt' = 0 + 1 /\ length log' = 1%nat.
Proof.
  destruct (ils_body 10 npp4 hc flip_neighbour_explorer true sol_0110 0 []
              counting) as [[[[best' cnt'] log'] g']| |] eqn:E;
    [|vm_compute in E; discriminate..].
  exists best', cnt', log', g'. split; [reflexivity|].
  destruct (acceptance_counter_increments npp4 sol_0110 sol_0110 0)
    as (_ & _ & Hbody).
  exact (Hbody _ _ _ _ _ _ _ _ _ _ E).
Defined.

(* ===================================================================== *)
(** ** C3: the explorer on the empty solution *)
(* ===================================================================== *)

(** C3. On a solution of length 0 the explorer does not complete: the
    initialisation [best_i = indices[0]] reads the first element of an
    empty list and raises [IndexError], for every problem instance, both
    modes and every state of the generator. *)
Theorem explorer_raises_on_empty_solution :
  forall (p : ProblemInstance) (fit : Z) (inv : bool) (w : option Z)
         (first_improvement : bool) (g : Rng),
    flip_neighbour_explorer (mkSolution [] fit inv w) p first_improvement g
      = Raise IndexError.
Proof.
  intros. reflexivity.
Qed.

(* ===================================================================== *)
(** ** C1 and C6: best improvement with delta evaluation *)
(* ===================================================================== *)

(** C1. Best-improvement mode on a delta-evaluating problem, at the
    solution [0, 1] of fitness 1: flipping position 0 improves (delta 1),
    yet the explorer answers [False] and hands back the input. The loop
    assigns [improved] anew at every position, so the answer is the
    verdict of the last position visited. *)
Theorem best_improvement_reports_last_verdict :
  forall (m : bool) (g : Rng),
    has_flip_delta_eval (OneMax.instance m 2) = true /\
    flip_delta_eval (OneMax.instance m 2) sol_01 0 = Ret (true, 1) /\
    flip_with_delta (OneMax.instance m 2) (deepcopy sol_01) 0 1 = Ret sol_11 /\
    flip_neighbour_explorer sol_01 (OneMax.instance m 2) false g
      = Ret (false, sol_01, g).
Proof.
  intros m g. repeat split.
Qed.

(** C6. The hill climber in best-improvement mode, started at [0, 1] on
    the same problem, returns [0, 1] at once, although flipping position
    0 improves it; and the explorer run on that result in
    first-improvement mode reports an improvement, whatever the generator
    draws. *)
Theorem hc_result_is_not_a_local_optimum :
  forall (m : bool) (fuel : nat) (g : Rng),
    hc fuel sol_01 (OneMax.instance m 2) flip_neighbour_explorer false g
      = Ret (sol_01, g) /\
    flip_delta_eval (OneMax.instance m 2) sol_01 0 = Ret (true, 1) /\
    flip_neighbour_explorer sol_01 (OneMax.instance m 2) true g
      = Ret (true, sol_11, advance g).
Proof.
  intros m fuel g. split; [|split; [reflexivity|]].
  - unfold hc, bind.
    assert (H : flip_neighbour_explorer sol_01 (OneMax.instance m 2) false g
                = Ret (false, sol_01, g)) by (by destruct m).
    rewrite H. simpl. by destruct fuel.
  - destruct (shuffle_two g) as (idx & Hs & Hidx).
    unfold flip_neighbour_explorer.
    change (range (length (lst sol_01))) with (range 2).
    rewrite (bind_Ret _ _ g O g) by reflexivity.
    rewrite (bind_Ret _ _ g idx (advance g)) by exact Hs.
    destruct Hidx as [-> | ->]; by destruct m.
Qed.

(* ===================================================================== *)
(** ** C5: the dimension check of [full_eval] *)
(* ===================================================================== *)

Definition sol_short : Solution := mkSolution [1] 0 true None.

(** C5, as stated, fails for OneMax: its [full_eval] is a static method
    that never sees [n]; on a solution of length 1 handed to a problem of
    dimension 3 it returns normally, with the sum of the values. *)
Lemma OneMax_full_eval_accepts_any_length :
  length (lst sol_short) <> 3%nat /\
  (forall m : bool,
     full_eval (OneMax.instance m 3) sol_short
       = Ret (mkSolution [1] 1 false None)).
Proof.
  split; [discriminate | reflexivity].
Qed.

(** C5, amended. For Knapsack and NumberPartitioning, [full_eval] on a
    solution whose length differs from [n] raises [AssertionError] before
    anything else is computed; OneMax's [full_eval] performs no such check
    and returns the solution with fitness [sum(lst)] and [invalid] cleared,
    whatever its length. *)
Theorem full_eval_dimension_mismatch :
  forall (n : nat) (sol : Solution),
    length (lst sol) <> n ->
    (forall c items,
       full_eval (Knapsack.instance n c items) sol = Raise AssertionError) /\
    (forall a,
       full_eval (NumberPartitioning.instance n a) sol = Raise AssertionError) /\
    (forall m,
       full_eval (OneMax.instance m n) sol
         = Ret (mkSolution (lst sol) (total (lst sol)) false (weight sol))).
Proof.
  intros n sol Hlen.
  assert (Hneq : (length (lst sol) =? n)%nat = false)
    by (by apply Nat.eqb_neq).
  repeat split; intros; simpl;
    unfold Knapsack.full_eval, NumberPartitioning.full_eval;
    by rewrite ?Hneq.
Qed.

Lemma full_eval_dimension_mismatch_witness :
  (forall c items,
     full_eval (Knapsack.instance 3 c items) sol_short = Raise AssertionError) /\
  (forall a,
     full_eval (NumberPartitioning.instance 3 a) sol_short
       = Raise AssertionError) /\
  (forall m,
     full_eval (OneMax.instance m 3) sol_short
       = Ret (mkSolution [1] 1 false None)).
Proof.
  apply (full_eval_dimension_mismatch 3 sol_short). simpl. lia.
Defined.

(* ===================================================================== *)
(** ** C8: delta evaluation against full evaluation for OneMax *)
(* ===================================================================== *)

(** C8. For a bitstring and a valid position [i], [flip_delta_eval]
    returns the delta and the verdict that full evaluation gives: with
    [orig] the full evaluation of the solution and [flipped] that of a
    copy on which position [i] is flipped, the delta is
    [flipped.fitness - orig.fitness] and [improved] is
    [flipped.fitness > orig.fitness], the strict comparison of a
    maximising problem. *)
Theorem OneMax_flip_delta_eval_agrees_with_full_eval :
  forall (sol : Solution) (i : nat),
    is_bitstring (lst sol) ->
    (i < length (lst sol))%nat ->
    exists (l' : list Z) (orig flipped : Solution) (improved : bool) (delta : Z),
      flip_at (lst (deepcopy sol)) i = Ret l' /\
      OneMax.full_eval sol = Ret orig /\
      OneMax.full_eval (mkSolution l' (fitness sol) (invalid sol) (weight sol))
        = Ret flipped /\
      OneMax.flip_delta_eval sol i = Ret (improved, delta) /\
      delta = fitness flipped - fitness orig /\
      improved = (fitness flipped >? fitness orig) /\
      (forall n, improved =
         strictly_better (OneMax.instance true n) (fitness flipped) (fitness orig)).
Proof.
  intros sol i Hbits Hi.
  destruct (flip_at_lt (lst sol) i Hi) as (v & Hv & Hflip).
  pose proof (is_bitstring_lookup _ _ _ Hbits Hv) as Hbit.
  exists (<[i := flip01 v]> (lst sol)). eexists. eexists.
  exists (flip_gain v >? 0), (flip_gain v).
  split; [exact Hflip|].
  split; [reflexivity|].
  split; [reflexivity|].
  split.
  { unfold OneMax.flip_delta_eval.
    rewrite (proj2 (getitem_Ret _ _ _) Hv). reflexivity. }
  simpl. fold (total (<[i := flip01 v]> (lst sol))). fold (total (lst sol)).
  rewrite (total_insert _ _ _ _ Hv).
  unfold flip_gain, flip01, strictly_better. simpl.
  destruct Hbit as [-> | ->]; simpl; repeat split; lia.
Qed.

Lemma OneMax_flip_delta_eval_agrees_with_full_eval_witness :
  exists (l' : list Z) (orig flipped : Solution) (improved : bool) (delta : Z),
    flip_at (lst (deepcopy sol_01)) 0 = Ret l' /\
    OneMax.full_eval sol_01 = Ret orig /\
    OneMax.full_eval (mkSolution l' (fitness sol_01) (invalid sol_01)
                        (weight sol_01)) = Ret flipped /\
    OneMax.flip_delta_eval sol_01 0 = Ret (improved, delta) /\
    delta = fitness flipped - fitness orig /\
    improved = (fitness flipped >? fitness orig) /\
    (forall n, improved =
       strictly_better (OneMax.instance true n) (fitness flipped) (fitness orig)).
Proof.
  apply (OneMax_flip_delta_eval_agrees_with_full_eval sol_01 0).
  - solve_bits.
  - simpl. lia.
Defined.

(* ===================================================================== *)
(** ** Sampling two positions *)
(* ===================================================================== *)

(** A generator is fair for dimension [n] when, from every point of its
    sequence on and for every value, a later draw differs from that
    value modulo [n]: the rejection loop of [two_rnd_flips] then ends. *)
Definition fair (n : nat) (g : Rng) : Prop :=
  forall (k v : nat), exists k', (k <= k')%nat /\ (draws g k' mod n)%nat <> v.

Lemma randint0_inv (n : nat) (g : Rng) (i : nat) (g' : Rng) :
  randint0 n g = Ret (i, g') ->
  (i < n)%nat /\ i = (draws g (pos g) mod n)%nat /\ g' = advance g.
Proof.
  destruct n as [|n]; [done|].
  unfold randint0, randbelow. intros H.
  assert (Hi : (draws g (pos g) mod S n)%nat = i) by congruence.
  assert (Hg : advance g = g') by congruence.
  subst. split; [apply Nat.mod_upper_bound; lia | done].
Qed.

Lemma randint0_pos (n : nat) (g : Rng) :
  n <> O -> randint0 n g = Ret ((draws g (pos g) mod n)%nat, advance g).
Proof.
  destruct n; [done | reflexivity].
Qed.

Lemma resample_inv (fuel n i : nat) :
  forall (j : nat) (g : Rng) (j' : nat) (g' : Rng),
    resample fuel n i j g = Ret (j', g') ->
    j' <> i /\ (j' = j \/ (j' < n)%nat) /\ draws g' = draws g.
Proof.
  induction fuel as [|fuel IH]; intros j g j' g'; simpl;
    destruct (j =? i)%nat eqn:E; try done.
  - unfold ret. intros [= <- <-]. apply Nat.eqb_neq in E. auto.
  - intros (j1 & g1 & H1 & H2)%bind_inv.
    apply randint0_inv in H1 as (Hlt & _ & ->).
    apply IH in H2 as (Hne & Hor & Hd).
    split; [done|]. split; [|done].
    right. destruct Hor as [-> | ?]; done.
  - unfold ret. intros [= <- <-]. apply Nat.eqb_neq in E. auto.
Qed.

Lemma resample_mono (fuel fuel' n i : nat) :
  (fuel <= fuel')%nat ->
  forall (j : nat) (g : Rng) (r : nat * Rng),
    resample fuel n i j g = Ret r -> resample fuel' n i j g = Ret r.
Proof.
  revert fuel'. induction fuel as [|fuel IH]; intros fuel' Hle j g r; simpl.
  - destruct (j =? i)%nat eqn:E; [done|].
    intros H. destruct fuel'; simpl; by rewrite E.
  - destruct fuel' as [|fuel']; [lia|]. simpl.
    destruct (j =? i)%nat; [|done].
    unfold bind. destruct (randint0 n g) as [[j1 g1]| |]; try done.
    apply IH. lia.
Qed.

(** The loop ends as soon as a draw differs from [i]. *)
Lemma resample_progress (n i : nat) :
  n <> O ->
  forall (d j : nat) (g : Rng),
    (draws g (pos g + d) mod n)%nat <> i ->
    exists j' g', resample (S d) n i j g = Ret (j', g').
Proof.
  intros Hn. induction d as [|d IH]; intros j g Hd; simpl.
  - destruct (j =? i)%nat; [|unfold ret; eauto].
    unfold bind. rewrite (randint0_pos n g Hn).
    rewrite Nat.add_0_r in Hd. apply Nat.eqb_neq in Hd. rewrite Hd.
    unfold ret. eauto.
  - destruct (j =? i)%nat; [|unfold ret; eauto].
    unfold bind. rewrite (randint0_pos n g Hn).
    apply (IH _ (advance g)). simpl.
    by replace (S (pos g + d))%nat with (pos g + S d)%nat by lia.
Qed.

Lemma sample_two_inv (fuel n : nat) (g : Rng) (i j : nat) (g' : Rng) :
  sample_two fuel n g = Ret (i, j, g') ->
  i <> j /\ (i < n)%nat /\ (j < n)%nat /\ draws g' = draws g.
Proof.
  unfold sample_two.
  intros (i1 & g1 & H1 & (j1 & g2 & H2 & H3)%bind_inv)%bind_inv.
  unfold ret in H3. injection H3 as <- <- <-.
  apply randint0_inv in H1 as (Hlt & _ & ->).
  apply resample_inv in H2 as (Hne & Hor & Hd).
  repeat split; [congruence | done | | done].
  destruct Hor as [-> | ?]; done.
Qed.

Lemma sample_two_mono (fuel fuel' n : nat) (g : Rng) (r : nat * nat * Rng) :
  (fuel <= fuel')%nat ->
  sample_two fuel n g = Ret r -> sample_two fuel' n g = Ret r.
Proof.
  intros Hle. unfold sample_two, bind.
  destruct (randint0 n g) as [[i g1]| |]; try done.
  destruct (resample fuel n i i g1) as [[j g2]| |] eqn:E; try done.
  by rewrite (resample_mono fuel fuel' n i Hle _ _ _ E).
Qed.

Lemma sample_two_progress (n : nat) (g : Rng) :
  n <> O -> fair n g ->
  exists fuel i j g', sample_two fuel n g = Ret (i, j, g').
Proof.
  intros Hn Hfair.
  set (i := (draws g (pos g) mod n)%nat).
  destruct (Hfair (S (pos g)) i) as (k' & Hk & Hne).
  destruct (resample_progress n i Hn (k' - S (pos g)) i (advance g))
    as (j & g' & Hr).
  { assert (E : (pos (advance g) + (k' - S (pos g)))%nat = k')
      by (simpl; lia).
    rewrite E. exact Hne. }
  exists (S (k' - S (pos g))), i, j, g'.
  unfold sample_two, bind. rewrite (randint0_pos n g Hn).
  fold i. by rewrite Hr.
Qed.

Lemma fair_draws (n : nat) (g g' : Rng) :
  draws g' = draws g -> fair n g -> fair n g'.
Proof.
  intros Hd Hf k v. rewrite Hd. apply Hf.
Qed.

(** The generator that returns 0, 1, 2, ... is fair for every [n >= 2]. *)
Lemma counting_fair (n : nat) : (2 <= n)%nat -> fair n counting.
Proof.
  intros Hn k v. simpl.
  destruct (Nat.eq_dec (k mod n)%nat v) as [E|E];
    [|exists k; split; [lia|done]].
  destruct (Nat.eq_dec (S k mod n)%nat v) as [E'|E'];
    [|exists (S k); split; [lia|done]].
  exfalso.
  pose proof (Nat.div_mod_eq k n) as H1.
  pose proof (Nat.div_mod_eq (S k) n) as H2.
  rewrite E in H1. rewrite E' in H2.
  assert (Hv : (v < n)%nat) by (rewrite <- E; apply Nat.mod_upper_bound; lia).
  assert (H3 : (n * (S k / n) = n * (k / n) + 1)%nat) by lia.
  assert (H4 : (S k / n = k / n \/ S k / n > k / n \/ S k / n < k / n)%nat) by lia.
  destruct H4 as [H4 | [H4 | H4]]; [rewrite H4 in H3; lia | nia | nia].
Qed.

(* ===================================================================== *)
(** ** The objectives as functions of the value list *)
(* ===================================================================== *)

(** [sum_over] over positions where every element is defined. *)
Definition pure_sum (h : nat -> Z) (idx : list nat) : Z :=
  foldr (fun i acc => h i + acc) 0 idx.

Lemma sum_over_pure (f : nat -> outcome Z) (h : nat -> Z) (idx : list nat) :
  (forall i, i ∈ idx -> f i = Ret (h i)) ->
  sum_over f idx = Ret (pure_sum h idx).
Proof.
  induction idx as [|i idx IH]; intros H; simpl; [done|].
  rewrite (H i) by (by left). simpl.
  rewrite IH by (intros k Hk; apply H; by right). done.
Qed.

Lemma elem_of_range (n i : nat) : i ∈ range n <-> (i < n)%nat.
Proof.
  unfold range. rewrite elem_of_seq. lia.
Qed.

Lemma pure_sum_ext (h1 h2 : nat -> Z) (idx : list nat) :
  (forall i, i ∈ idx -> h1 i = h2 i) -> pure_sum h1 idx = pure_sum h2 idx.
Proof.
  induction idx as [|i idx IH]; intros H; simpl; [done|].
  rewrite (H i) by (by left).
  rewrite IH by (intros k Hk; apply H; by right). done.
Qed.

Lemma pure_sum_abs_le (h b : nat -> Z) (idx : list nat) :
  (forall i, i ∈ idx -> Z.abs (h i) <= b i) ->
  Z.abs (pure_sum h idx) <= pure_sum b idx.
Proof.
  induction idx as [|i idx IH]; intros H; simpl; [lia|].
  assert (H1 : Z.abs (h i) <= b i) by (apply H; by left).
  assert (H2 : Z.abs (pure_sum h idx) <= pure_sum b idx)
    by (apply IH; intros k Hk; apply H; by right).
  lia.
Qed.

Module KnapsackFacts.

(** Every one of the first [n] rows of [items] has its three columns. *)
Definition items_ok (n : nat) (items : list (list Z)) : Prop :=
  forall i, (i < n)%nat ->
    exists row, items !! i = Some row /\ (3 <= length row)%nat.

(** [self.items[i][k]] where it exists. *)
Definition column (items : list (list Z)) (k i : nat) : Z :=
  nth k (nth i items []) 0.

Definition dot (items : list (list Z)) (k : nat) (l : list Z) : Z :=
  pure_sum (fun i => nth i l 0 * column items k i) (range (length l)).

(** The fitness [Knapsack.full_eval] assigns to a value list. *)
Definition objective (c : Z) (items : list (list Z)) (l : list Z) : Z :=
  if dot items 2 l >? c then 0 else dot items 1 l.

Lemma item_ok (n : nat) (items : list (list Z)) (i k : nat) :
  items_ok n items -> (i < n)%nat -> (k < 3)%nat ->
  Knapsack.item items i k = Ret (column items k i).
Proof.
  intros Hok Hi Hk. destruct (Hok i Hi) as (row & Hrow & Hlen).
  unfold Knapsack.item, column.
  rewrite (proj2 (getitem_Ret _ _ _) Hrow). simpl.
  rewrite (nth_lookup_Some _ _ [] _ Hrow).
  destruct (lookup_lt_is_Some_2 row k ltac:(lia)) as [v Hv].
  rewrite (proj2 (getitem_Ret _ _ _) Hv).
  by rewrite (nth_lookup_Some _ _ 0 _ Hv).
Qed.

Lemma weighted_sum_ok (n : nat) (items : list (list Z)) (l : list Z) (k : nat) :
  items_ok n items -> length l = n -> (k < 3)%nat ->
  Knapsack.weighted_sum items l k = Ret (dot items k l).
Proof.
  intros Hok Hlen Hk. unfold Knapsack.weighted_sum, dot.
  apply sum_over_pure. intros i Hi%elem_of_range.
  destruct (lookup_lt_is_Some_2 l i Hi) as [x Hx].
  rewrite (proj2 (getitem_Ret _ _ _) Hx). simpl.
  rewrite (item_ok n items i k Hok) by lia. simpl.
  by rewrite (nth_lookup_Some _ _ 0 _ Hx).
Qed.

Lemma knapsack_full_eval_ok (n : nat) (c : Z) (items : list (list Z)) (sol : Solution) :
  items_ok n items -> length (lst sol) = n ->
  Knapsack.full_eval n c items sol
    = Ret (mkSolution (lst sol) (objective c items (lst sol)) false
             (Some (dot items 2 (lst sol)))).
Proof.
  intros Hok Hlen. unfold Knapsack.full_eval, objective.
  rewrite Hlen, Nat.eqb_refl. simpl.
  rewrite (weighted_sum_ok n) by (done || lia). simpl.
  destruct (dot items 2 (lst sol) >? c); simpl; [done|].
  by rewrite (weighted_sum_ok n) by (done || lia).
Qed.

(** [full_eval] reads nothing of the solution but its values. *)
Lemma knapsack_full_eval_inv (n : nat) (c : Z) (items : list (list Z)) (sol e : Solution) :
  Knapsack.full_eval n c items sol = Ret e ->
  length (lst sol) = n /\ lst e = lst sol /\ invalid e = false /\
  (forall sol2, lst sol2 = lst sol ->
     exists e2, Knapsack.full_eval n c items sol2 = Ret e2 /\
                fitness e2 = fitness e).
Proof.
  unfold Knapsack.full_eval.
  destruct (length (lst sol) =? n)%nat eqn:E; simpl; [|done].
  apply Nat.eqb_eq in E.
  intros (w & Hw & (f & Hf & [= <-])%obind_inv)%obind_inv.
  repeat split; try done.
  intros sol2 ->. rewrite E, Nat.eqb_refl. simpl.
  rewrite Hw. simpl. rewrite Hf. simpl. eauto.
Qed.

End KnapsackFacts.

Module NumberPartitioningFacts.

Definition a_ok (n : nat) (a : list Z) : Prop := (n <= length a)%nat.

Definition side (a : list Z) (b : Z) (l : list Z) : Z :=
  pure_sum (fun i => if nth i l 0 =? b then nth i a 0 else 0)
           (range (length l)).

(** The fitness [NumberPartitioning.full_eval] assigns to a value list. *)
Definition objective (a : list Z) (l : list Z) : Z :=
  let cost1 := side a 0 l in
  let cost2 := side a 1 l in
  if cost1 >? cost2 then cost1 - cost2 else cost2 - cost1.

Lemma cost_ok (n : nat) (a : list Z) (l : list Z) (b : Z) :
  a_ok n a -> length l = n ->
  NumberPartitioning.cost a l b = Ret (side a b l).
Proof.
  intros Hok Hlen. unfold NumberPartitioning.cost, side.
  apply sum_over_pure. intros i Hi%elem_of_range.
  destruct (lookup_lt_is_Some_2 l i Hi) as [x Hx].
  rewrite (proj2 (getitem_Ret _ _ _) Hx). simpl.
  rewrite (nth_lookup_Some _ _ 0 _ Hx).
  destruct (x =? b); [|done].
  destruct (lookup_lt_is_Some_2 a i) as [y Hy]; [unfold a_ok in Hok; lia|].
  rewrite (proj2 (getitem_Ret _ _ _) Hy).
  by rewrite (nth_lookup_Some _ _ 0 _ Hy).
Qed.

Lemma partition_full_eval_ok (n : nat) (a : list Z) (sol : Solution) :
  a_ok n a -> length (lst sol) = n ->
  NumberPartitioning.full_eval n a sol
    = Ret (mkSolution (lst sol) (objective a (lst sol)) false (weight sol)).
Proof.
  intros Hok Hlen. unfold NumberPartitioning.full_eval, objective.
  rewrite Hlen, Nat.eqb_refl. simpl.
  rewrite !(cost_ok n) by done. done.
Qed.

Lemma partition_full_eval_inv (n : nat) (a : list Z) (sol e : Solution) :
  NumberPartitioning.full_eval n a sol = Ret e ->
  length (lst sol) = n /\ lst e = lst sol /\ invalid e = false /\
  (forall sol2, lst sol2 = lst sol ->
     exists e2, NumberPartitioning.full_eval n a sol2 = Ret e2 /\
                fitness e2 = fitness e).
Proof.
  unfold NumberPartitioning.full_eval.
  destruct (length (lst sol) =? n)%nat eqn:E; simpl; [|done].
  apply Nat.eqb_eq in E.
  intros (c1 & H1 & (c2 & H2 & [= <-])%obind_inv)%obind_inv.
  repeat split; try done.
  intros sol2 ->. rewrite E, Nat.eqb_refl. simpl.
  rewrite H1. simpl. rewrite H2. simpl. eauto.
Qed.

Lemma objective_nonneg (a : list Z) (l : list Z) : 0 <= objective a l.
Proof.
  unfold objective. simpl.
  destruct (side a 0 l >? side a 1 l) eqn:E; lia.
Qed.

End NumberPartitioningFacts.

(* ===================================================================== *)
(** ** C9: the two-flip perturbation *)
(* ===================================================================== *)

(** A solution is evaluated for a problem when its flag is cleared and a
    full evaluation would give the fitness it already carries. *)
Definition evaluated (p : ProblemInstance) (s : Solution) : Prop :=
  invalid s = false /\
  exists e, full_eval p s = Ret e /\ fitness e = fitness s.

(** [l'] is [l] with two different positions flipped. *)
Definition flipped_twice (l l' : list Z) : Prop :=
  exists (i j : nat) (vi vj : Z),
    i <> j /\ l !! i = Some vi /\ l !! j = Some vj /\
    l' = <[j := flip01 vj]> (<[i := flip01 vi]> l).

(** The shape the Knapsack and NumberPartitioning perturbations share:
    two positions, two flips, then [k] on the new values. *)
Definition flip_two_then (k : list Z -> outcome Solution) (n fuel : nat)
    (sol : Solution) : M Solution :=
  ij <- sample_two fuel n ;;
  let '(i, j) := ij in
  lift (l1 <~ flip_at (lst sol) i ;;
        l2 <~ flip_at l1 j ;;
        k l2).

Lemma two_flips_flipped_twice (l l1 l2 : list Z) (i j : nat) :
  i <> j -> flip_at l i = Ret l1 -> flip_at l1 j = Ret l2 ->
  flipped_twice l l2.
Proof.
  intros Hne (vi & Hvi & ->)%flip_at_Ret (vj & Hvj & ->)%flip_at_Ret.
  rewrite list_lookup_insert_ne in Hvj by done.
  exists i, j, vi, vj. done.
Qed.

Lemma flipped_twice_length (l l' : list Z) :
  flipped_twice l l' -> length l' = length l.
Proof.
  intros (i & j & vi & vj & _ & _ & _ & ->). by rewrite !length_insert.
Qed.

Lemma flip_two_then_inv (k : list Z -> outcome Solution) (n fuel : nat)
    (sol : Solution) (g : Rng) (s' : Solution) (g' : Rng) :
  flip_two_then k n fuel sol g = Ret (s', g') ->
  exists l2, flipped_twice (lst sol) l2 /\ k l2 = Ret s' /\
             draws g' = draws g.
Proof.
  unfold flip_two_then.
  intros ([i j] & g1 & Hs & Hl)%bind_inv.
  apply lift_inv in Hl as [Hl ->].
  apply obind_inv in Hl as (l1 & H1 & Hl).
  apply obind_inv in Hl as (l2 & H2 & Hk).
  apply sample_two_inv in Hs as (Hne & _ & _ & Hd).
  exists l2. split; [|done]. by eapply two_flips_flipped_twice.
Qed.

Lemma flip_two_then_mono (k : list Z -> outcome Solution) (n fuel fuel' : nat)
    (sol : Solution) (g : Rng) (r : Solution * Rng) :
  (fuel <= fuel')%nat ->
  flip_two_then k n fuel sol g = Ret r ->
  flip_two_then k n fuel' sol g = Ret r.
Proof.
  intros Hle. unfold flip_two_then, bind.
  destruct (sample_two fuel n g) as [[ij g1]| |] eqn:E; try done.
  by rewrite (sample_two_mono fuel fuel' n g _ Hle E).
Qed.

Lemma flip_two_then_progress (k : list Z -> outcome Solution) (n : nat)
    (sol : Solution) (g : Rng) :
  n <> O -> fair n g -> length (lst sol) = n ->
  (forall l2, flipped_twice (lst sol) l2 -> exists s', k l2 = Ret s') ->
  exists fuel s' g', flip_two_then k n fuel sol g = Ret (s', g').
Proof.
  intros Hn Hfair Hlen Hk.
  destruct (sample_two_progress n g Hn Hfair) as (fuel & i & j & g1 & Hs).
  pose proof (sample_two_inv _ _ _ _ _ _ Hs) as (Hne & Hi & Hj & _).
  destruct (flip_at_lt (lst sol) i ltac:(lia)) as (vi & Hvi & H1).
  destruct (flip_at_lt (<[i := flip01 vi]> (lst sol)) j) as (vj & Hvj & H2).
  { rewrite length_insert. lia. }
  destruct (Hk (<[j := flip01 vj]> (<[i := flip01 vi]> (lst sol)))) as [s' Hs'].
  { by eapply two_flips_flipped_twice. }
  exists fuel, s', g1. unfold flip_two_then, bind. rewrite Hs.
  unfold lift. rewrite H1. simpl. rewrite H2. simpl. by rewrite Hs'.
Qed.

(** What the perturbation needs of its input: well-formed problem data
    for the variants that re-evaluate, and for OneMax, which adjusts the
    fitness incrementally, an evaluated bitstring. *)
Inductive perturbable : ProblemInstance -> nat -> Solution -> Prop :=
| perturbable_Knapsack (n : nat) (c : Z) (items : list (list Z)) (sol : Solution) :
    KnapsackFacts.items_ok n items ->
    perturbable (Knapsack.instance n c items) n sol
| perturbable_NumberPartitioning (n : nat) (a : list Z) (sol : Solution) :
    NumberPartitioningFacts.a_ok n a ->
    perturbable (NumberPartitioning.instance n a) n sol
| perturbable_OneMax (m : bool) (n : nat) (sol : Solution) :
    is_bitstring (lst sol) ->
    fitness sol = total (lst sol) ->
    perturbable (OneMax.instance m n) n sol.

Lemma OneMax_two_rnd_flips_inv (n fuel : nat) (sol : Solution) (g : Rng)
    (s' : Solution) (g' : Rng) :
  OneMax.two_rnd_flips n fuel sol g = Ret (s', g') ->
  exists (i j : nat) (vi vj : Z),
    i <> j /\ lst sol !! i = Some vi /\ lst sol !! j = Some vj /\
    s' = mkSolution (<[j := flip01 vj]> (<[i := flip01 vi]> (lst sol)))
           (fitness sol + (flip_gain vi + flip_gain vj)) false (weight sol) /\
    draws g' = draws g.
Proof.
  unfold OneMax.two_rnd_flips.
  intros ([i j] & g1 & Hs & Hl)%bind_inv.
  apply lift_inv in Hl as [Hl ->].
  apply obind_inv in Hl as (vi & Hvi%getitem_Ret & Hl).
  apply obind_inv in Hl as (vj & Hvj%getitem_Ret & Hl).
  apply obind_inv in Hl as (l1 & H1 & Hl).
  apply obind_inv in Hl as (l2 & H2 & [= <-]).
  apply sample_two_inv in Hs as (Hne & _ & _ & Hd).
  apply flip_at_Ret in H1 as (vi' & Hvi' & ->).
  apply flip_at_Ret in H2 as (vj' & Hvj' & ->).
  rewrite list_lookup_insert_ne in Hvj' by done.
  assert (vi' = vi) as -> by congruence.
  assert (vj' = vj) as -> by congruence.
  exists i, j, vi, vj. done.
Qed.

Lemma OneMax_two_rnd_flips_progress (n : nat) (sol : Solution) (g : Rng) :
  n <> O -> fair n g -> length (lst sol) = n ->
  exists fuel s' g', OneMax.two_rnd_flips n fuel sol g = Ret (s', g').
Proof.
  intros Hn Hfair Hlen.
  destruct (sample_two_progress n g Hn Hfair) as (fuel & i & j & g1 & Hs).
  pose proof (sample_two_inv _ _ _ _ _ _ Hs) as (Hne & Hi & Hj & _).
  destruct (flip_at_lt (lst sol) i ltac:(lia)) as (vi & Hvi & H1).
  destruct (flip_at_lt (<[i := flip01 vi]> (lst sol)) j) as (vj & Hvj & H2).
  { rewrite length_insert. lia. }
  rewrite list_lookup_insert_ne in Hvj by done.
  eexists fuel, _, g1. unfold OneMax.two_rnd_flips, bind. rewrite Hs.
  unfold lift.
  rewrite (proj2 (getitem_Ret _ _ _) Hvi). simpl.
  rewrite (proj2 (getitem_Ret _ _ _) Hvj). simpl.
  rewrite H1. simpl. rewrite H2. simpl. reflexivity.
Qed.

Definition sol_stale : Solution := mkSolution [0; 0] 7 true None.

(** C9, as stated, fails for OneMax on a solution whose fitness is stale:
    the method adds the delta of the two flips to whatever fitness the
    solution carries and clears [invalid]. From [0, 0] with fitness 7 it
    returns [1, 1] with fitness 9 and [invalid = False], where a full
    evaluation gives 2. *)
Lemma OneMax_two_rnd_flips_keeps_stale_fitness :
  (2 <= length (lst sol_stale))%nat /\
  two_rnd_flips (OneMax.instance true 2) 1 sol_stale counting
    = Ret (mkSolution [1; 1] 9 false None, mkRng (draws counting) 2) /\
  full_eval (OneMax.instance true 2) (mkSolution [1; 1] 9 false None)
    = Ret (mkSolution [1; 1] 2 false None) /\
  ~ evaluated (OneMax.instance true 2) (mkSolution [1; 1] 9 false None).
Proof.
  split; [simpl; lia|]. split; [reflexivity|]. split; [reflexivity|].
  intros [_ (e & He & Hf)]. simpl in He. unfold OneMax.full_eval in He.
  injection He as <-. simpl in Hf. lia.
Qed.

(** C9, amended. For Knapsack and NumberPartitioning on any solution, and
    for OneMax on an evaluated bitstring, of length [n >= 2]: whenever
    [two_rnd_flips] returns, the values are those of the input with two
    different positions flipped, [invalid] is false and the fitness is the
    one a full evaluation of the new values gives; and it does return,
    with enough fuel, under every fair generator. *)
Theorem two_rnd_flips_flips_two_and_evaluates :
  forall (p : ProblemInstance) (n : nat) (sol : Solution),
    perturbable p n sol ->
    (2 <= n)%nat ->
    length (lst sol) = n ->
    (forall fuel g sol' g',
       two_rnd_flips p fuel sol g = Ret (sol', g') ->
       flipped_twice (lst sol) (lst sol') /\ evaluated p sol') /\
    (forall g, fair n g ->
       exists fuel sol' g', two_rnd_flips p fuel sol g = Ret (sol', g')).
Proof.
  intros p n sol Hp Hn Hlen.
  destruct Hp as [n c items sol Hok | n a sol Hok | m n sol Hbits Hfit].
  - split.
    + intros fuel g sol' g' H.
      change (flip_two_then
                (fun l2 => Knapsack.full_eval n c items
                   (mkSolution l2 (fitness sol) (invalid sol) (weight sol)))
                n fuel sol g = Ret (sol', g')) in H.
      apply flip_two_then_inv in H as (l2 & Hft & Hk & _).
      apply KnapsackFacts.knapsack_full_eval_inv in Hk as (_ & Hl & Hinv & Hre).
      simpl in Hl. rewrite Hl. split; [done|]. split; [done|].
      destruct (Hre sol' Hl) as (e2 & He2 & Hf2). simpl. eauto.
    + intros g Hfair.
      destruct (flip_two_then_progress
                  (fun l2 => Knapsack.full_eval n c items
                     (mkSolution l2 (fitness sol) (invalid sol) (weight sol)))
                  n sol g) as (fuel & s' & g' & H); [lia | done | done | |].
      * intros l2 Hft. eexists.
        apply KnapsackFacts.knapsack_full_eval_ok; [done|]. simpl.
        rewrite (flipped_twice_length _ _ Hft). done.
      * exists fuel, s', g'. exact H.
  - split.
    + intros fuel g sol' g' H.
      change (flip_two_then
                (fun l2 => NumberPartitioning.full_eval n a
                   (mkSolution l2 (fitness sol) (invalid sol) (weight sol)))
                n fuel sol g = Ret (sol', g')) in H.
      apply flip_two_then_inv in H as (l2 & Hft & Hk & _).
      apply NumberPartitioningFacts.partition_full_eval_inv in Hk as (_ & Hl & Hinv & Hre).
      simpl in Hl. rewrite Hl. split; [done|]. split; [done|].
      destruct (Hre sol' Hl) as (e2 & He2 & Hf2). simpl. eauto.
    + intros g Hfair.
      destruct (flip_two_then_progress
                  (fun l2 => NumberPartitioning.full_eval n a
                     (mkSolution l2 (fitness sol) (invalid sol) (weight sol)))
                  n sol g) as (fuel & s' & g' & H); [lia | done | done | |].
      * intros l2 Hft. eexists.
        apply NumberPartitioningFacts.partition_full_eval_ok; [done|]. simpl.
        rewrite (flipped_twice_length _ _ Hft). done.
      * exists fuel, s', g'. exact H.
  - split.
    + intros fuel g sol' g' H. simpl in H.
      apply OneMax_two_rnd_flips_inv in H
        as (i & j & vi & vj & Hne & Hvi & Hvj & -> & _).
      split; [by exists i, j, vi, vj|]. split; [done|].
      eexists. split; [reflexivity|]. simpl.
      fold (total (<[j := flip01 vj]> (<[i := flip01 vi]> (lst sol)))).
      rewrite (total_insert _ j vj)
        by (by rewrite list_lookup_insert_ne).
      rewrite (total_insert _ i vi) by done.
      rewrite Hfit.
      destruct (is_bitstring_lookup _ _ _ Hbits Hvi) as [-> | ->],
               (is_bitstring_lookup _ _ _ Hbits Hvj) as [-> | ->];
        unfold flip01, flip_gain; simpl; lia.
    + intros g Hfair. simpl.
      apply OneMax_two_rnd_flips_progress; [lia | done | done].
Qed.

Definition sol_0000 : Solution := mkSolution [0; 0; 0; 0] 19 false None.

Lemma two_rnd_flips_flips_two_and_evaluates_witness :
  (forall fuel g sol' g',
     two_rnd_flips (NumberPartitioning.instance 4 [5; 3; 7; 4]) fuel sol_0000 g
       = Ret (sol', g') ->
     flipped_twice (lst sol_0000) (lst sol') /\
     evaluated (NumberPartitioning.instance 4 [5; 3; 7; 4]) sol') /\
  (forall g, fair 4 g ->
     exists fuel sol' g',
       two_rnd_flips (NumberPartitioning.instance 4 [5; 3; 7; 4]) fuel sol_0000 g
         = Ret (sol', g')).
Proof.
  apply (two_rnd_flips_flips_two_and_evaluates
           (NumberPartitioning.instance 4 [5; 3; 7; 4]) 4 sol_0000).
  - apply perturbable_NumberPartitioning.
    unfold NumberPartitioningFacts.a_ok. simpl. lia.
  - lia.
  - reflexivity.
Defined.

(* ===================================================================== *)
(** ** The order of exploration *)
(* ===================================================================== *)

Lemma swap_Permutation {A : Type} (x : list A) (i j : nat) : swap x i j ≡ₚ x.
Proof.
  unfold swap. destruct (x !! i) as [a|] eqn:Hi; [|done].
  destruct (x !! j) as [b|] eqn:Hj; [|done].
  by apply Permutation_insert_swap.
Qed.

Lemma shuffle_from_Permutation {A : Type} (i : nat) :
  forall (x : list A) (g : Rng),
    exists x' g', shuffle_from i x g = Ret (x', g') /\
                  x' ≡ₚ x /\ draws g' = draws g.
Proof.
  induction i as [|i IH]; intros x g.
  - exists x, g. done.
  - cbn [shuffle_from]. unfold bind, randbelow.
    destruct (IH (swap x (S i) (draws g (pos g) mod S (S i))%nat) (advance g))
      as (x' & g' & H & Hp & Hd).
    exists x', g'. split; [exact H|]. split; [|done].
    by rewrite Hp, swap_Permutation.
Qed.

(** The two ways the explorer orders the positions. *)
Definition exploration_order (first_improvement : bool) (indices : list nat)
  : M (list nat) :=
  if first_improvement then shuffle indices else ret indices.

Lemma exploration_order_Permutation (fi : bool) (indices : list nat) (g : Rng) :
  exists idx g', exploration_order fi indices g = Ret (idx, g') /\
                 idx ≡ₚ indices /\ draws g' = draws g.
Proof.
  destruct fi; simpl.
  - apply shuffle_from_Permutation.
  - exists indices, g. done.
Qed.

(** The state in which the loop of the explorer starts. *)
Definition initial_state (sol : Solution) : explorer_state :=
  mkState false None 0 (deepcopy sol) 0.

(** What the explorer does after its loop. *)
Definition conclude (sol : Solution) (p : ProblemInstance) (st : explorer_state)
  : M (bool * Solution) :=
  if improved st then
    if has_flip_delta_eval p then
      d <- lift (match delta_fitness st with
                 | Some d => Ret d
                 | None => Raise UnboundLocalError
                 end) ;;
      new_sol <- lift (flip_with_delta p (deepcopy sol) (best_i st) d) ;;
      ret (improved st, new_sol)
    else ret (improved st, best_sol st)
  else ret (improved st, sol).

Lemma explorer_unfold (sol : Solution) (p : ProblemInstance) (fi : bool) (g : Rng) :
  lst sol <> [] ->
  flip_neighbour_explorer sol p fi g =
    (idx <- exploration_order fi (range (length (lst sol))) ;;
     st <- lift (explore_indices sol p fi idx (initial_state sol)) ;;
     conclude sol p st) g.
Proof.
  intros Hne. unfold flip_neighbour_explorer.
  destruct (lst sol) as [|v l] eqn:E; [done|]. reflexivity.
Qed.

Lemma explorer_nonempty (sol : Solution) (p : ProblemInstance) (fi : bool)
    (g : Rng) (r : bool * Solution * Rng) :
  flip_neighbour_explorer sol p fi g = Ret r -> lst sol <> [].
Proof.
  intros H E. unfold flip_neighbour_explorer in H. rewrite E in H. done.
Qed.

(** Every return of the explorer, taken apart. *)
Lemma explorer_inv (sol : Solution) (p : ProblemInstance) (fi : bool) (g : Rng)
    (b : bool) (s' : Solution) (g' : Rng) :
  flip_neighbour_explorer sol p fi g = Ret (b, s', g') ->
  exists idx st g1,
    idx ≡ₚ range (length (lst sol)) /\
    draws g1 = draws g /\
    explore_indices sol p fi idx (initial_state sol) = Ret st /\
    conclude sol p st g1 = Ret (b, s', g').
Proof.
  intros H. pose proof (explorer_nonempty _ _ _ _ _ H) as Hne.
  rewrite (explorer_unfold _ _ _ _ Hne) in H.
  apply bind_inv in H as (idx & g1 & Ho & H).
  apply bind_inv in H as (st & g2 & Hl & H).
  apply lift_inv in Hl as [Hl ->].
  destruct (exploration_order_Permutation fi (range (length (lst sol))) g)
    as (idx' & g1' & Ho' & Hp & Hd).
  rewrite Ho in Ho'. injection Ho' as <- <-.
  exists idx, st, g1. done.
Qed.

(** Every way the explorer can return, put together. *)
Lemma explorer_intro (sol : Solution) (p : ProblemInstance) (fi : bool) (g : Rng) :
  lst sol <> [] ->
  exists idx g1,
    idx ≡ₚ range (length (lst sol)) /\
    draws g1 = draws g /\
    forall st r,
      explore_indices sol p fi idx (initial_state sol) = Ret st ->
      conclude sol p st g1 = Ret r ->
      flip_neighbour_explorer sol p fi g = Ret r.
Proof.
  intros Hne.
  destruct (exploration_order_Permutation fi (range (length (lst sol))) g)
    as (idx & g1 & Ho & Hp & Hd).
  exists idx, g1. split; [done|]. split; [done|].
  intros st r Hst Hr. rewrite (explorer_unfold _ _ _ _ Hne).
  unfold bind. rewrite Ho. unfold lift. by rewrite Hst.
Qed.

Lemma conclude_draws (sol : Solution) (p : ProblemInstance) (st : explorer_state)
    (g : Rng) (r : bool * Solution) (g' : Rng) :
  conclude sol p st g = Ret (r, g') -> g' = g /\ r.1 = improved st.
Proof.
  unfold conclude.
  destruct (improved st) eqn:Ei; [|by intros [= <- <-]].
  destruct (has_flip_delta_eval p); [|by intros [= <- <-]].
  intros (d & g1 & [_ ->]%lift_inv & H)%bind_inv.
  apply bind_inv in H as (n & g2 & [_ ->]%lift_inv & H).
  unfold ret in H. by injection H as <- <-.
Qed.

(* ===================================================================== *)
(** ** The explorer on problems without delta evaluation *)
(* ===================================================================== *)

Section FullEvalExplorer.

Variable p : ProblemInstance.
Hypothesis no_delta : has_flip_delta_eval p = false.

(** The candidate the loop builds at position [i]: a copy with the
    position flipped, fully evaluated. *)
Definition neighbour (sol : Solution) (i : nat) : outcome Solution :=
  l' <~ flip_at (lst sol) i ;;
  full_eval p (mkSolution l' (fitness sol) (invalid sol) (weight sol)).

Definition improving (sol : Solution) (i : nat) (s' : Solution) : Prop :=
  neighbour sol i = Ret s' /\
  strictly_better p (fitness s') (fitness sol) = true.

Definition quiet (sol : Solution) (i : nat) : Prop :=
  exists e, neighbour sol i = Ret e /\
            strictly_better p (fitness e) (fitness sol) = false.

(** The loop invariant: either nothing improved yet and [best_sol] is the
    input, or [best_sol] is an improving neighbour. *)
Definition state_ok (sol : Solution) (st : explorer_state) : Prop :=
  if improved st then exists i, improving sol i (best_sol st)
  else best_sol st = sol.

Lemma explore_indices_full_cons (sol : Solution) (fi : bool) (i : nat)
    (rest : list nat) (st : explorer_state) :
  explore_indices sol p fi (i :: rest) st =
    (new_sol <~ neighbour sol i ;;
     if strictly_better p (fitness new_sol) (fitness sol) then
       let st2 :=
         if strictly_better p (fitness new_sol) (fitness (best_sol st))
         then mkState true (delta_fitness st) (best_delta_fitness st) new_sol i
         else mkState true (delta_fitness st) (best_delta_fitness st)
                (best_sol st) (best_i st) in
       if fi then Ret st2 else explore_indices sol p fi rest st2
     else explore_indices sol p fi rest st).
Proof.
  cbn [explore_indices]. rewrite no_delta. unfold neighbour, deepcopy.
  destruct (flip_at (lst sol) i); reflexivity.
Qed.

Lemma explore_full_ok (sol : Solution) (fi : bool) (idx : list nat) :
  forall st st',
    explore_indices sol p fi idx st = Ret st' ->
    state_ok sol st -> state_ok sol st'.
Proof.
  induction idx as [|i idx IH]; intros st st' H Hok.
  - simpl in H. by injection H as <-.
  - rewrite explore_indices_full_cons in H.
    apply obind_inv in H as (new_sol & Hn & H).
    destruct (strictly_better p (fitness new_sol) (fitness sol)) eqn:Eb;
      [|by eapply IH].
    assert (Hok2 : state_ok sol
              (if strictly_better p (fitness new_sol) (fitness (best_sol st))
               then mkState true (delta_fitness st) (best_delta_fitness st)
                      new_sol i
               else mkState true (delta_fitness st) (best_delta_fitness st)
                      (best_sol st) (best_i st))).
    { destruct (strictly_better p (fitness new_sol) (fitness (best_sol st)))
        eqn:Eb2; unfold state_ok; simpl.
      - exists i. by split.
      - unfold state_ok in Hok. destruct (improved st); [done|].
        rewrite Hok in Eb2. congruence. }
    simpl in H. destruct fi; [by injection H as <- | by eapply IH].
Qed.

Lemma explore_full_improved_mono (sol : Solution) (fi : bool) (idx : list nat) :
  forall st st',
    explore_indices sol p fi idx st = Ret st' ->
    improved st = true -> improved st' = true.
Proof.
  induction idx as [|i idx IH]; intros st st' H Hi.
  - simpl in H. by injection H as <-.
  - rewrite explore_indices_full_cons in H.
    apply obind_inv in H as (new_sol & Hn & H).
    destruct (strictly_better p (fitness new_sol) (fitness sol));
      [|by eapply IH].
    simpl in H.
    destruct fi; [injection H as <- | eapply IH; [exact H|]];
      by destruct (strictly_better p (fitness new_sol) (fitness (best_sol st))).
Qed.

(** A run that ends without improvement met no improving position and
    left the state as it was. *)
Lemma explore_full_quiet (sol : Solution) (fi : bool) (idx : list nat) :
  forall st st',
    explore_indices sol p fi idx st = Ret st' ->
    improved st' = false ->
    st' = st /\ forall i, i ∈ idx -> quiet sol i.
Proof.
  induction idx as [|i idx IH]; intros st st' H Hi.
  - simpl in H. injection H as <-. split; [done|]. intros i Hin. inversion Hin.
  - rewrite explore_indices_full_cons in H.
    apply obind_inv in H as (new_sol & Hn & H).
    destruct (strictly_better p (fitness new_sol) (fitness sol)) eqn:Eb.
    + exfalso. simpl in H.
      assert (Ht : improved st' = true); [|congruence].
      destruct fi; [injection H as <- | eapply explore_full_improved_mono;
                                           [exact H|]];
        by destruct (strictly_better p (fitness new_sol) (fitness (best_sol st))).
    + destruct (IH _ _ H Hi) as [-> Hq]. split; [done|].
      intros k [-> | Hk]%elem_of_cons; [by exists new_sol | by apply Hq].
Qed.

Lemma explore_full_all_quiet (sol : Solution) (fi : bool) (idx : list nat)
    (st : explorer_state) :
  (forall i, i ∈ idx -> quiet sol i) ->
  explore_indices sol p fi idx st = Ret st.
Proof.
  induction idx as [|i idx IH]; intros Hq; [done|].
  rewrite explore_indices_full_cons.
  destruct (Hq i) as (e & He & Hb); [by left|].
  rewrite He. simpl. rewrite Hb. apply IH. intros k Hk. apply Hq. by right.
Qed.

Lemma explore_full_total (sol : Solution) (fi : bool) (idx : list nat) :
  (forall i, i ∈ idx -> exists e, neighbour sol i = Ret e) ->
  forall st, exists st', explore_indices sol p fi idx st = Ret st'.
Proof.
  induction idx as [|i idx IH]; intros Hn st; [by exists st|].
  rewrite explore_indices_full_cons.
  destruct (Hn i) as (e & He); [by left|].
  rewrite He. simpl.
  assert (IH' : forall st, exists st', explore_indices sol p fi idx st = Ret st')
    by (apply IH; intros k Hk; apply Hn; by right).
  destruct (strictly_better p (fitness e) (fitness sol)); [|apply IH'].
  destruct fi; [eauto | apply IH'].
Qed.

Lemma conclude_full (sol : Solution) (st : explorer_state) (g : Rng) :
  conclude sol p st g
    = Ret (improved st, if improved st then best_sol st else sol, g).
Proof.
  unfold conclude. rewrite no_delta. by destruct (improved st).
Qed.

(** What a return of the explorer means on such a problem. *)
Lemma explorer_full_inv (sol : Solution) (fi : bool) (g : Rng)
    (b : bool) (s' : Solution) (g' : Rng) :
  flip_neighbour_explorer sol p fi g = Ret (b, s', g') ->
  draws g' = draws g /\
  (if b then exists i, improving sol i s'
   else s' = sol /\ forall i, (i < length (lst sol))%nat -> quiet sol i).
Proof.
  intros (idx & st & g1 & Hp & Hd & Hst & Hc)%explorer_inv.
  rewrite conclude_full in Hc. injection Hc as <- <- <-.
  split; [done|].
  pose proof (explore_full_ok _ _ _ _ _ Hst) as Hok.
  unfold state_ok at 2 in Hok.
  destruct (improved st) eqn:Ei.
  - apply Hok. by unfold state_ok.
  - split; [done|]. intros i Hi.
    destruct (explore_full_quiet _ _ _ _ _ Hst Ei) as [_ Hq].
    apply Hq. rewrite Hp. by apply elem_of_range.
Qed.

(** A solution with no improving neighbour is reported as such, in both
    modes and whatever the generator draws. *)
Lemma explorer_full_quiet (sol : Solution) (fi : bool) (g : Rng) :
  lst sol <> [] ->
  (forall i, (i < length (lst sol))%nat -> quiet sol i) ->
  exists g', flip_neighbour_explorer sol p fi g = Ret (false, sol, g').
Proof.
  intros Hne Hq.
  destruct (explorer_intro sol p fi g Hne) as (idx & g1 & Hp & Hd & Hr).
  exists g1. apply (Hr (initial_state sol)).
  - apply explore_full_all_quiet. intros i Hi. apply Hq.
    apply elem_of_range. by rewrite <- Hp.
  - by rewrite conclude_full.
Qed.

(** The explorer returns whenever every neighbour can be evaluated. *)
Lemma explorer_full_total (sol : Solution) (fi : bool) (g : Rng) :
  lst sol <> [] ->
  (forall i, (i < length (lst sol))%nat -> exists e, neighbour sol i = Ret e) ->
  exists b s' g', flip_neighbour_explorer sol p fi g = Ret (b, s', g').
Proof.
  intros Hne Hn.
  destruct (explorer_intro sol p fi g Hne) as (idx & g1 & Hp & Hd & Hr).
  destruct (explore_full_total sol fi idx) with (st := initial_state sol)
    as [st Hst].
  { intros i Hi. apply Hn. apply elem_of_range. by rewrite <- Hp. }
  eexists _, _, g1. apply (Hr st); [done|]. apply conclude_full.
Qed.

(** The hill climber returns a solution on which its last call of the
    explorer found nothing. *)
Lemma hc_while_last_call (fuel : nat) (fi : bool) :
  forall (b : bool) (sol : Solution) (g : Rng) (s : Solution) (g' : Rng),
    hc_while fuel p flip_neighbour_explorer fi b sol g = Ret (s, g') ->
    (b = false /\ s = sol) \/
    exists g1 g2, flip_neighbour_explorer s p fi g1 = Ret (false, s, g2).
Proof.
  induction fuel as [|fuel IH]; intros b sol g s g' H; simpl in H.
  - destruct b; [done|]. injection H as <- <-. by left.
  - destruct b; [|injection H as <- <-; by left].
    apply bind_inv in H as ([b1 s1] & g1 & He & H). simpl in H.
    destruct (IH _ _ _ _ _ H) as [[-> ->] | Hl]; [|by right].
    right. exists g, g1.
    pose proof (explorer_full_inv _ _ _ _ _ _ He) as [_ [-> _]]. exact He.
Qed.

End FullEvalExplorer.

(** On a problem without delta evaluation, what the hill climber returns
    is a local optimum for the explorer: run again on it, in either mode
    and whatever the generator draws, the explorer reports no improvement
    and hands the solution back. *)
Lemma hc_full_eval_result_is_local_optimum (p : ProblemInstance) (fuel : nat)
    (init_sol : Solution) (fi : bool) (g : Rng) (s : Solution) (g' : Rng) :
  has_flip_delta_eval p = false ->
  hc fuel init_sol p flip_neighbour_explorer fi g = Ret (s, g') ->
  forall (fi2 : bool) (g2 : Rng),
    exists g3, flip_neighbour_explorer s p fi2 g2 = Ret (false, s, g3).
Proof.
  intros Hnd H fi2 g2. unfold hc in H.
  apply bind_inv in H as ([b1 s1] & g1 & He & H). simpl in H.
  assert (Hlast : exists ga gb,
             flip_neighbour_explorer s p fi ga = Ret (false, s, gb)).
  { destruct (hc_while_last_call p Hnd _ _ _ _ _ _ _ H) as [[-> ->] | Hl];
      [|done].
    exists g, g1.
    pose proof (explorer_full_inv p Hnd _ _ _ _ _ _ He) as [_ [-> _]].
    exact He. }
  destruct Hlast as (ga & gb & Hlast).
  pose proof (explorer_nonempty _ _ _ _ _ Hlast) as Hne.
  pose proof (explorer_full_inv p Hnd _ _ _ _ _ _ Hlast) as [_ [_ Hq]].
  by apply explorer_full_quiet.
Qed.

(* ===================================================================== *)
(** ** The explorer on OneMax *)
(* ===================================================================== *)

Section OneMaxExplorer.

Variables (m : bool) (n : nat).

Lemma explore_indices_OneMax_cons (sol : Solution) (fi : bool) (i : nat)
    (rest : list nat) (st : explorer_state) :
  explore_indices sol (OneMax.instance m n) fi (i :: rest) st =
    (v <~ getitem (lst sol) i ;;
     let st1 := mkState (flip_gain v >? 0) (Some (flip_gain v))
                  (best_delta_fitness st) (best_sol st) (best_i st) in
     if flip_gain v >? 0 then
       let st2 :=
         if strictly_better (OneMax.instance m n) (flip_gain v)
              (best_delta_fitness st)
         then mkState (flip_gain v >? 0) (Some (flip_gain v)) (flip_gain v)
                (best_sol st) i
         else st1 in
       if fi then Ret st2 else explore_indices sol (OneMax.instance m n) fi rest st2
     else explore_indices sol (OneMax.instance m n) fi rest st1).
Proof.
  cbn [explore_indices has_flip_delta_eval OneMax.instance flip_delta_eval].
  unfold OneMax.has_flip_delta_eval, OneMax.flip_delta_eval.
  destruct (getitem (lst sol) i); reflexivity.
Qed.

(** What the loop keeps in both modes: [best_i] is a position of the
    solution, and [delta_fitness] is bound once [improved] is true. *)
Definition delta_bound (sol : Solution) (st : explorer_state) : Prop :=
  (best_i st < length (lst sol))%nat /\
  (improved st = true -> is_Some (delta_fitness st)).

Lemma explore_OneMax_bound (sol : Solution) (fi : bool) (idx : list nat) :
  forall st st',
    explore_indices sol (OneMax.instance m n) fi idx st = Ret st' ->
    delta_bound sol st -> delta_bound sol st'.
Proof.
  induction idx as [|i idx IH]; intros st st' H Hok.
  - simpl in H. by injection H as <-.
  - rewrite explore_indices_OneMax_cons in H.
    apply obind_inv in H as (v & Hv%getitem_Ret & H). simpl in H.
    pose proof (lookup_lt_Some _ _ _ Hv) as Hi.
    destruct Hok as [Hb Hd].
    destruct (flip_gain v >? 0) eqn:Eg.
    + destruct (strictly_better (OneMax.instance m n) (flip_gain v)
                  (best_delta_fitness st));
        (destruct fi;
         [injection H as <- | eapply IH; [exact H|]]); split; simpl; eauto.
    + eapply IH; [exact H|]. split; simpl; eauto.
Qed.

(** In first-improvement mode an improvement that was found has delta 1. *)
Definition delta_ok (st : explorer_state) : Prop :=
  improved st = true -> delta_fitness st = Some 1.


Lemma explore_OneMax_total (sol : Solution) (fi : bool) (idx : list nat) :
  (forall i, i ∈ idx -> (i < length (lst sol))%nat) ->
  forall st, exists st',
    explore_indices sol (OneMax.instance m n) fi idx st = Ret st'.
Proof.
  induction idx as [|i idx IH]; intros Hin st; [by exists st|].
  rewrite explore_indices_OneMax_cons.
  destruct (getitem_lt (lst sol) i) as (v & Hv & _); [apply Hin; by left|].
  rewrite Hv. simpl.
  assert (IH' : forall st, exists st',
             explore_indices sol (OneMax.instance m n) fi idx st = Ret st')
    by (apply IH; intros k Hk; apply Hin; by right).
  destruct (flip_gain v >? 0); [|apply IH'].
  destruct fi; [eauto | apply IH'].
Qed.

Lemma explorer_OneMax_total (sol : Solution) (fi : bool) (g : Rng) :
  lst sol <> [] ->
  exists b s' g',
    flip_neighbour_explorer sol (OneMax.instance m n) fi g = Ret (b, s', g').
Proof.
  intros Hne.
  destruct (explorer_intro sol (OneMax.instance m n) fi g Hne)
    as (idx & g1 & Hp & Hd & Hr).
  destruct (explore_OneMax_total sol fi idx) with (st := initial_state sol)
    as [st Hst].
  { intros i Hi. apply elem_of_range. by rewrite <- Hp. }
  assert (Hlen : (0 < length (lst sol))%nat)
    by (destruct (lst sol); [done | simpl; lia]).
  destruct (explore_OneMax_bound _ _ _ _ _ Hst) as [Hb Hs];
    [by split|].
  destruct (getitem_lt (lst sol) (best_i st) Hb) as (v & Hv & _).
  destruct (improved st) eqn:Ei.
  - destruct (Hs eq_refl) as [d Hdf].
    eexists _, _, g1. apply (Hr st _ Hst).
    unfold conclude. rewrite Ei. simpl. unfold bind, lift.
    rewrite Hdf. unfold OneMax.flip_with_delta, deepcopy. rewrite Hv.
    reflexivity.
  - eexists _, _, g1. apply (Hr st _ Hst).
    unfold conclude. rewrite Ei. reflexivity.
Qed.


End OneMaxExplorer.

(** A scan in first-improvement mode that ends without improvement met
    no position that holds 0. *)
Lemma explore_OneMax_first_none (m : bool) (n : nat) (sol : Solution)
    (idx : list nat) :
  forall st st',
    explore_indices sol (OneMax.instance m n) true idx st = Ret st' ->
    improved st' = false ->
    forall i, i ∈ idx -> lst sol !! i <> Some 0.
Proof.
  induction idx as [|i idx IH]; intros st st' H Hi k Hk; [inversion Hk|].
  rewrite explore_indices_OneMax_cons in H.
  apply obind_inv in H as (v & Hv%getitem_Ret & H). simpl in H.
  unfold flip_gain in H. destruct (v =? 0) eqn:Ev; simpl in H.
  - exfalso.
    destruct (strictly_better (OneMax.instance m n) 1 (best_delta_fitness st));
      injection H as <-; discriminate.
  - apply elem_of_cons in Hk as [-> | Hk]; [|by eapply IH].
    rewrite Hv. intros [= ->]. done.
Qed.

(* ===================================================================== *)
(** ** C10: first improvement never returns a worse solution *)
(* ===================================================================== *)




(** The problems the statement covers: every problem without delta
    evaluation, and OneMax completed with a [maximize] that returns
    [True]. *)
Inductive covered : ProblemInstance -> Prop :=
| covered_full_eval (p : ProblemInstance) :
    has_flip_delta_eval p = false -> covered p
| covered_OneMax (n : nat) : covered (OneMax.instance true n).







(* ===================================================================== *)
(** ** Fuel: a loop that returned keeps its result with more fuel *)
(* ===================================================================== *)

Lemma hc_while_mono (p : ProblemInstance) (ne : explorer) (fi : bool)
    (fuel fuel' : nat) :
  (fuel <= fuel')%nat ->
  forall (b : bool) (sol : Solution) (g : Rng) (r : Solution * Rng),
    hc_while fuel p ne fi b sol g = Ret r ->
    hc_while fuel' p ne fi b sol g = Ret r.
Proof.
  revert fuel'. induction fuel as [|fuel IH]; intros fuel' Hle b sol g r H.
  - simpl in H. destruct b; [done|]. by destruct fuel'.
  - destruct fuel' as [|fuel']; [lia|]. simpl in *.
    destruct b; [|done]. unfold bind in *.
    destruct (ne sol p fi g) as [[r1 g1]| |]; try done.
    apply (IH fuel'); [lia | done].
Qed.

Lemma hc_mono (p : ProblemInstance) (ne : explorer) (fi : bool)
    (fuel fuel' : nat) (sol : Solution) (g : Rng) (r : Solution * Rng) :
  (fuel <= fuel')%nat ->
  hc fuel sol p ne fi g = Ret r -> hc fuel' sol p ne fi g = Ret r.
Proof.
  intros Hle. unfold hc, bind.
  destruct (ne sol p fi g) as [[r1 g1]| |]; try done.
  by apply hc_while_mono.
Qed.

(* ===================================================================== *)
(** ** Termination of the driver, from that of its parts *)
(* ===================================================================== *)

Section DriverTermination.

Variable p : ProblemInstance.
Variable n : nat.

(** [inv] is an invariant of the solutions the driver handles. *)
Variable inv : Solution -> Prop.

Hypothesis climb_returns :
  forall s fi g, inv s ->
    exists fuel s' g',
      hc fuel s p flip_neighbour_explorer fi g = Ret (s', g') /\
      draws g' = draws g /\ inv s'.
Hypothesis perturb_returns :
  forall s g, inv s -> fair n g ->
    exists fuel s' g',
      two_rnd_flips p fuel s g = Ret (s', g') /\
      draws g' = draws g /\ inv s'.
Hypothesis perturb_mono :
  forall fuel fuel' s g r, (fuel <= fuel')%nat ->
    two_rnd_flips p fuel s g = Ret r -> two_rnd_flips p fuel' s g = Ret r.

(** One iteration of the driver: with enough fuel it returns, the
    counter is one higher, the log one line longer. *)
Lemma ils_body_terminates (fi : bool) (best : Solution) (cnt : Z)
    (log : trajectory) (g : Rng) :
  inv best -> fair n g ->
  exists F best' log' g',
    (forall fuel, (F <= fuel)%nat ->
       ils_body fuel p hc flip_neighbour_explorer fi best cnt log g
         = Ret (best', cnt + 1, log', g')) /\
    draws g' = draws g /\ inv best' /\
    length log' = S (length log).
Proof.
  intros Hg Hfair.
  destruct (perturb_returns best g Hg Hfair)
    as (F1 & s & g1 & H1 & Hd1 & Hgs).
  destruct (climb_returns s fi g1 Hgs) as (F2 & lo & g2 & H2 & Hd2 & Hglo).
  exists (Nat.max F1 F2),
         (if better_or_equal p (fitness lo) (fitness best) then lo else best),
         (log ++ [(best, lo)]), g2.
  split; [|split; [congruence|split]].
  - intros fuel Hfuel. unfold ils_body, bind, deepcopy.
    rewrite (perturb_mono F1 fuel best g _ ltac:(lia) H1).
    rewrite (hc_mono p flip_neighbour_explorer fi F2 fuel s g1 _ ltac:(lia) H2).
    rewrite acceptance_unfold. reflexivity.
  - by destruct (better_or_equal p (fitness lo) (fitness best)).
  - rewrite length_app. simpl. lia.
Qed.

Lemma ils_while_terminates (budget : Z) (fi : bool) (k : nat) :
  forall (best : Solution) (cnt : Z) (log : trajectory) (g : Rng),
    inv best -> fair n g -> Z.to_nat (budget - cnt) = k ->
    exists F best' log' g',
      (forall fuel inner, (F <= fuel)%nat -> (F <= inner)%nat ->
         ils_while fuel inner p hc flip_neighbour_explorer budget fi
           best cnt log g = Ret (best', log', g')) /\
      length log' = (length log + k)%nat.
Proof.
  induction k as [|k IH]; intros best cnt log g Hg Hfair Hk.
  - exists O, best, log, g. split; [|lia].
    intros fuel inner _ _.
    assert (E : (cnt <? budget) = false) by lia.
    destruct fuel; simpl; by rewrite E.
  - assert (E : (cnt <? budget) = true) by lia.
    destruct (ils_body_terminates fi best cnt log g Hg Hfair)
      as (F1 & best1 & log1 & g1 & H1 & Hd1 & Hg1 & Hl1).
    destruct (IH best1 (cnt + 1) log1 g1 Hg1) as (F2 & best' & log' & g' & H2 & Hl2).
    { by eapply fair_draws. }
    { lia. }
    exists (S (Nat.max F1 F2)), best', log', g'. split; [|lia].
    intros fuel inner Hfuel Hinner.
    destruct fuel as [|fuel]; [lia|].
    cbn [ils_while]. rewrite E. unfold bind.
    rewrite (H1 inner) by lia.
    apply H2; lia.
Qed.

(** The driver returns, after exactly [max(budget, 0)] iterations. *)
Lemma ils_terminates_from_parts (sol : Solution) (budget : Z) (fi : bool)
    (g : Rng) :
  inv sol -> fair n g ->
  exists fuel best log g',
    ils fuel sol p hc flip_neighbour_explorer budget fi g
      = Ret (best, log, g') /\
    length log = Z.to_nat budget.
Proof.
  intros Hg Hfair.
  destruct (climb_returns sol fi g Hg) as (F0 & lo & g0 & H0 & Hd0 & Hglo).
  destruct (ils_while_terminates budget fi (Z.to_nat (budget - 0))
              lo 0 [] g0 Hglo) as (F1 & best & log & g' & H1 & Hl).
  { by eapply fair_draws. }
  { done. }
  exists (Nat.max F0 F1), best, log, g'. split.
  - unfold ils, bind, deepcopy.
    rewrite (hc_mono p flip_neighbour_explorer fi F0 (Nat.max F0 F1) sol g _
               ltac:(lia) H0).
    apply H1; lia.
  - rewrite Hl. simpl. f_equal. lia.
Qed.

End DriverTermination.

(* ===================================================================== *)
(** ** Termination of the driver on problems that re-evaluate *)
(* ===================================================================== *)

Section FullEvalTermination.

Variable p : ProblemInstance.
Variable n : nat.

(** [good] is an invariant of the value lists the search visits, [obj]
    the fitness of a value list, [mu] a measure that every strict
    improvement lowers. *)
Variable good : list Z -> Prop.
Variable obj : list Z -> Z.
Variable mu : Z -> nat.

Hypothesis no_delta : has_flip_delta_eval p = false.
Hypothesis n_pos : (1 <= n)%nat.
Hypothesis good_length : forall l, good l -> length l = n.
Hypothesis good_flip :
  forall l i v, good l -> l !! i = Some v -> good (<[i := flip01 v]> l).
Hypothesis eval_good :
  forall s, good (lst s) ->
    exists w, full_eval p s = Ret (mkSolution (lst s) (obj (lst s)) false w).
Hypothesis mu_decreases :
  forall l l', good l -> good l' ->
    strictly_better p (obj l') (obj l) = true ->
    (mu (obj l') < mu (obj l))%nat.
Hypothesis perturb :
  forall fuel sol,
    two_rnd_flips p fuel sol =
    flip_two_then
      (fun l2 => full_eval p (mkSolution l2 (fitness sol) (invalid sol)
                                (weight sol)))
      n fuel sol.

Definition scored (s : Solution) : Prop :=
  good (lst s) /\ fitness s = obj (lst s).

Lemma good_nonempty (l : list Z) : good l -> l <> [].
Proof.
  intros Hg E. apply good_length in Hg. rewrite E in Hg. simpl in Hg. lia.
Qed.

Lemma neighbour_scored (s : Solution) (i : nat) (s' : Solution) :
  good (lst s) -> neighbour p s i = Ret s' -> scored s'.
Proof.
  intros Hg (l' & (v & Hv & ->)%flip_at_Ret & He)%obind_inv.
  pose proof (good_flip _ _ _ Hg Hv) as Hg'.
  destruct (eval_good (mkSolution (<[i := flip01 v]> (lst s)) (fitness s)
                         (invalid s) (weight s)) Hg') as [w Hw].
  rewrite Hw in He. injection He as <-. by split.
Qed.

Lemma neighbour_total (s : Solution) (i : nat) :
  good (lst s) -> (i < length (lst s))%nat ->
  exists e, neighbour p s i = Ret e.
Proof.
  intros Hg Hi. unfold neighbour.
  destruct (flip_at_lt (lst s) i Hi) as (v & Hv & ->). simpl.
  pose proof (good_flip _ _ _ Hg Hv) as Hg'.
  destruct (eval_good (mkSolution (<[i := flip01 v]> (lst s)) (fitness s)
                         (invalid s) (weight s)) Hg') as [w Hw].
  eauto.
Qed.

(** One call of the explorer: it returns, and an improvement is a scored
    solution that is strictly better. *)
Lemma explorer_step (s : Solution) (fi : bool) (g : Rng) :
  good (lst s) ->
  exists b s' g',
    flip_neighbour_explorer s p fi g = Ret (b, s', g') /\
    draws g' = draws g /\
    (if b then scored s' /\
               strictly_better p (fitness s') (fitness s) = true
     else s' = s).
Proof.
  intros Hg.
  destruct (explorer_full_total p no_delta s fi g) as (b & s' & g' & H).
  { by apply good_nonempty. }
  { intros i Hi. by apply neighbour_total. }
  exists b, s', g'. split; [done|].
  destruct (explorer_full_inv p no_delta _ _ _ _ _ _ H) as [Hd Hb].
  split; [done|]. destruct b.
  - destruct Hb as (i & Hn & Hsb). split; [|done].
    by eapply neighbour_scored.
  - by destruct Hb.
Qed.

Lemma hc_while_terminates (fi : bool) (k : nat) :
  forall (s : Solution) (b : bool) (g : Rng),
    scored s -> (mu (fitness s) <= k)%nat ->
    exists s' g',
      hc_while (S k) p flip_neighbour_explorer fi b s g = Ret (s', g') /\
      draws g' = draws g /\ scored s'.
Proof.
  induction k as [|k IH]; intros s b g Hs Hmu.
  - destruct b; [|by exists s, g].
    destruct (explorer_step s fi g (proj1 Hs)) as (b1 & s1 & g1 & He & Hd & Hb).
    destruct b1.
    + exfalso. destruct Hb as [[Hg1 Hf1] Hsb]. destruct Hs as [Hg Hf].
      rewrite Hf1, Hf in Hsb.
      pose proof (mu_decreases _ _ Hg Hg1 Hsb). rewrite Hf in Hmu. lia.
    + subst s1. exists s, g1. simpl. unfold bind. rewrite He. done.
  - destruct b; [|by exists s, g].
    destruct (explorer_step s fi g (proj1 Hs)) as (b1 & s1 & g1 & He & Hd & Hb).
    cbn [hc_while]. unfold bind. rewrite He. cbn [fst snd].
    destruct b1.
    + destruct Hb as [Hs1 Hsb].
      assert (Hmu1 : (mu (fitness s1) <= k)%nat).
      { destruct Hs1 as [Hg1 Hf1]. destruct Hs as [Hg Hf].
        pose proof Hsb as Hsb'. rewrite Hf1, Hf in Hsb'.
        pose proof (mu_decreases _ _ Hg Hg1 Hsb').
        rewrite Hf1. rewrite Hf in Hmu. lia. }
      destruct (IH s1 true g1 Hs1 Hmu1) as (s' & g' & H & Hd' & Hs').
      exists s', g'. split; [done|]. split; [congruence | done].
    + subst s1. exists s, g1. done.
Qed.

(** The hill climber returns from every good solution, and what it
    returns is good. *)
Lemma hc_terminates (s : Solution) (fi : bool) (g : Rng) :
  good (lst s) ->
  exists fuel s' g',
    hc fuel s p flip_neighbour_explorer fi g = Ret (s', g') /\
    draws g' = draws g /\ good (lst s').
Proof.
  intros Hg.
  destruct (explorer_step s fi g Hg) as (b1 & s1 & g1 & He & Hd & Hb).
  destruct b1.
  - destruct Hb as [Hs1 _].
    destruct (hc_while_terminates fi (mu (fitness s1)) s1 true g1 Hs1)
      as (s' & g' & H & Hd' & Hs'); [lia|].
    exists (S (mu (fitness s1))), s', g'. unfold hc, bind. rewrite He.
    split; [done|]. split; [congruence | apply Hs'].
  - subst s1. exists O, s, g1. unfold hc, bind. rewrite He. done.
Qed.

Lemma flipped_twice_good (l l' : list Z) :
  good l -> flipped_twice l l' -> good l'.
Proof.
  intros Hg (i & j & vi & vj & Hne & Hi & Hj & ->).
  apply good_flip; [by apply good_flip|].
  by rewrite list_lookup_insert_ne.
Qed.

Lemma two_rnd_flips_terminates (s : Solution) (g : Rng) :
  good (lst s) -> fair n g ->
  exists fuel s' g',
    two_rnd_flips p fuel s g = Ret (s', g') /\
    draws g' = draws g /\ good (lst s').
Proof.
  intros Hg Hfair.
  destruct (flip_two_then_progress
              (fun l2 => full_eval p (mkSolution l2 (fitness s) (invalid s)
                                        (weight s)))
              n s g) as (fuel & s' & g' & H).
  { lia. }
  { done. }
  { by apply good_length. }
  { intros l2 Hft.
    destruct (eval_good (mkSolution l2 (fitness s) (invalid s) (weight s)))
      as [w Hw]; [by eapply flipped_twice_good | eauto]. }
  exists fuel, s', g'. rewrite perturb. split; [done|].
  apply flip_two_then_inv in H as (l2 & Hft & Hk & Hd).
  split; [done|].
  destruct (eval_good (mkSolution l2 (fitness s) (invalid s) (weight s)))
    as [w Hw]; [by eapply flipped_twice_good|].
  rewrite Hw in Hk. injection Hk as <-. simpl.
  by eapply flipped_twice_good.
Qed.

Lemma two_rnd_flips_mono (fuel fuel' : nat) (s : Solution) (g : Rng)
    (r : Solution * Rng) :
  (fuel <= fuel')%nat ->
  two_rnd_flips p fuel s g = Ret r -> two_rnd_flips p fuel' s g = Ret r.
Proof.
  intros Hle. rewrite !perturb. by apply flip_two_then_mono.
Qed.

(** The driver returns, after exactly [max(budget, 0)] iterations. *)
Lemma ils_terminates_full_eval (sol : Solution) (budget : Z) (fi : bool) (g : Rng) :
  good (lst sol) -> fair n g ->
  exists fuel best log g',
    ils fuel sol p hc flip_neighbour_explorer budget fi g
      = Ret (best, log, g') /\
    length log = Z.to_nat budget.
Proof.
  apply (ils_terminates_from_parts p n (fun s => good (lst s))).
  - intros s fi' g'. apply hc_terminates.
  - apply two_rnd_flips_terminates.
  - intros fuel fuel' s g' r. apply two_rnd_flips_mono.
Qed.

End FullEvalTermination.

(* ===================================================================== *)
(** ** C7: termination of the driver *)
(* ===================================================================== *)

Lemma NumberPartitioning_ils_terminates (n : nat) (a : list Z) (sol : Solution)
    (budget : Z) (fi : bool) (g : Rng) :
  NumberPartitioningFacts.a_ok n a -> length (lst sol) = n ->
  (2 <= n)%nat -> fair n g ->
  exists fuel best log g',
    ils fuel sol (NumberPartitioning.instance n a) hc flip_neighbour_explorer
      budget fi g = Ret (best, log, g') /\
    length log = Z.to_nat budget.
Proof.
  intros Hok Hlen Hn Hfair.
  apply (ils_terminates_full_eval (NumberPartitioning.instance n a) n
           (fun l => length l = n) (NumberPartitioningFacts.objective a)
           Z.to_nat); try done.
  - lia.
  - intros l i v Hl _. by rewrite length_insert.
  - intros s Hs. exists (weight s).
    by apply NumberPartitioningFacts.partition_full_eval_ok.
  - intros l l' _ _. unfold strictly_better. simpl. intros Hlt.
    pose proof (NumberPartitioningFacts.objective_nonneg a l').
    lia.
Qed.

Section KnapsackTermination.

Variables (n : nat) (c : Z) (items : list (list Z)).

(** [cap i] bounds the absolute value at position [i]; a flip writes 0
    or 1, so a bound of at least 1 survives it. *)
Variable cap : nat -> Z.
Hypothesis cap_pos : forall i, 1 <= cap i.

Definition capped (l : list Z) : Prop :=
  length l = n /\ forall i x, l !! i = Some x -> Z.abs x <= cap i.

Definition value_bound : Z :=
  pure_sum (fun i => cap i * Z.abs (KnapsackFacts.column items 1 i)) (range n).

Lemma capped_flip (l : list Z) (i : nat) (v : Z) :
  capped l -> l !! i = Some v -> capped (<[i := flip01 v]> l).
Proof.
  intros [Hlen Hcap] Hv. split; [by rewrite length_insert|].
  intros k x Hk. destruct (decide (k = i)) as [-> | Hne].
  - rewrite list_lookup_insert_eq in Hk by (by eapply lookup_lt_Some).
    injection Hk as <-. pose proof (cap_pos i).
    destruct (flip01_bit v) as [-> | ->]; lia.
  - rewrite list_lookup_insert_ne in Hk by done. by apply Hcap.
Qed.

Lemma objective_bounded (l : list Z) :
  capped l -> Z.abs (KnapsackFacts.objective c items l) <= value_bound.
Proof.
  intros [Hlen Hcap].
  assert (Hdot : Z.abs (KnapsackFacts.dot items 1 l) <= value_bound).
  { unfold KnapsackFacts.dot, value_bound. rewrite Hlen.
    apply pure_sum_abs_le. intros i Hi%elem_of_range.
    destruct (lookup_lt_is_Some_2 l i ltac:(lia)) as [x Hx].
    rewrite (nth_lookup_Some _ _ 0 _ Hx). rewrite Z.abs_mul.
    pose proof (Hcap i x Hx).
    pose proof (Z.abs_nonneg (KnapsackFacts.column items 1 i)). nia. }
  unfold KnapsackFacts.objective.
  destruct (KnapsackFacts.dot items 2 l >? c); [|done]. simpl. lia.
Qed.

Lemma Knapsack_ils_terminates_capped (sol : Solution) (budget : Z) (fi : bool)
    (g : Rng) :
  KnapsackFacts.items_ok n items -> capped (lst sol) ->
  (2 <= n)%nat -> fair n g ->
  exists fuel best log g',
    ils fuel sol (Knapsack.instance n c items) hc flip_neighbour_explorer
      budget fi g = Ret (best, log, g') /\
    length log = Z.to_nat budget.
Proof.
  intros Hok Hcap Hn Hfair.
  apply (ils_terminates_full_eval (Knapsack.instance n c items) n
           capped (KnapsackFacts.objective c items)
           (fun f => Z.to_nat (value_bound - f))); try done.
  - lia.
  - by intros l [Hl _].
  - apply capped_flip.
  - intros s [Hl _]. eexists.
    by apply KnapsackFacts.knapsack_full_eval_ok.
  - intros l l' Hl Hl'. unfold strictly_better. simpl. intros Hgt.
    pose proof (objective_bounded l Hl).
    pose proof (objective_bounded l' Hl').
    lia.
Qed.

End KnapsackTermination.

Lemma Knapsack_ils_terminates (n : nat) (c : Z) (items : list (list Z))
    (sol : Solution) (budget : Z) (fi : bool) (g : Rng) :
  KnapsackFacts.items_ok n items -> length (lst sol) = n ->
  (2 <= n)%nat -> fair n g ->
  exists fuel best log g',
    ils fuel sol (Knapsack.instance n c items) hc flip_neighbour_explorer
      budget fi g = Ret (best, log, g') /\
    length log = Z.to_nat budget.
Proof.
  intros Hok Hlen Hn Hfair.
  apply (Knapsack_ils_terminates_capped n c items
           (fun i => Z.max (Z.abs (nth i (lst sol) 0)) 1)); try done.
  - intros i. lia.
  - split; [done|]. intros i x Hx.
    rewrite (nth_lookup_Some _ _ 0 _ Hx). lia.
Qed.

Section OneMaxTermination.

Variable n : nat.

(** The number of positions that hold 0: every improving flip of a
    maximising OneMax turns one of them into 1. *)
Definition zeros (l : list Z) : nat :=
  foldr (fun v k => if v =? 0 then S k else k) O l.

Lemma zeros_insert (l : list Z) (i : nat) :
  l !! i = Some 0 -> zeros l = S (zeros (<[i := 1]> l)).
Proof.
  revert i. induction l as [|a l IH]; intros [|i] H; simpl in *; try done.
  - by injection H as ->.
  - rewrite (IH i H). by destruct (a =? 0).
Qed.

(** The loop invariant of the maximising explorer: either no improving
    position was met, or [best_i] is the first that was, and it holds 0. *)
Definition best_ok (sol : Solution) (st : explorer_state) : Prop :=
  (best_delta_fitness st = 0 /\ improved st = false) \/
  (best_delta_fitness st = 1 /\ lst sol !! best_i st = Some 0).

Lemma explore_OneMax_best (sol : Solution) (fi : bool) (idx : list nat) :
  forall st st',
    explore_indices sol (OneMax.instance true n) fi idx st = Ret st' ->
    best_ok sol st -> best_ok sol st'.
Proof.
  induction idx as [|i idx IH]; intros st st' H Hok.
  - simpl in H. by injection H as <-.
  - rewrite explore_indices_OneMax_cons in H.
    apply obind_inv in H as (v & Hv%getitem_Ret & H). simpl in H.
    unfold flip_gain in H. destruct (v =? 0) eqn:Ev; simpl in H.
    + apply Z.eqb_eq in Ev. subst v.
      assert (Hok2 : best_ok sol
                (if strictly_better (OneMax.instance true n) 1
                      (best_delta_fitness st)
                 then mkState true (Some 1) 1 (best_sol st) i
                 else mkState true (Some 1) (best_delta_fitness st)
                        (best_sol st) (best_i st))).
      { destruct Hok as [[Hb _] | [Hb Hi]]; rewrite Hb; by right. }
      destruct fi; [by injection H as <- | by eapply IH].
    + eapply IH; [exact H|].
      destruct Hok as [[Hb _] | [Hb Hi]]; [by left | by right].
Qed.

(** One call of the explorer on maximising OneMax. *)
Lemma explorer_OneMax_step (s : Solution) (fi : bool) (g : Rng) :
  lst s <> [] ->
  exists b s' g',
    flip_neighbour_explorer s (OneMax.instance true n) fi g = Ret (b, s', g') /\
    draws g' = draws g /\
    (if b then exists i, lst s !! i = Some 0 /\ lst s' = <[i := 1]> (lst s)
     else s' = s).
Proof.
  intros Hne.
  destruct (explorer_OneMax_total true n s fi g Hne) as (b & s' & g' & H).
  exists b, s', g'. split; [done|].
  apply explorer_inv in H as (idx & st & g1 & Hp & Hd & Hst & Hc).
  pose proof (conclude_draws _ _ _ _ _ _ Hc) as [-> Hb]. simpl in Hb.
  split; [done|].
  assert (Hok : best_ok s st).
  { apply (explore_OneMax_best _ _ _ _ _ Hst). left. by split. }
  unfold conclude in Hc. destruct (improved st) eqn:Ei; subst b.
  - destruct Hok as [[_ Hf] | [_ Hi]]; [congruence|].
    simpl in Hc.
    apply bind_inv in Hc as (d & g2 & _ & Hc).
    apply bind_inv in Hc as (new_sol & g3 & [Hfl _]%lift_inv & Hc).
    unfold ret in Hc. injection Hc as <- <-.
    unfold OneMax.flip_with_delta, deepcopy in Hfl.
    rewrite (proj2 (getitem_Ret _ _ _) Hi) in Hfl. simpl in Hfl.
    injection Hfl as <-. exists (best_i st). done.
  - unfold ret in Hc. congruence.
Qed.

Lemma OneMax_hc_while_terminates (fi : bool) (k : nat) :
  forall (s : Solution) (b : bool) (g : Rng),
    lst s <> [] -> (zeros (lst s) <= k)%nat ->
    exists s' g',
      hc_while (S k) (OneMax.instance true n) flip_neighbour_explorer fi b s g
        = Ret (s', g') /\
      draws g' = draws g /\ length (lst s') = length (lst s).
Proof.
  induction k as [|k IH]; intros s b g Hne Hz.
  - destruct b; [|by exists s, g].
    destruct (explorer_OneMax_step s fi g Hne) as (b1 & s1 & g1 & He & Hd & Hb).
    destruct b1.
    + destruct Hb as (i & Hi & _). rewrite (zeros_insert _ _ Hi) in Hz. lia.
    + subst s1. exists s, g1. simpl. unfold bind. by rewrite He.
  - destruct b; [|by exists s, g].
    destruct (explorer_OneMax_step s fi g Hne) as (b1 & s1 & g1 & He & Hd & Hb).
    cbn [hc_while]. unfold bind. rewrite He. cbn [fst snd].
    destruct b1.
    + destruct Hb as (i & Hi & Hl).
      assert (Hlen : length (lst s1) = length (lst s))
        by (by rewrite Hl, length_insert).
      assert (Hne1 : lst s1 <> []).
      { intros E. rewrite E in Hlen. destruct (lst s); [done | discriminate]. }
      destruct (IH s1 true g1 Hne1) as (s' & g' & H & Hd' & Hl').
      { rewrite (zeros_insert _ _ Hi), <- Hl in Hz. lia. }
      exists s', g'. split; [done|]. split; congruence.
    + subst s1. exists s, g1. done.
Qed.

Lemma OneMax_hc_terminates (s : Solution) (fi : bool) (g : Rng) :
  lst s <> [] ->
  exists fuel s' g',
    hc fuel s (OneMax.instance true n) flip_neighbour_explorer fi g
      = Ret (s', g') /\
    draws g' = draws g /\ length (lst s') = length (lst s).
Proof.
  intros Hne.
  destruct (explorer_OneMax_step s fi g Hne) as (b1 & s1 & g1 & He & Hd & Hb).
  assert (Hlen : length (lst s1) = length (lst s)).
  { destruct b1; [|by subst].
    destruct Hb as (i & _ & ->). by rewrite length_insert. }
  assert (Hne1 : lst s1 <> []).
  { intros E. rewrite E in Hlen. destruct (lst s); [done | discriminate]. }
  destruct (OneMax_hc_while_terminates fi (zeros (lst s1)) s1 b1 g1 Hne1)
    as (s' & g' & H & Hd' & Hl'); [lia|].
  exists (S (zeros (lst s1))), s', g'. unfold hc, bind. rewrite He.
  split; [done|]. split; congruence.
Qed.

Lemma OneMax_two_rnd_flips_mono (fuel fuel' : nat) (s : Solution) (g : Rng)
    (r : Solution * Rng) :
  (fuel <= fuel')%nat ->
  OneMax.two_rnd_flips n fuel s g = Ret r ->
  OneMax.two_rnd_flips n fuel' s g = Ret r.
Proof.
  intros Hle. unfold OneMax.two_rnd_flips, bind.
  destruct (sample_two fuel n g) as [[ij g1]| |] eqn:E; try done.
  by rewrite (sample_two_mono fuel fuel' n g _ Hle E).
Qed.

Lemma OneMax_ils_terminates (sol : Solution) (budget : Z) (fi : bool) (g : Rng) :
  length (lst sol) = n -> (2 <= n)%nat -> fair n g ->
  exists fuel best log g',
    ils fuel sol (OneMax.instance true n) hc flip_neighbour_explorer
      budget fi g = Ret (best, log, g') /\
    length log = Z.to_nat budget.
Proof.
  intros Hlen Hn.
  assert (Hne : forall s, length (lst s) = n -> lst s <> []).
  { intros s Hs E. rewrite E in Hs. simpl in Hs. lia. }
  apply (ils_terminates_from_parts (OneMax.instance true n) n
           (fun s => length (lst s) = n)); [| | |done].
  - intros s fi' g' Hs.
    destruct (OneMax_hc_terminates s fi' g' (Hne s Hs))
      as (fuel & s' & g2 & H & Hd & Hl).
    exists fuel, s', g2. split; [done|]. split; [done | congruence].
  - intros s g' Hs Hfair.
    destruct (OneMax_two_rnd_flips_progress n s g') as (fuel & s' & g2 & H);
      [lia | done | done |].
    exists fuel, s', g2. split; [exact H|].
    apply OneMax_two_rnd_flips_inv in H
      as (i & j & vi & vj & _ & _ & _ & -> & Hd).
    split; [done|]. simpl. by rewrite !length_insert.
  - intros fuel fuel' s g' r. apply OneMax_two_rnd_flips_mono.
Qed.

End OneMaxTermination.

(** With a single position, the rejection loop of [two_rnd_flips] can
    only draw that position again. *)
Lemma resample_one_position (fuel : nat) :
  forall g : Rng, resample fuel 1 0 0 g = OutOfFuel.
Proof.
  induction fuel as [|fuel IH]; intros g; [done|].
  cbn [resample Nat.eqb]. unfold bind, randint0, randbelow.
  rewrite Nat.mod_1_r. apply IH.
Qed.

Definition npp1 : ProblemInstance := NumberPartitioning.instance 1 [3].
Definition sol_0 : Solution := mkSolution [0] 3 false None.

(** C7, as stated, fails when the solution has a single position: the
    first hill climb returns, and the first perturbation then looks
    forever for a second position different from the first. For no fuel,
    mode or generator does the driver return, although the budget is 1. *)
Lemma ils_diverges_on_one_position :
  ~ exists (fuel : nat) (fi : bool) (g : Rng) (r : Solution * trajectory * Rng),
      ils fuel sol_0 npp1 hc flip_neighbour_explorer 1 fi g = Ret r.
Proof.
  intros (fuel & fi & g & [r g'] & H).
  unfold ils in H. apply bind_inv in H as (lo & g1 & _ & H).
  destruct fuel as [|fuel]; [done|].
  cbn [ils_while] in H. change (0 <? 1) with true in H. cbv iota in H.
  apply bind_inv in H as (r1 & g2 & H & _).
  unfold ils_body in H. apply bind_inv in H as (s & g3 & H & _).
  change (flip_two_then
            (fun l2 => NumberPartitioning.full_eval 1 [3]
               (mkSolution l2 (fitness (deepcopy lo)) (invalid (deepcopy lo))
                  (weight (deepcopy lo))))
            1 (S fuel) (deepcopy lo) g1 = Ret (s, g3)) in H.
  unfold flip_two_then, sample_two in H.
  apply bind_inv in H as (ij & g4 & H & _).
  apply bind_inv in H as (i & g5 & Hi & H).
  apply randint0_inv in Hi as (Hlt & _ & ->).
  assert (i = O) as -> by lia.
  apply bind_inv in H as (j & g6 & H & _).
  by rewrite resample_one_position in H.
Qed.

(** The problems and inputs the termination statement covers. *)
Inductive searchable : ProblemInstance -> nat -> Solution -> Prop :=
| searchable_Knapsack (n : nat) (c : Z) (items : list (list Z)) (sol : Solution) :
    KnapsackFacts.items_ok n items -> length (lst sol) = n ->
    searchable (Knapsack.instance n c items) n sol
| searchable_NumberPartitioning (n : nat) (a : list Z) (sol : Solution) :
    NumberPartitioningFacts.a_ok n a -> length (lst sol) = n ->
    searchable (NumberPartitioning.instance n a) n sol
| searchable_OneMax (n : nat) (sol : Solution) :
    length (lst sol) = n ->
    searchable (OneMax.instance true n) n sol.

(** C7, amended. For a Knapsack or NumberPartitioning instance with
    well-formed data, or OneMax completed with a [maximize] that returns
    [True], of dimension [n >= 2], an initial solution of length [n], any
    budget and any mode, and a fair generator (one under
    which every rejection loop of [two_rnd_flips] eventually draws a
    second position different from the first): the driver returns, given
    enough fuel, after exactly [max(non_impr_iters, 0)] iterations of its
    loop, one log line each; for a non-negative budget that is within
    [non_impr_iters + 1]. *)
Theorem ils_terminates_within_budget :
  forall (p : ProblemInstance) (n : nat) (sol : Solution)
         (non_impr_iters : Z) (first_improvement : bool) (g : Rng),
    searchable p n sol ->
    (2 <= n)%nat ->
    fair n g ->
    exists fuel best_lo log g',
      ils fuel sol p hc flip_neighbour_explorer non_impr_iters
        first_improvement g = Ret (best_lo, log, g') /\
      length log = Z.to_nat non_impr_iters /\
      (0 <= non_impr_iters -> Z.of_nat (length log) <= non_impr_iters + 1).
Proof.
  intros p n sol budget fi g Hs Hn Hfair.
  assert (H : exists fuel best log g',
             ils fuel sol p hc flip_neighbour_explorer budget fi g
               = Ret (best, log, g') /\
             length log = Z.to_nat budget).
  { destruct Hs as [n c items sol Hok Hlen | n a sol Hok Hlen | n sol Hlen].
    - by apply Knapsack_ils_terminates.
    - by apply NumberPartitioning_ils_terminates.
    - by apply OneMax_ils_terminates. }
  destruct H as (fuel & best & log & g' & H & Hl).
  exists fuel, best, log, g'. split; [done|]. split; [done|]. lia.
Qed.

Lemma ils_terminates_within_budget_witness :
  exists fuel best_lo log g',
    ils fuel sol_0000 npp4 hc flip_neighbour_explorer 3 true counting
      = Ret (best_lo, log, g') /\
    length log = Z.to_nat 3 /\
    (0 <= 3 -> Z.of_nat (length log) <= 3 + 1).
Proof.
  apply (ils_terminates_within_budget npp4 4 sol_0000 3 true counting).
  - apply searchable_NumberPartitioning; [|reflexivity].
    unfold NumberPartitioningFacts.a_ok. simpl. lia.
  - lia.
  - apply counting_fair. lia.
Defined.

(* ===================================================================== *)
(** * Further properties of the search engine *)
(* ===================================================================== *)

(** ** The comparison of a problem is a total preorder *)

Lemma better_or_equal_trans (p : ProblemInstance) (a b c : Z) :
  better_or_equal p a b = true -> better_or_equal p b c = true ->
  better_or_equal p a c = true.
Proof.
  unfold better_or_equal. destruct (maximize p); lia.
Qed.

Lemma strictly_better_trans (p : ProblemInstance) (a b c : Z) :
  strictly_better p a b = true -> strictly_better p b c = true ->
  strictly_better p a c = true.
Proof.
  unfold strictly_better. destruct (maximize p); lia.
Qed.

Lemma not_better_or_equal (p : ProblemInstance) (a b : Z) :
  better_or_equal p a b = false -> better_or_equal p b a = true.
Proof.
  unfold better_or_equal. destruct (maximize p); lia.
Qed.


Lemma strictly_then_or_equal (p : ProblemInstance) (a b c : Z) :
  strictly_better p a b = true -> better_or_equal p b c = true ->
  better_or_equal p a c = true.
Proof.
  unfold strictly_better, better_or_equal. destruct (maximize p); lia.
Qed.

(* ===================================================================== *)
(** ** The log of the driver is a walk, and the result dominates it *)
(* ===================================================================== *)

(** The best local optimum after a jump from [best] that reached [lo]. *)
Definition accepted (p : ProblemInstance) (best lo : Solution) : Solution :=
  if better_or_equal p (fitness lo) (fitness best) then lo else best.

(** A log is a walk from [cur] when every line starts at the best local
    optimum the previous lines left. *)
Fixpoint is_walk (p : ProblemInstance) (cur : Solution) (log : trajectory)
  : Prop :=
  match log with
  | [] => True
  | (b, lo) :: rest => b = cur /\ is_walk p (accepted p b lo) rest
  end.

(** Where the walk ends. *)
Fixpoint walk_end (p : ProblemInstance) (cur : Solution) (log : trajectory)
  : Solution :=
  match log with
  | [] => cur
  | (b, lo) :: rest => walk_end p (accepted p b lo) rest
  end.

Lemma is_walk_app (p : ProblemInstance) (log1 log2 : trajectory) :
  forall cur,
    is_walk p cur (log1 ++ log2) <->
    is_walk p cur log1 /\ is_walk p (walk_end p cur log1) log2.
Proof.
  induction log1 as [|[b lo] log1 IH]; intros cur; simpl; [tauto|].
  rewrite IH. tauto.
Qed.

Lemma walk_end_app (p : ProblemInstance) (log1 log2 : trajectory) :
  forall cur,
    walk_end p cur (log1 ++ log2) = walk_end p (walk_end p cur log1) log2.
Proof.
  induction log1 as [|[b lo] log1 IH]; intros cur; simpl; [done|]. apply IH.
Qed.

Lemma ils_body_inv (fuel : nat) (p : ProblemInstance) (ls : local_search)
    (ne : explorer) (fi : bool) (best : Solution) (cnt : Z) (log : trajectory)
    (g : Rng) (best' : Solution) (cnt' : Z) (log' : trajectory) (g' : Rng) :
  ils_body fuel p ls ne fi best cnt log g = Ret (best', cnt', log', g') ->
  exists s g1 lo,
    two_rnd_flips p fuel best g = Ret (s, g1) /\
    ls fuel s p ne fi g1 = Ret (lo, g') /\
    best' = accepted p best lo /\ cnt' = cnt + 1 /\
    log' = log ++ [(best, lo)].
Proof.
  unfold ils_body, deepcopy.
  intros (s & g1 & Hs & (lo & g2 & Hlo & H)%bind_inv)%bind_inv.
  rewrite acceptance_unfold in H. unfold ret, deepcopy in H.
  injection H as <- <- <- <-. exists s, g1, lo. done.
Qed.

Lemma ils_while_walk (p : ProblemInstance) (ls : local_search) (ne : explorer)
    (budget : Z) (fi : bool) (inner fuel : nat) :
  forall (best : Solution) (cnt : Z) (log : trajectory) (g : Rng)
         (best' : Solution) (log' : trajectory) (g' : Rng),
    ils_while fuel inner p ls ne budget fi best cnt log g
      = Ret (best', log', g') ->
    exists more,
      log' = log ++ more /\ is_walk p best more /\
      best' = walk_end p best more /\
      Z.of_nat (length more) = Z.max 0 (budget - cnt).
Proof.
  induction fuel as [|fuel IH]; intros best cnt log g best' log' g' H;
    simpl in H; destruct (cnt <? budget) eqn:E; try done.
  - injection H as <- <- <-. exists []. rewrite app_nil_r. simpl.
    repeat split; lia.
  - apply bind_inv in H as ([[best1 cnt1] log1] & g1 & Hb & H).
    apply ils_body_inv in Hb as (s & g0 & lo & _ & _ & -> & -> & ->).
    apply IH in H as (more & -> & Hw & -> & Hlen).
    exists ((best, lo) :: more). rewrite <- app_assoc. simpl.
    repeat split; try done. lia.
  - injection H as <- <- <-. exists []. rewrite app_nil_r. simpl.
    repeat split; lia.
Qed.

(** The end of a walk is at least as good as its start and as every
    solution on its lines. *)
Lemma walk_end_dominates (p : ProblemInstance) (log : trajectory) :
  forall cur,
    is_walk p cur log ->
    better_or_equal p (fitness (walk_end p cur log)) (fitness cur) = true /\
    forall b lo, (b, lo) ∈ log ->
      better_or_equal p (fitness (walk_end p cur log)) (fitness b) = true /\
      better_or_equal p (fitness (walk_end p cur log)) (fitness lo) = true.
Proof.
  induction log as [|[b lo] log IH]; intros cur Hw; simpl in *.
  - split; [apply better_or_equal_refl|]. intros b lo Hin. inversion Hin.
  - destruct Hw as [-> Hw]. destruct (IH _ Hw) as [Hend Hall].
    assert (Hacc : better_or_equal p (fitness (accepted p cur lo)) (fitness cur)
                   = true /\
                   better_or_equal p (fitness (accepted p cur lo)) (fitness lo)
                   = true).
    { unfold accepted.
      destruct (better_or_equal p (fitness lo) (fitness cur)) eqn:E.
      - split; [done | apply better_or_equal_refl].
      - split; [apply better_or_equal_refl | by apply not_better_or_equal]. }
    destruct Hacc as [Hc Hl].
    split; [by eapply better_or_equal_trans|].
    intros b' lo' [[= -> ->] | Hin]%elem_of_cons.
    + split; by eapply better_or_equal_trans.
    + by apply Hall.
Qed.

(** The end of a walk is its start or the destination of one of its
    lines. *)
Lemma walk_end_visited (p : ProblemInstance) (log : trajectory) :
  forall cur,
    is_walk p cur log ->
    walk_end p cur log = cur \/ exists b, (b, walk_end p cur log) ∈ log.
Proof.
  induction log as [|[b lo] log IH]; intros cur Hw; simpl in *; [by left|].
  destruct Hw as [-> Hw].
  destruct (IH _ Hw) as [-> | [b' Hin]].
  - unfold accepted. destruct (better_or_equal p (fitness lo) (fitness cur)).
    + right. exists cur. by left.
    + by left.
  - right. exists b'. by right.
Qed.

Definition ils_sample : M (Solution * trajectory) :=
  ils 10 sol_0000 npp4 hc flip_neighbour_explorer 3 true.

(** X1. Whenever the driver returns, its log is a walk: the first line
    starts at the first local optimum, every later line starts at the
    best local optimum the line before left (its destination when that
    was better or equal, its source otherwise), the result is the end
    of that walk, and the log has [max(non_impr_iters, 0)] lines. This
    holds for every problem, local search and explorer. *)
Theorem ils_log_is_walk :
  forall (fuel : nat) (sol : Solution) (p : ProblemInstance)
         (ls : local_search) (ne : explorer) (non_impr_iters : Z)
         (fi : bool) (g : Rng)
         (best : Solution) (log : trajectory) (g' : Rng),
    ils fuel sol p ls ne non_impr_iters fi g = Ret (best, log, g') ->
    exists lo0 g0,
      ls fuel sol p ne fi g = Ret (lo0, g0) /\
      is_walk p lo0 log /\
      best = walk_end p lo0 log /\
      Z.of_nat (length log) = Z.max 0 non_impr_iters.
Proof.
  intros fuel sol p ls ne budget fi g best log g' H.
  unfold ils in H. apply bind_inv in H as (lo0 & g0 & Hls & H).
  apply ils_while_walk in H as (more & -> & Hw & -> & Hlen).
  exists lo0, g0. unfold deepcopy in *. simpl.
  repeat split; try done. rewrite Hlen. f_equal. lia.
Qed.

Lemma ils_log_is_walk_witness :
  exists best log g' lo0 g0,
    ils_sample counting = Ret (best, log, g') /\
    hc 10 sol_0000 npp4 flip_neighbour_explorer true counting = Ret (lo0, g0) /\
    is_walk npp4 lo0 log /\
    best = walk_end npp4 lo0 log /\
    Z.of_nat (length log) = Z.max 0 3.
Proof.
  destruct (ils_sample counting) as [[[best log] g']| |] eqn:E;
    [|vm_compute in E; discriminate..].
  destruct (ils_log_is_walk _ _ _ _ _ _ _ _ _ _ _ E) as (lo0 & g0 & H).
  exists best, log, g', lo0, g0. split; [reflexivity | exact H].
Defined.

(** X2. Whenever the driver returns, the solution it returns is at least
    as good (under the problem's comparison) as the first local optimum
    and as every solution written to the log, sources and destinations
    alike; and it is one of them: the first local optimum or the
    destination of a log line. *)
Theorem ils_result_dominates_log :
  forall (fuel : nat) (sol : Solution) (p : ProblemInstance)
         (ls : local_search) (ne : explorer) (non_impr_iters : Z)
         (fi : bool) (g : Rng)
         (best : Solution) (log : trajectory) (g' : Rng),
    ils fuel sol p ls ne non_impr_iters fi g = Ret (best, log, g') ->
    (forall b lo, (b, lo) ∈ log ->
       better_or_equal p (fitness best) (fitness b) = true /\
       better_or_equal p (fitness best) (fitness lo) = true) /\
    exists lo0 g0,
      ls fuel sol p ne fi g = Ret (lo0, g0) /\
      better_or_equal p (fitness best) (fitness lo0) = true /\
      (best = lo0 \/ exists b, (b, best) ∈ log).
Proof.
  intros fuel sol p ls ne budget fi g best log g' H.
  unfold ils in H. apply bind_inv in H as (lo0 & g0 & Hls & H).
  apply ils_while_walk in H as (more & -> & Hw & -> & _).
  unfold deepcopy in *. simpl.
  destruct (walk_end_dominates p more lo0 Hw) as [Hstart Hall].
  split; [exact Hall|].
  exists lo0, g0. split; [done|]. split; [done|].
  by apply walk_end_visited.
Qed.

Lemma ils_result_dominates_log_witness :
  exists best log g',
    ils_sample counting = Ret (best, log, g') /\
    (forall b lo, (b, lo) ∈ log ->
       better_or_equal npp4 (fitness best) (fitness b) = true /\
       better_or_equal npp4 (fitness best) (fitness lo) = true).
Proof.
  destruct (ils_sample counting) as [[[best log] g']| |] eqn:E;
    [|vm_compute in E; discriminate..].
  exists best, log, g'. split; [reflexivity|].
  exact (proj1 (ils_result_dominates_log _ _ _ _ _ _ _ _ _ _ _ E)).
Defined.

(** X3. With a budget of zero or less the driver perturbs nothing: it
    returns what the local search returns from the initial solution,
    with an empty log, and raises or runs out of fuel exactly as the
    local search does. *)
Theorem ils_without_budget :
  forall (fuel : nat) (sol : Solution) (p : ProblemInstance)
         (ls : local_search) (ne : explorer) (non_impr_iters : Z)
         (fi : bool) (g : Rng),
    non_impr_iters <= 0 ->
    ils fuel sol p ls ne non_impr_iters fi g =
    match ls fuel sol p ne fi g with
    | Ret (lo, g') => Ret (lo, [], g')
    | Raise e => Raise e
    | OutOfFuel => OutOfFuel
    end.
Proof.
  intros fuel sol p ls ne budget fi g Hb. unfold ils, bind.
  destruct (ls fuel sol p ne fi g) as [[lo g']| |]; try done.
  assert (E : (0 <? budget) = false) by lia.
  destruct fuel; simpl; by rewrite E.
Qed.

Lemma ils_without_budget_witness :
  ils 0 sol_0 npp1 hc flip_neighbour_explorer 0 true counting
    = Ret (sol_0, [], mkRng (draws counting) 0).
Proof.
  rewrite (ils_without_budget 0 sol_0 npp1 hc flip_neighbour_explorer 0 true
             counting); [reflexivity | lia].
Defined.

(* ===================================================================== *)
(** ** What one call of the explorer does to a solution *)
(* ===================================================================== *)

(** The three problem classes of [problems.py] (OneMax with either value
    for the [maximize] it lacks). *)
Inductive variant : ProblemInstance -> Prop :=
| variant_Knapsack (n : nat) (c : Z) (items : list (list Z)) :
    variant (Knapsack.instance n c items)
| variant_NumberPartitioning (n : nat) (a : list Z) :
    variant (NumberPartitioning.instance n a)
| variant_OneMax (m : bool) (n : nat) :
    variant (OneMax.instance m n).

(** [l'] is [l] with one position overwritten by a different value,
    0 or 1. *)
Definition one_flip (l l' : list Z) : Prop :=
  exists (i : nat) (v w : Z),
    l !! i = Some v /\ l' = <[i := w]> l /\ (w = 0 \/ w = 1) /\ w <> v.

Lemma flip01_changes (v : Z) : flip01 v <> v.
Proof. unfold flip01. destruct (v =? 1) eqn:E; lia. Qed.

Lemma flip10_changes (v : Z) : flip10 v <> v.
Proof. unfold flip10. destruct (v =? 0) eqn:E; lia. Qed.

Lemma flip10_bit (v : Z) : flip10 v = 0 \/ flip10 v = 1.
Proof. unfold flip10. destruct (v =? 0); auto. Qed.

Lemma one_flip_length (l l' : list Z) : one_flip l l' -> length l' = length l.
Proof.
  intros (i & v & w & _ & -> & _). apply length_insert.
Qed.

Lemma one_flip_bitstring (l l' : list Z) :
  one_flip l l' -> is_bitstring l -> is_bitstring l'.
Proof.
  intros (i & v & w & _ & -> & Hw & _) Hb. by apply is_bitstring_insert.
Qed.

(** A neighbour that a full evaluation accepted, for the two classes that
    evaluate fully. *)
Lemma neighbour_one_flip (p : ProblemInstance) (sol : Solution) (i : nat)
    (s' : Solution) :
  (forall s e, full_eval p s = Ret e -> lst e = lst s /\ invalid e = false) ->
  neighbour p sol i = Ret s' ->
  one_flip (lst sol) (lst s') /\ invalid s' = false.
Proof.
  intros Hfe (l' & (v & Hv & ->)%flip_at_Ret & He)%obind_inv.
  apply Hfe in He as [Hl Hinv]. simpl in Hl. split; [|done].
  exists i, v, (flip01 v). rewrite Hl.
  repeat split; [done | apply flip01_bit | apply flip01_changes].
Qed.

Lemma Knapsack_full_eval_shape (n : nat) (c : Z) (items : list (list Z))
    (s e : Solution) :
  full_eval (Knapsack.instance n c items) s = Ret e ->
  lst e = lst s /\ invalid e = false.
Proof.
  intros H. simpl in H.
  apply KnapsackFacts.knapsack_full_eval_inv in H as (_ & Hl & Hi & _). done.
Qed.

Lemma NumberPartitioning_full_eval_shape (n : nat) (a : list Z) (s e : Solution) :
  full_eval (NumberPartitioning.instance n a) s = Ret e ->
  lst e = lst s /\ invalid e = false.
Proof.
  intros H. simpl in H.
  apply NumberPartitioningFacts.partition_full_eval_inv in H as (_ & Hl & Hi & _).
  done.
Qed.

Lemma explorer_OneMax_inv (m : bool) (n : nat) (sol : Solution) (fi : bool)
    (g : Rng) (b : bool) (s' : Solution) (g' : Rng) :
  flip_neighbour_explorer sol (OneMax.instance m n) fi g = Ret (b, s', g') ->
  if b then one_flip (lst sol) (lst s') /\ invalid s' = false else s' = sol.
Proof.
  intros (idx & st & g1 & Hp & Hd & Hst & Hc)%explorer_inv.
  pose proof (conclude_draws _ _ _ _ _ _ Hc) as [-> Hb]. simpl in Hb. subst b.
  unfold conclude in Hc. destruct (improved st) eqn:Ei.
  - simpl in Hc.
    apply bind_inv in Hc as (d & g2 & _ & Hc).
    apply bind_inv in Hc as (new_sol & g3 & [Hfl _]%lift_inv & Hc).
    unfold ret in Hc. injection Hc as <- <-.
    unfold OneMax.flip_with_delta, deepcopy in Hfl.
    apply obind_inv in Hfl as (v & Hv%getitem_Ret & [= <-]). simpl.
    split; [|done]. exists (best_i st), v, (flip10 v).
    repeat split; [done | apply flip10_bit | apply flip10_changes].
  - unfold ret in Hc. congruence.
Qed.

Definition kn3 : ProblemInstance :=
  Knapsack.instance 3 10 [[1; 4; 5]; [2; 6; 6]; [3; 3; 4]].
Definition sol_000 : Solution := mkSolution [0; 0; 0] 0 false None.

(** One call of the explorer on one of the three classes. *)
Lemma explorer_step_shape (p : ProblemInstance) (sol : Solution) (fi : bool)
    (g : Rng) (b : bool) (s' : Solution) (g' : Rng) :
  variant p ->
  flip_neighbour_explorer sol p fi g = Ret (b, s', g') ->
  if b then one_flip (lst sol) (lst s') /\ invalid s' = false
  else s' = sol.
Proof.
  intros Hv H.
  destruct Hv as [n c items | n a | m n].
  - destruct (explorer_full_inv (Knapsack.instance n c items) eq_refl
                _ _ _ _ _ _ H) as [_ Hb].
    destruct b; [|by destruct Hb].
    destruct Hb as (i & Hn & _).
    eapply neighbour_one_flip; [|exact Hn].
    apply Knapsack_full_eval_shape.
  - destruct (explorer_full_inv (NumberPartitioning.instance n a) eq_refl
                _ _ _ _ _ _ H) as [_ Hb].
    destruct b; [|by destruct Hb].
    destruct Hb as (i & Hn & _).
    eapply neighbour_one_flip; [|exact Hn].
    apply NumberPartitioning_full_eval_shape.
  - by eapply explorer_OneMax_inv.
Qed.


(** X4. On each of the three problem classes, in both modes, a call of
    the explorer that returns either reports no improvement and hands
    back its input unchanged, or reports an improvement and returns a
    solution that differs from the input at exactly one position, which
    now holds 0 or 1, with [invalid] cleared. *)
Theorem explorer_moves_one_position :
  forall (p : ProblemInstance) (sol : Solution) (fi : bool) (g : Rng)
         (b : bool) (s' : Solution) (g' : Rng),
    variant p ->
    flip_neighbour_explorer sol p fi g = Ret (b, s', g') ->
    if b then one_flip (lst sol) (lst s') /\ invalid s' = false
    else s' = sol.
Proof.
  intros p sol fi g b s' g'. apply explorer_step_shape.
Qed.

Lemma explorer_moves_one_position_witness :
  exists s' g',
    flip_neighbour_explorer sol_000 kn3 false counting = Ret (true, s', g') /\
    one_flip (lst sol_000) (lst s') /\ invalid s' = false.
Proof.
  destruct (flip_neighbour_explorer sol_000 kn3 false counting)
    as [[[b s'] g']| |] eqn:E; [|vm_compute in E; discriminate..].
  assert (Hb : b = true) by (vm_compute in E; congruence). subst b.
  exists s', g'. split; [reflexivity|].
  exact (explorer_moves_one_position kn3 sol_000 false counting true s' g'
           (variant_Knapsack _ _ _) E).
Defined.

(** The generator after the loop of [random.shuffle]. *)
Lemma shuffle_from_pos {A : Type} (i : nat) :
  forall (x : list A) (g : Rng) (x' : list A) (g' : Rng),
    shuffle_from i x g = Ret (x', g') -> pos g' = (pos g + i)%nat.
Proof.
  induction i as [|i IH]; intros x g x' g' H.
  - simpl in H. unfold ret in H. injection H as <- <-. lia.
  - cbn [shuffle_from] in H. apply bind_inv in H as (j & g1 & Hj & H).
    unfold randbelow in Hj.
    assert (Hg : g1 = advance g) by congruence. subst g1.
    apply IH in H. simpl in H. lia.
Qed.

(** X5. The randomness one call of the explorer consumes: none in
    best-improvement mode, where the generator is handed back untouched,
    and exactly [len(sol.lst) - 1] draws in first-improvement mode (the
    shuffle), however early the scan stops. The sequence of future draws
    is never altered. *)
Theorem explorer_randomness :
  forall (p : ProblemInstance) (sol : Solution) (fi : bool) (g : Rng)
         (b : bool) (s' : Solution) (g' : Rng),
    flip_neighbour_explorer sol p fi g = Ret (b, s', g') ->
    draws g' = draws g /\
    pos g' = (if fi then pos g + (length (lst sol) - 1) else pos g)%nat.
Proof.
  intros p sol fi g b s' g' H.
  pose proof (explorer_nonempty _ _ _ _ _ H) as Hne.
  rewrite (explorer_unfold _ _ _ _ Hne) in H.
  apply bind_inv in H as (idx & g1 & Ho & H).
  apply bind_inv in H as (st & g2 & [_ ->]%lift_inv & H).
  apply conclude_draws in H as [-> _].
  destruct (exploration_order_Permutation fi (range (length (lst sol))) g)
    as (idx' & g1' & Ho' & _ & Hd).
  rewrite Ho in Ho'. injection Ho' as <- <-. split; [done|].
  destruct fi; simpl in Ho.
  - apply shuffle_from_pos in Ho. unfold range in Ho.
    by rewrite length_seq in Ho.
  - unfold ret in Ho. by injection Ho as <- <-.
Qed.

Lemma explorer_randomness_witness :
  exists b s' g',
    flip_neighbour_explorer sol_0000 npp4 true counting = Ret (b, s', g') /\
    draws g' = draws counting /\ pos g' = 3%nat.
Proof.
  destruct (flip_neighbour_explorer sol_0000 npp4 true counting)
    as [[[b s'] g']| |] eqn:E; [|vm_compute in E; discriminate..].
  exists b, s', g'. split; [reflexivity|].
  exact (explorer_randomness npp4 sol_0000 true counting b s' g' E).
Defined.

(* ===================================================================== *)
(** ** Best improvement on problems that re-evaluate *)
(* ===================================================================== *)

Section BestImprovement.

Variable p : ProblemInstance.
Hypothesis no_delta : has_flip_delta_eval p = false.


(** The explorer never consults the delta methods of such a problem. *)
Lemma explore_indices_ignores_delta (sol : Solution) (fi : bool)
    (fd : Solution -> nat -> outcome (bool * Z))
    (fw : Solution -> nat -> Z -> outcome Solution) (idx : list nat) :
  forall st,
    explore_indices sol
      (mkProblem (maximize p) (full_eval p) false fd fw (two_rnd_flips p))
      fi idx st
    = explore_indices sol p fi idx st.
Proof.
  induction idx as [|i idx IH]; intros st; [done|].
  cbn [explore_indices]. rewrite no_delta.
  cbn [has_flip_delta_eval full_eval].
  unfold strictly_better. cbn [maximize].
  destruct (flip_at (lst (deepcopy sol)) i) as [l'| |]; simpl; try done.
  destruct (full_eval p _) as [new_sol| |]; simpl; try done.
  rewrite !IH. reflexivity.
Qed.

End BestImprovement.



(** X7. On a problem that declares no delta evaluation, the explorer
    never calls [flip_delta_eval] or [flip_with_delta]: replacing the two
    methods by anything whatever changes nothing of what the explorer
    returns or raises, in either mode. *)
Theorem explorer_ignores_delta_methods :
  forall (p : ProblemInstance) (sol : Solution) (fi : bool) (g : Rng)
         (fd : Solution -> nat -> outcome (bool * Z))
         (fw : Solution -> nat -> Z -> outcome Solution),
    has_flip_delta_eval p = false ->
    flip_neighbour_explorer sol
      (mkProblem (maximize p) (full_eval p) false fd fw (two_rnd_flips p)) fi g
    = flip_neighbour_explorer sol p fi g.
Proof.
  intros p sol fi g fd fw Hnd.
  destruct (lst sol) as [|v l] eqn:E.
  - unfold flip_neighbour_explorer. by rewrite E.
  - rewrite !explorer_unfold by (by rewrite E).
    unfold bind.
    destruct (exploration_order fi (range (length (lst sol))) g)
      as [[idx g1]| |]; try done.
    unfold lift. rewrite (explore_indices_ignores_delta p Hnd).
    destruct (explore_indices sol p fi idx (initial_state sol)) as [st| |];
      try done.
    unfold conclude. rewrite Hnd. reflexivity.
Qed.

Lemma explorer_ignores_delta_methods_witness :
  flip_neighbour_explorer sol_0000
    (mkProblem (maximize npp4) (full_eval npp4) false
       OneMax.flip_delta_eval OneMax.flip_with_delta (two_rnd_flips npp4))
    true counting
  = flip_neighbour_explorer sol_0000 npp4 true counting.
Proof.
  apply (explorer_ignores_delta_methods npp4 sol_0000 true counting).
  reflexivity.
Defined.

(* ===================================================================== *)
(** ** The hill climber *)
(* ===================================================================== *)

(** On OneMax, in both modes, an improvement that the loop reports has
    delta 1. *)
Lemma explore_OneMax_delta_ok (m : bool) (n : nat) (sol : Solution) (fi : bool)
    (idx : list nat) :
  forall st st',
    explore_indices sol (OneMax.instance m n) fi idx st = Ret st' ->
    delta_ok st -> delta_ok st'.
Proof.
  induction idx as [|i idx IH]; intros st st' H Hok.
  - simpl in H. by injection H as <-.
  - rewrite explore_indices_OneMax_cons in H.
    apply obind_inv in H as (v & Hv & H). simpl in H.
    unfold flip_gain in H.
    destruct (v =? 0); simpl in H.
    + assert (Hok2 : delta_ok
                (if strictly_better (OneMax.instance m n) 1
                      (best_delta_fitness st)
                 then mkState true (Some 1) 1 (best_sol st) i
                 else mkState true (Some 1) (best_delta_fitness st)
                        (best_sol st) (best_i st))).
      { by destruct (strictly_better _ _ _); intros _. }
      destruct fi; [by injection H as <- | by eapply IH].
    + eapply IH; [exact H|]. by intros [=].
Qed.

Lemma explorer_OneMax_gain (m : bool) (n : nat) (sol : Solution) (fi : bool)
    (g : Rng) (b : bool) (s' : Solution) (g' : Rng) :
  flip_neighbour_explorer sol (OneMax.instance m n) fi g = Ret (b, s', g') ->
  if b then fitness s' = fitness sol + 1 else s' = sol.
Proof.
  intros (idx & st & g1 & Hp & Hd & Hst & Hc)%explorer_inv.
  pose proof (explore_OneMax_delta_ok _ _ _ _ _ _ _ Hst) as Hok.
  pose proof (conclude_draws _ _ _ _ _ _ Hc) as [-> Hb]. simpl in Hb. subst b.
  unfold conclude in Hc. destruct (improved st) eqn:Ei.
  - simpl in Hc.
    assert (H0 : delta_ok (initial_state sol)) by (by intros [=]).
    rewrite (Hok H0 Ei) in Hc.
    unfold bind, lift in Hc. simpl in Hc.
    unfold OneMax.flip_with_delta in Hc.
    destruct (getitem (lst (deepcopy sol)) (best_i st)); simpl in Hc; [|done..].
    unfold ret in Hc. by injection Hc as <-.
  - unfold ret in Hc. congruence.
Qed.

(** One call of the explorer on a covered problem: the input, or a
    strictly better solution. *)
Lemma explorer_strict_step (p : ProblemInstance) (sol : Solution) (fi : bool)
    (g : Rng) (b : bool) (s' : Solution) (g' : Rng) :
  covered p ->
  flip_neighbour_explorer sol p fi g = Ret (b, s', g') ->
  if b then strictly_better p (fitness s') (fitness sol) = true else s' = sol.
Proof.
  intros [q Hnd | n] H.
  - destruct (explorer_full_inv q Hnd _ _ _ _ _ _ H) as [_ Hb].
    destruct b; [|by destruct Hb]. by destruct Hb as (i & _ & Hsb).
  - pose proof (explorer_OneMax_gain _ _ _ _ _ _ _ _ H) as Hb.
    destruct b; [|done]. rewrite Hb. unfold strictly_better. simpl. lia.
Qed.

Lemma hc_while_strict (p : ProblemInstance) (fi : bool) (fuel : nat) :
  covered p ->
  forall (b : bool) (s : Solution) (g : Rng) (s' : Solution) (g' : Rng),
    hc_while fuel p flip_neighbour_explorer fi b s g = Ret (s', g') ->
    s' = s \/ strictly_better p (fitness s') (fitness s) = true.
Proof.
  intros Hc. induction fuel as [|fuel IH]; intros b s g s' g' H; simpl in H.
  - destruct b; [done|]. injection H as <- <-. by left.
  - destruct b; [|injection H as <- <-; by left].
    apply bind_inv in H as ([b1 s1] & g1 & He & H). simpl in H.
    pose proof (explorer_strict_step _ _ _ _ _ _ _ Hc He) as Hstep.
    destruct (IH _ _ _ _ _ H) as [-> | Hsb].
    + destruct b1; [by right | left; done].
    + destruct b1; [|subst s1; by right].
      right. by eapply strictly_better_trans.
Qed.

Lemma hc_strict (p : ProblemInstance) (fuel : nat) (init_sol : Solution)
    (fi : bool) (g : Rng) (s' : Solution) (g' : Rng) :
  covered p ->
  hc fuel init_sol p flip_neighbour_explorer fi g = Ret (s', g') ->
  s' = init_sol \/
  strictly_better p (fitness s') (fitness init_sol) = true.
Proof.
  revert init_sol. intros s Hc H. unfold hc in H.
  apply bind_inv in H as ([b1 s1] & g1 & He & H). simpl in H.
  pose proof (explorer_strict_step _ _ _ _ _ _ _ Hc He) as Hstep.
  destruct (hc_while_strict p fi fuel Hc _ _ _ _ _ H) as [-> | Hsb].
  - destruct b1; [by right | by left].
  - destruct b1; [|subst s1; by right].
    right. by eapply strictly_better_trans.
Qed.


(** X8. The hill climber never returns a worse solution: on a problem
    without delta evaluation, and on OneMax with a [maximize] that
    returns [True], in both modes, whatever it returns is its input,
    unchanged, or a solution whose fitness is strictly better than the
    input's. *)
Theorem hc_never_worsens :
  forall (p : ProblemInstance) (fuel : nat) (init_sol : Solution) (fi : bool)
         (g : Rng) (s' : Solution) (g' : Rng),
    covered p ->
    hc fuel init_sol p flip_neighbour_explorer fi g = Ret (s', g') ->
    s' = init_sol \/
    strictly_better p (fitness s') (fitness init_sol) = true.
Proof.
  intros p fuel s fi g s' g'. apply hc_strict.
Qed.

Definition hc_sample : M Solution :=
  hc 10 sol_0000 npp4 flip_neighbour_explorer true.

Lemma hc_never_worsens_witness :
  exists s' g',
    hc_sample counting = Ret (s', g') /\
    (s' = sol_0000 \/
     strictly_better npp4 (fitness s') (fitness sol_0000) = true).
Proof.
  destruct (hc_sample counting) as [[s' g']| |] eqn:E;
    [|vm_compute in E; discriminate..].
  exists s', g'. split; [reflexivity|].
  exact (hc_never_worsens npp4 10 sol_0000 true counting s' g'
           (covered_full_eval npp4 eq_refl) E).
Defined.

(** X9. On a problem without delta evaluation the hill climber is
    idempotent: started again from a solution it returned, with any
    fuel, in either mode and from any state of the generator, it returns
    that same solution. *)
Theorem hc_idempotent :
  forall (p : ProblemInstance) (fuel : nat) (init_sol : Solution) (fi : bool)
         (g : Rng) (s' : Solution) (g' : Rng),
    has_flip_delta_eval p = false ->
    hc fuel init_sol p flip_neighbour_explorer fi g = Ret (s', g') ->
    forall (fuel2 : nat) (fi2 : bool) (g2 : Rng),
      exists g3,
        hc fuel2 s' p flip_neighbour_explorer fi2 g2 = Ret (s', g3).
Proof.
  intros p fuel s fi g s' g' Hnd H fuel2 fi2 g2.
  destruct (hc_full_eval_result_is_local_optimum p fuel s fi g s' g' Hnd H
              fi2 g2) as [g3 He].
  exists g3. unfold hc, bind. rewrite He. simpl. by destruct fuel2.
Qed.

Lemma hc_idempotent_witness :
  exists s' g',
    hc_sample counting = Ret (s', g') /\
    forall (fuel2 : nat) (fi2 : bool) (g2 : Rng),
      exists g3,
        hc fuel2 s' npp4 flip_neighbour_explorer fi2 g2 = Ret (s', g3).
Proof.
  destruct (hc_sample counting) as [[s' g']| |] eqn:E;
    [|vm_compute in E; discriminate..].
  exists s', g'. split; [reflexivity|].
  exact (hc_idempotent npp4 10 sol_0000 true counting s' g' eq_refl E).
Defined.

Lemma hc_while_shape (p : ProblemInstance) (fi : bool) (fuel : nat) :
  variant p ->
  forall (b : bool) (s : Solution) (g : Rng) (s' : Solution) (g' : Rng),
    hc_while fuel p flip_neighbour_explorer fi b s g = Ret (s', g') ->
    length (lst s') = length (lst s) /\
    (is_bitstring (lst s) -> is_bitstring (lst s')) /\
    (s' = s \/ invalid s' = false).
Proof.
  intros Hv. induction fuel as [|fuel IH]; intros b s g s' g' H; simpl in H.
  - destruct b; [done|]. injection H as <- <-. auto.
  - destruct b; [|injection H as <- <-; auto].
    apply bind_inv in H as ([b1 s1] & g1 & He & H). simpl in H.
    pose proof (explorer_step_shape p s fi g b1 s1 g1 Hv He)
      as Hstep.
    destruct (IH _ _ _ _ _ H) as (Hl & Hb & Hi).
    destruct b1.
    + destruct Hstep as [Hof Hinv].
      split; [rewrite Hl; by apply one_flip_length|].
      split; [intros Hbits; apply Hb; by eapply one_flip_bitstring|].
      right. destruct Hi as [-> | Hi]; done.
    + subst s1. done.
Qed.

Lemma hc_shape (p : ProblemInstance) (fuel : nat) (init_sol : Solution)
    (fi : bool) (g : Rng) (s' : Solution) (g' : Rng) :
  variant p ->
  hc fuel init_sol p flip_neighbour_explorer fi g = Ret (s', g') ->
  length (lst s') = length (lst init_sol) /\
  (is_bitstring (lst init_sol) -> is_bitstring (lst s')) /\
  (s' = init_sol \/ invalid s' = false).
Proof.
  revert init_sol. intros s Hv H. unfold hc in H.
  apply bind_inv in H as ([b1 s1] & g1 & He & H). simpl in H.
  pose proof (explorer_step_shape p s fi g b1 s1 g1 Hv He) as Hstep.
  destruct (hc_while_shape p fi fuel Hv _ _ _ _ _ H) as (Hl & Hb & Hi).
  destruct b1.
  - destruct Hstep as [Hof Hinv].
    split; [rewrite Hl; by apply one_flip_length|].
    split; [intros Hbits; apply Hb; by eapply one_flip_bitstring|].
    right. destruct Hi as [-> | Hi]; done.
  - subst s1. done.
Qed.


(** X10. On each of the three problem classes and in both modes, the
    solution the hill climber returns has the length of the initial
    solution, is a 0/1 list whenever the initial solution is one, and is
    either the initial solution itself or a solution with [invalid]
    cleared. *)
Theorem hc_preserves_shape :
  forall (p : ProblemInstance) (fuel : nat) (init_sol : Solution) (fi : bool)
         (g : Rng) (s' : Solution) (g' : Rng),
    variant p ->
    hc fuel init_sol p flip_neighbour_explorer fi g = Ret (s', g') ->
    length (lst s') = length (lst init_sol) /\
    (is_bitstring (lst init_sol) -> is_bitstring (lst s')) /\
    (s' = init_sol \/ invalid s' = false).
Proof.
  intros p fuel s fi g s' g'. apply hc_shape.
Qed.

Lemma hc_preserves_shape_witness :
  exists s' g',
    hc_sample counting = Ret (s', g') /\
    length (lst s') = length (lst sol_0000) /\
    (is_bitstring (lst sol_0000) -> is_bitstring (lst s')) /\
    (s' = sol_0000 \/ invalid s' = false).
Proof.
  destruct (hc_sample counting) as [[s' g']| |] eqn:E;
    [|vm_compute in E; discriminate..].
  exists s', g'. split; [reflexivity|].
  exact (hc_preserves_shape npp4 10 sol_0000 true counting s' g'
           (variant_NumberPartitioning _ _) E).
Defined.

(* ===================================================================== *)
(** ** Hill climbing OneMax by first improvement *)
(* ===================================================================== *)

Lemma zeros_none (l : list Z) :
  (forall i, l !! i <> Some 0) -> zeros l = O.
Proof.
  induction l as [|a l IH]; intros H; simpl; [done|].
  destruct (a =? 0) eqn:E.
  - apply Z.eqb_eq in E. subst a. by destruct (H O).
  - apply IH. intros i. apply (H (S i)).
Qed.

Lemma zeros_total (l : list Z) :
  is_bitstring l -> total l + Z.of_nat (zeros l) = Z.of_nat (length l).
Proof.
  unfold total. induction l as [|a l IH]; intros Hb; simpl; [done|].
  apply Forall_cons in Hb as [Ha Hb]. specialize (IH Hb).
  destruct Ha as [-> | ->]; simpl; lia.
Qed.

Lemma no_zeros_all_ones (l : list Z) :
  is_bitstring l -> zeros l = O -> l = replicate (length l) 1.
Proof.
  induction l as [|a l IH]; intros Hb Hz; simpl in *; [done|].
  apply Forall_cons in Hb as [Ha Hb].
  destruct Ha as [-> | ->]; simpl in Hz; [done|].
  f_equal. by apply IH.
Qed.

Lemma explorer_OneMax_first_stuck (m : bool) (n : nat) (sol : Solution)
    (g : Rng) (s' : Solution) (g' : Rng) :
  flip_neighbour_explorer sol (OneMax.instance m n) true g = Ret (false, s', g') ->
  zeros (lst sol) = O.
Proof.
  intros (idx & st & g1 & Hp & Hd & Hst & Hc)%explorer_inv.
  pose proof (conclude_draws _ _ _ _ _ _ Hc) as [_ Hb]. simpl in Hb.
  apply zeros_none. intros i Hi.
  eapply (explore_OneMax_first_none _ _ _ _ _ _ Hst); [done| |exact Hi].
  rewrite Hp. apply elem_of_range. by eapply lookup_lt_Some.
Qed.

Lemma explorer_OneMax_first_climb (n : nat) (sol : Solution)
    (g : Rng) (s' : Solution) (g' : Rng) :
  flip_neighbour_explorer sol (OneMax.instance true n) true g
    = Ret (true, s', g') ->
  zeros (lst sol) = S (zeros (lst s')) /\ fitness s' = fitness sol + 1.
Proof.
  intros H. split; [|exact (explorer_OneMax_gain _ _ _ _ _ _ _ _ H)].
  destruct (explorer_OneMax_step n sol true g (explorer_nonempty _ _ _ _ _ H))
    as (b0 & s0 & g0 & H0 & _ & Hb).
  rewrite H in H0. injection H0 as <- <- <-.
  destruct Hb as (i & Hi & ->). by apply zeros_insert.
Qed.

Lemma hc_while_OneMax_first (n : nat) (fuel : nat) :
  forall (b : bool) (s : Solution) (g : Rng) (s' : Solution) (g' : Rng),
    hc_while fuel (OneMax.instance true n) flip_neighbour_explorer true b s g
      = Ret (s', g') ->
    (b = false -> zeros (lst s) = O) ->
    zeros (lst s') = O /\
    fitness s' = fitness s + Z.of_nat (zeros (lst s)).
Proof.
  induction fuel as [|fuel IH]; intros b s g s' g' H Hb; simpl in H.
  - destruct b; [done|]. injection H as <- <-.
    rewrite (Hb eq_refl). split; [done | simpl; lia].
  - destruct b.
    + apply bind_inv in H as ([b1 s1] & g1 & He & H). simpl in H.
      destruct b1.
      * destruct (explorer_OneMax_first_climb _ _ _ _ _ He) as [Hz Hf].
        destruct (IH _ _ _ _ _ H) as [Hz' Hf']; [done|].
        split; [done|]. rewrite Hf', Hf, Hz. lia.
      * pose proof (explorer_OneMax_first_stuck _ _ _ _ _ _ He) as Hz.
        pose proof (explorer_OneMax_gain _ _ _ _ _ _ _ _ He) as Hs.
        simpl in Hs. subst s1.
        destruct (IH _ _ _ _ _ H) as [Hz' Hf']; [done|]. done.
    + injection H as <- <-. rewrite (Hb eq_refl). split; [done | simpl; lia].
Qed.

Definition onemax5 : ProblemInstance := OneMax.instance true 5.
Definition sol_00000 : Solution := mkSolution [0; 0; 0; 0; 0] 0 false None.

(** X11. Hill climbing OneMax (with a [maximize] that returns [True]) in
    first-improvement mode ends at the top: whenever [hc] returns, no
    position of the result holds 0 and the fitness has risen by the
    number of positions that held 0; started from an evaluated 0/1 list
    it returns the all-ones list with fitness equal to its length. *)
Theorem hc_OneMax_first_improvement_reaches_all_ones :
  forall (n fuel : nat) (init_sol : Solution) (g : Rng)
         (s' : Solution) (g' : Rng),
    hc fuel init_sol (OneMax.instance true n) flip_neighbour_explorer true g
      = Ret (s', g') ->
    zeros (lst s') = O /\
    fitness s' = fitness init_sol + Z.of_nat (zeros (lst init_sol)) /\
    (is_bitstring (lst init_sol) ->
     lst s' = replicate (length (lst init_sol)) 1 /\
     (fitness init_sol = total (lst init_sol) ->
      fitness s' = Z.of_nat (length (lst init_sol)))).
Proof.
  intros n fuel s g s' g' H.
  pose proof (hc_shape _ _ _ _ _ _ _ (variant_OneMax true n) H)
    as (Hlen & Hbits & _).
  unfold hc in H. apply bind_inv in H as ([b1 s1] & g1 & He & H). simpl in H.
  assert (Hcore : zeros (lst s') = O /\
                  fitness s' = fitness s + Z.of_nat (zeros (lst s))).
  { destruct b1.
    - destruct (explorer_OneMax_first_climb _ _ _ _ _ He) as [Hz Hf].
      destruct (hc_while_OneMax_first _ _ _ _ _ _ _ H) as [Hz' Hf']; [done|].
      split; [done|]. rewrite Hf', Hf, Hz. lia.
    - pose proof (explorer_OneMax_first_stuck _ _ _ _ _ _ He) as Hz.
      pose proof (explorer_OneMax_gain _ _ _ _ _ _ _ _ He) as Hs.
      simpl in Hs. subst s1.
      by destruct (hc_while_OneMax_first _ _ _ _ _ _ _ H) as [Hz' Hf']. }
  destruct Hcore as [Hz Hf]. split; [done|]. split; [done|].
  intros Hb. split.
  - rewrite <- Hlen. apply no_zeros_all_ones; [by apply Hbits | done].
  - intros He0. rewrite Hf, He0. by apply zeros_total.
Qed.

Lemma hc_OneMax_first_improvement_reaches_all_ones_witness :
  exists s' g',
    hc 10 sol_00000 onemax5 flip_neighbour_explorer true counting
      = Ret (s', g') /\
    lst s' = [1; 1; 1; 1; 1] /\ fitness s' = 5.
Proof.
  destruct (hc 10 sol_00000 onemax5 flip_neighbour_explorer true counting)
    as [[s' g']| |] eqn:E; [|vm_compute in E; discriminate..].
  destruct (hc_OneMax_first_improvement_reaches_all_ones
              5 10 sol_00000 counting s' g' E) as (_ & _ & Hbits).
  destruct Hbits as [Hl Hf]; [solve_bits|].
  exists s', g'. split; [reflexivity|]. split; [exact Hl|].
  apply Hf. reflexivity.
Defined.

(* ===================================================================== *)
(** ** OneMax: committing a delta move *)
(* ===================================================================== *)

Lemma flip10_bit_value (v : Z) : v = 0 \/ v = 1 -> flip10 v = 1 - v.
Proof. by intros [-> | ->]. Qed.

(** X12. Delta evaluation followed by [flip_with_delta] is a sound
    incremental evaluation on OneMax: from an evaluated 0/1 list and a
    valid position, [flip_delta_eval] returns a delta with which
    [flip_with_delta] returns an evaluated 0/1 list (fitness equal to
    the sum of its values, [invalid] cleared) that differs from the
    input at position [i] only, where the bit is inverted. *)
Theorem OneMax_delta_move_keeps_evaluated :
  forall (sol : Solution) (i : nat) (v : Z),
    is_bitstring (lst sol) ->
    fitness sol = total (lst sol) ->
    lst sol !! i = Some v ->
    exists (improved : bool) (delta : Z) (s' : Solution),
      OneMax.flip_delta_eval sol i = Ret (improved, delta) /\
      OneMax.flip_with_delta sol i delta = Ret s' /\
      lst s' = <[i := 1 - v]> (lst sol) /\
      is_bitstring (lst s') /\
      fitness s' = total (lst s') /\
      invalid s' = false.
Proof.
  intros sol i v Hbits Hfit Hv.
  pose proof (is_bitstring_lookup _ _ _ Hbits Hv) as Hbit.
  exists (flip_gain v >? 0), (flip_gain v).
  eexists. unfold OneMax.flip_delta_eval, OneMax.flip_with_delta.
  rewrite (proj2 (getitem_Ret _ _ _) Hv). simpl.
  split; [reflexivity|]. split; [reflexivity|]. simpl.
  rewrite (flip10_bit_value v Hbit).
  split; [done|]. split.
  { apply is_bitstring_insert; [done|]. destruct Hbit as [-> | ->]; auto. }
  split; [|done].
  rewrite (total_insert _ _ _ _ Hv), Hfit.
  destruct Hbit as [-> | ->]; unfold flip_gain; simpl; lia.
Qed.

Lemma OneMax_delta_move_keeps_evaluated_witness :
  exists (improved : bool) (delta : Z) (s' : Solution),
    OneMax.flip_delta_eval sol_01 0 = Ret (improved, delta) /\
    OneMax.flip_with_delta sol_01 0 delta = Ret s' /\
    lst s' = <[0%nat := 1 - 0]> (lst sol_01) /\
    is_bitstring (lst s') /\
    fitness s' = total (lst s') /\
    invalid s' = false.
Proof.
  apply (OneMax_delta_move_keeps_evaluated sol_01 0 0).
  - solve_bits.
  - reflexivity.
  - reflexivity.
Defined.

(** X13. A delta move on OneMax is undone by the delta move at the same
    position: on a 0/1 list, committing the flip at [i] and then
    committing the flip at [i] of the result, each with the delta that
    [flip_delta_eval] reports for it, restores the values and the
    fitness (evaluated or not); the second delta is the opposite of the
    first and exactly one of the two moves is reported as improving. *)
Theorem OneMax_delta_move_round_trip :
  forall (sol : Solution) (i : nat),
    is_bitstring (lst sol) ->
    (i < length (lst sol))%nat ->
    exists (b1 b2 : bool) (d1 d2 : Z) (s1 s2 : Solution),
      OneMax.flip_delta_eval sol i = Ret (b1, d1) /\
      OneMax.flip_with_delta sol i d1 = Ret s1 /\
      OneMax.flip_delta_eval s1 i = Ret (b2, d2) /\
      OneMax.flip_with_delta s1 i d2 = Ret s2 /\
      d2 = - d1 /\ b2 = negb b1 /\
      lst s2 = lst sol /\ fitness s2 = fitness sol.
Proof.
  intros sol i Hbits Hi.
  destruct (lookup_lt_is_Some_2 (lst sol) i Hi) as [v Hv].
  pose proof (is_bitstring_lookup _ _ _ Hbits Hv) as Hbit.
  exists (flip_gain v >? 0), (flip_gain (flip10 v) >? 0),
         (flip_gain v), (flip_gain (flip10 v)).
  eexists. eexists.
  unfold OneMax.flip_delta_eval, OneMax.flip_with_delta.
  rewrite (proj2 (getitem_Ret _ _ _) Hv). simpl.
  split; [reflexivity|]. split; [reflexivity|]. simpl.
  assert (Hv1 : getitem (<[i := flip10 v]> (lst sol)) i = Ret (flip10 v)).
  { apply getitem_Ret. by apply list_lookup_insert_eq. }
  rewrite Hv1. simpl.
  split; [reflexivity|]. split; [reflexivity|]. simpl.
  rewrite list_insert_insert_eq.
  destruct Hbit as [-> | ->]; unfold flip_gain, flip10; simpl;
    (repeat split; [by apply list_insert_id | lia]).
Qed.

Lemma OneMax_delta_move_round_trip_witness :
  exists (b1 b2 : bool) (d1 d2 : Z) (s1 s2 : Solution),
    OneMax.flip_delta_eval sol_01 1 = Ret (b1, d1) /\
    OneMax.flip_with_delta sol_01 1 d1 = Ret s1 /\
    OneMax.flip_delta_eval s1 1 = Ret (b2, d2) /\
    OneMax.flip_with_delta s1 1 d2 = Ret s2 /\
    d2 = - d1 /\ b2 = negb b1 /\
    lst s2 = lst sol_01 /\ fitness s2 = fitness sol_01.
Proof.
  apply (OneMax_delta_move_round_trip sol_01 1).
  - solve_bits.
  - simpl. lia.
Defined.

(* ===================================================================== *)
(** ** Knapsack and NumberPartitioning: what the search returns *)
(* ===================================================================== *)

(** The two classes whose moves end in a full evaluation. *)
Inductive reevaluates : ProblemInstance -> Prop :=
| reevaluates_Knapsack (n : nat) (c : Z) (items : list (list Z)) :
    reevaluates (Knapsack.instance n c items)
| reevaluates_NumberPartitioning (n : nat) (a : list Z) :
    reevaluates (NumberPartitioning.instance n a).

Lemma reevaluates_no_delta (p : ProblemInstance) :
  reevaluates p -> has_flip_delta_eval p = false.
Proof. by intros []. Qed.

Lemma full_eval_evaluated (p : ProblemInstance) (s e : Solution) :
  reevaluates p -> full_eval p s = Ret e -> evaluated p e.
Proof.
  intros [n c items | n a] H; simpl in H.
  - apply KnapsackFacts.knapsack_full_eval_inv in H as (_ & Hl & Hi & Hre).
    split; [done|]. destruct (Hre e Hl) as (e2 & He2 & Hf). simpl. eauto.
  - apply NumberPartitioningFacts.partition_full_eval_inv in H
      as (_ & Hl & Hi & Hre).
    split; [done|]. destruct (Hre e Hl) as (e2 & He2 & Hf). simpl. eauto.
Qed.

Lemma explorer_result_from_full_eval (p : ProblemInstance) (sol : Solution)
    (fi : bool) (g : Rng) (b : bool) (s' : Solution) (g' : Rng) :
  has_flip_delta_eval p = false ->
  flip_neighbour_explorer sol p fi g = Ret (b, s', g') ->
  if b then exists s0, full_eval p s0 = Ret s' else s' = sol.
Proof.
  intros Hnd H.
  destruct (explorer_full_inv p Hnd _ _ _ _ _ _ H) as [_ Hb].
  destruct b; [|by destruct Hb].
  destruct Hb as (i & (l' & _ & He)%obind_inv & _). eauto.
Qed.

Lemma hc_while_from_full_eval (p : ProblemInstance) (fi : bool) (fuel : nat) :
  has_flip_delta_eval p = false ->
  forall (b : bool) (s : Solution) (g : Rng) (s' : Solution) (g' : Rng),
    hc_while fuel p flip_neighbour_explorer fi b s g = Ret (s', g') ->
    s' = s \/ exists s0, full_eval p s0 = Ret s'.
Proof.
  intros Hnd. induction fuel as [|fuel IH]; intros b s g s' g' H; simpl in H.
  - destruct b; [done|]. injection H as <- <-. by left.
  - destruct b; [|injection H as <- <-; by left].
    apply bind_inv in H as ([b1 s1] & g1 & He & H). simpl in H.
    pose proof (explorer_result_from_full_eval _ _ _ _ _ _ _ Hnd He) as Hstep.
    destruct (IH _ _ _ _ _ H) as [-> | Hs]; [|by right].
    destruct b1; [by right | by left].
Qed.

Lemma hc_from_full_eval (p : ProblemInstance) (fuel : nat) (init_sol : Solution)
    (fi : bool) (g : Rng) (s' : Solution) (g' : Rng) :
  has_flip_delta_eval p = false ->
  hc fuel init_sol p flip_neighbour_explorer fi g = Ret (s', g') ->
  s' = init_sol \/ exists s0, full_eval p s0 = Ret s'.
Proof.
  intros Hnd H. unfold hc in H.
  apply bind_inv in H as ([b1 s1] & g1 & He & H). simpl in H.
  pose proof (explorer_result_from_full_eval _ _ _ _ _ _ _ Hnd He) as Hstep.
  destruct (hc_while_from_full_eval p fi fuel Hnd _ _ _ _ _ H) as [-> | Hs];
    [|by right].
  destruct b1; [by right | by left].
Qed.

Lemma hc_evaluated (p : ProblemInstance) (fuel : nat) (init_sol : Solution)
    (fi : bool) (g : Rng) (s' : Solution) (g' : Rng) :
  reevaluates p ->
  hc fuel init_sol p flip_neighbour_explorer fi g = Ret (s', g') ->
  s' = init_sol \/ evaluated p s'.
Proof.
  intros Hr H.
  destruct (hc_from_full_eval p fuel init_sol fi g s' g'
              (reevaluates_no_delta p Hr) H) as [-> | [s0 Hs0]]; [by left|].
  right. by eapply full_eval_evaluated.
Qed.

Lemma two_rnd_flips_evaluated (p : ProblemInstance) (fuel : nat)
    (s : Solution) (g : Rng) (s' : Solution) (g' : Rng) :
  reevaluates p ->
  two_rnd_flips p fuel s g = Ret (s', g') -> evaluated p s'.
Proof.
  intros Hr H. pose proof Hr as Hr0. destruct Hr as [n c items | n a].
  - change (flip_two_then
              (fun l2 => Knapsack.full_eval n c items
                 (mkSolution l2 (fitness s) (invalid s) (weight s)))
              n fuel s g = Ret (s', g')) in H.
    apply flip_two_then_inv in H as (l2 & _ & Hk & _).
    by eapply (full_eval_evaluated _ _ _ Hr0).
  - change (flip_two_then
              (fun l2 => NumberPartitioning.full_eval n a
                 (mkSolution l2 (fitness s) (invalid s) (weight s)))
              n fuel s g = Ret (s', g')) in H.
    apply flip_two_then_inv in H as (l2 & _ & Hk & _).
    by eapply (full_eval_evaluated _ _ _ Hr0).
Qed.

Lemma ils_while_evaluated (p : ProblemInstance) (budget : Z) (fi : bool)
    (inner fuel : nat) :
  reevaluates p ->
  forall (best : Solution) (cnt : Z) (log : trajectory) (g : Rng)
         (best' : Solution) (log' : trajectory) (g' : Rng),
    ils_while fuel inner p hc flip_neighbour_explorer budget fi best cnt log g
      = Ret (best', log', g') ->
    evaluated p best ->
    exists more,
      log' = log ++ more /\ evaluated p best' /\
      forall b lo, (b, lo) ∈ more -> evaluated p b /\ evaluated p lo.
Proof.
  intros Hr.
  induction fuel as [|fuel IH]; intros best cnt log g best' log' g' H Hev;
    simpl in H; destruct (cnt <? budget) eqn:E; try done.
  - injection H as <- <- <-. exists []. rewrite app_nil_r.
    split; [done|]. split; [done|]. intros b lo Hin. inversion Hin.
  - apply bind_inv in H as ([[best1 cnt1] log1] & g1 & Hb & H).
    apply ils_body_inv in Hb as (s & g0 & lo & Hs & Hlo & -> & -> & ->).
    pose proof (two_rnd_flips_evaluated _ _ _ _ _ _ Hr Hs) as Hevs.
    assert (Hevlo : evaluated p lo).
    { destruct (hc_evaluated _ _ _ _ _ _ _ Hr Hlo) as [-> | Hl]; done. }
    assert (Hev1 : evaluated p (accepted p best lo)).
    { unfold accepted. by destruct (better_or_equal _ _ _). }
    apply IH in H as (more & -> & Hbest' & Hall); [|done].
    exists ((best, lo) :: more). rewrite <- app_assoc. simpl.
    split; [done|]. split; [done|].
    intros b l [[= -> ->] | Hin]%elem_of_cons; [done | by apply Hall].
  - injection H as <- <- <-. exists []. rewrite app_nil_r.
    split; [done|]. split; [done|]. intros b lo Hin. inversion Hin.
Qed.

Lemma ils_evaluated (p : ProblemInstance) (fuel : nat) (sol : Solution)
    (budget : Z) (fi : bool) (g : Rng)
    (best : Solution) (log : trajectory) (g' : Rng) :
  reevaluates p ->
  evaluated p sol ->
  ils fuel sol p hc flip_neighbour_explorer budget fi g = Ret (best, log, g') ->
  evaluated p best /\
  forall b lo, (b, lo) ∈ log -> evaluated p b /\ evaluated p lo.
Proof.
  intros Hr Hev H. unfold ils in H.
  apply bind_inv in H as (lo0 & g0 & Hls & H).
  assert (Hev0 : evaluated p (deepcopy lo0)).
  { unfold deepcopy.
    destruct (hc_evaluated _ _ _ _ _ _ _ Hr Hls) as [-> | Hl]; done. }
  apply (ils_while_evaluated p budget fi fuel fuel Hr) in H
    as (more & -> & Hbest & Hall); [|done].
  done.
Qed.

(** X14. On Knapsack and NumberPartitioning the search keeps solutions
    evaluated: what [hc] returns is its input or an evaluated solution
    ([invalid] cleared and a fitness that [full_eval] reproduces); and
    when [ils] is started from an evaluated solution, the solution it
    returns and every solution on every line of its log are
    evaluated. *)
Theorem search_keeps_solutions_evaluated :
  forall (p : ProblemInstance) (fuel : nat) (sol : Solution)
         (non_impr_iters : Z) (fi : bool) (g : Rng),
    reevaluates p ->
    (forall s' g',
       hc fuel sol p flip_neighbour_explorer fi g = Ret (s', g') ->
       s' = sol \/ evaluated p s') /\
    (forall best log g',
       evaluated p sol ->
       ils fuel sol p hc flip_neighbour_explorer non_impr_iters fi g
         = Ret (best, log, g') ->
       evaluated p best /\
       forall b lo, (b, lo) ∈ log -> evaluated p b /\ evaluated p lo).
Proof.
  intros p fuel sol budget fi g Hr. split.
  - intros s' g'. by apply hc_evaluated.
  - intros best log g' Hev H. by eapply ils_evaluated.
Qed.

Lemma search_keeps_solutions_evaluated_witness :
  exists best log g',
    ils_sample counting = Ret (best, log, g') /\
    evaluated npp4 best /\
    forall b lo, (b, lo) ∈ log -> evaluated npp4 b /\ evaluated npp4 lo.
Proof.
  destruct (ils_sample counting) as [[[best log] g']| |] eqn:E;
    [|vm_compute in E; discriminate..].
  exists best, log, g'. split; [reflexivity|].
  destruct (search_keeps_solutions_evaluated npp4 10 sol_0000 3 true counting
              (reevaluates_NumberPartitioning _ _)) as [_ Hils].
  apply (Hils best log g'); [|exact E].
  split; [reflexivity|]. eexists. split; [reflexivity|]. reflexivity.
Defined.

(** X15. Hill climbing never moves to an overweight knapsack: started
    from a solution of non-negative fitness, [hc] on a Knapsack instance
    returns its input or a solution that [full_eval] produced, whose
    stored [weight] is the weight [Knapsack.weight] computes for it and
    is within the capacity. *)
Theorem Knapsack_hc_returns_feasible :
  forall (n : nat) (c : Z) (items : list (list Z)) (fuel : nat)
         (init_sol : Solution) (fi : bool) (g : Rng)
         (s' : Solution) (g' : Rng),
    0 <= fitness init_sol ->
    hc fuel init_sol (Knapsack.instance n c items) flip_neighbour_explorer fi g
      = Ret (s', g') ->
    s' = init_sol \/
    exists w, weight s' = Some w /\ Knapsack.weight items s' = Ret w /\
              w <= c /\ fitness init_sol < fitness s'.
Proof.
  intros n c items fuel s fi g s' g' Hpos H.
  destruct (hc_from_full_eval (Knapsack.instance n c items) _ _ _ _ _ _
              eq_refl H) as [-> | [s0 Hs0]]; [by left|].
  destruct (hc_strict _ _ _ _ _ _ _
              (covered_full_eval (Knapsack.instance n c items) eq_refl) H)
    as [-> | Hsb]; [by left|].
  right. unfold strictly_better in Hsb. simpl in Hsb.
  simpl in Hs0. unfold Knapsack.full_eval in Hs0.
  destruct (negb (length (lst s0) =? n)%nat); [done|].
  apply obind_inv in Hs0 as (w & Hw & Hs0).
  apply obind_inv in Hs0 as (f & Hf & [= <-]).
  simpl in *. exists w. unfold Knapsack.weight. simpl.
  split; [done|]. split; [done|].
  destruct (w >? c) eqn:Ew; [|split; lia].
  injection Hf as <-. lia.
Qed.

Lemma Knapsack_hc_returns_feasible_witness :
  exists s' g',
    hc 10 sol_000 kn3 flip_neighbour_explorer false counting = Ret (s', g') /\
    (s' = sol_000 \/
     exists w, weight s' = Some w /\
       Knapsack.weight [[1; 4; 5]; [2; 6; 6]; [3; 3; 4]] s' = Ret w /\
       w <= 10 /\ fitness sol_000 < fitness s').
Proof.
  destruct (hc 10 sol_000 kn3 flip_neighbour_explorer false counting)
    as [[s' g']| |] eqn:E; [|vm_compute in E; discriminate..].
  exists s', g'. split; [reflexivity|].
  apply (Knapsack_hc_returns_feasible 3 10 [[1; 4; 5]; [2; 6; 6]; [3; 3; 4]]
           10 sol_000 false counting s' g'); [simpl; lia | exact E].
Defined.

(* ===================================================================== *)
(** ** NumberPartitioning: the two sides of a partition *)
(* ===================================================================== *)

(** The partition with the two sides exchanged. *)
Definition complement (l : list Z) : list Z := (fun v => 1 - v) <$> l.

Lemma pure_sum_add (h1 h2 : nat -> Z) (idx : list nat) :
  pure_sum h1 idx + pure_sum h2 idx = pure_sum (fun i => h1 i + h2 i) idx.
Proof.
  induction idx as [|i idx IH]; simpl; [done|]. rewrite <- IH. lia.
Qed.

Lemma pure_sum_nonneg (h : nat -> Z) (idx : list nat) :
  (forall i, i ∈ idx -> 0 <= h i) -> 0 <= pure_sum h idx.
Proof.
  induction idx as [|i idx IH]; intros H; simpl; [lia|].
  assert (0 <= h i) by (apply H; by left).
  assert (0 <= pure_sum h idx) by (apply IH; intros k Hk; apply H; by right).
  lia.
Qed.

Lemma pure_sum_seq_shift (h : nat -> Z) (k : nat) :
  forall s, pure_sum h (seq (S s) k) = pure_sum (fun i => h (S i)) (seq s k).
Proof.
  induction k as [|k IH]; intros s; simpl; [done|]. by rewrite IH.
Qed.

Lemma pure_sum_nth_total (a : list Z) :
  pure_sum (fun i => nth i a 0) (range (length a)) = total a.
Proof.
  unfold range, total. induction a as [|x a IH]; simpl; [done|].
  rewrite pure_sum_seq_shift. simpl. by rewrite IH.
Qed.

Lemma side_complement (a l : list Z) (b : Z) :
  is_bitstring l -> b = 0 \/ b = 1 ->
  NumberPartitioningFacts.side a b (complement l)
    = NumberPartitioningFacts.side a (1 - b) l.
Proof.
  intros Hbits Hb. unfold NumberPartitioningFacts.side, complement.
  rewrite length_fmap. apply pure_sum_ext. intros i Hi%elem_of_range.
  destruct (lookup_lt_is_Some_2 l i Hi) as [x Hx].
  rewrite (nth_lookup_Some _ _ 0 x Hx).
  rewrite (nth_lookup_Some _ _ 0 (1 - x))
    by (by rewrite list_lookup_fmap, Hx).
  destruct (is_bitstring_lookup _ _ _ Hbits Hx) as [-> | ->],
           Hb as [-> | ->]; reflexivity.
Qed.

Lemma sides_sum (a l : list Z) :
  is_bitstring l ->
  NumberPartitioningFacts.side a 0 l + NumberPartitioningFacts.side a 1 l
    = pure_sum (fun i => nth i a 0) (range (length l)).
Proof.
  intros Hbits. unfold NumberPartitioningFacts.side.
  rewrite pure_sum_add. apply pure_sum_ext. intros i Hi%elem_of_range.
  destruct (lookup_lt_is_Some_2 l i Hi) as [x Hx].
  rewrite (nth_lookup_Some _ _ 0 x Hx).
  destruct (is_bitstring_lookup _ _ _ Hbits Hx) as [-> | ->]; simpl; lia.
Qed.

Lemma side_nonneg (a l : list Z) (b : Z) :
  (forall x, x ∈ a -> 0 <= x) ->
  0 <= NumberPartitioningFacts.side a b l.
Proof.
  intros Ha. unfold NumberPartitioningFacts.side.
  apply pure_sum_nonneg. intros i _.
  destruct (nth i l 0 =? b); [|lia].
  destruct (lt_dec i (length a)) as [Hi|Hi].
  - destruct (lookup_lt_is_Some_2 a i Hi) as [y Hy].
    rewrite (nth_lookup_Some _ _ 0 y Hy). apply Ha.
    apply list_elem_of_lookup. eauto.
  - rewrite nth_overflow by lia. lia.
Qed.

(** X16. The fitness of a partition does not depend on which side is
    called 0 and which 1: for a 0/1 list of the right length,
    [NumberPartitioning.full_eval] gives the list and its complement
    (every bit inverted) the same fitness. *)
Theorem NumberPartitioning_complement_symmetry :
  forall (n : nat) (a : list Z) (sol : Solution),
    NumberPartitioningFacts.a_ok n a ->
    length (lst sol) = n ->
    is_bitstring (lst sol) ->
    exists e e',
      NumberPartitioning.full_eval n a sol = Ret e /\
      NumberPartitioning.full_eval n a
        (mkSolution (complement (lst sol)) (fitness sol) (invalid sol)
           (weight sol)) = Ret e' /\
      lst e' = complement (lst e) /\
      fitness e' = fitness e.
Proof.
  intros n a sol Hok Hlen Hbits.
  do 2 eexists.
  split; [by apply NumberPartitioningFacts.partition_full_eval_ok|].
  split.
  { apply NumberPartitioningFacts.partition_full_eval_ok; [done|].
    simpl. unfold complement. by rewrite length_fmap. }
  simpl. split; [done|].
  unfold NumberPartitioningFacts.objective.
  rewrite !side_complement by auto.
  change (1 - 0) with 1. change (1 - 1) with 0. cbv zeta.
  destruct (NumberPartitioningFacts.side a 1 (lst sol)
            >? NumberPartitioningFacts.side a 0 (lst sol)) eqn:E1,
           (NumberPartitioningFacts.side a 0 (lst sol)
            >? NumberPartitioningFacts.side a 1 (lst sol)) eqn:E2; lia.
Qed.

Lemma NumberPartitioning_complement_symmetry_witness :
  exists e e',
    NumberPartitioning.full_eval 4 [5; 3; 7; 4] sol_0110 = Ret e /\
    NumberPartitioning.full_eval 4 [5; 3; 7; 4]
      (mkSolution (complement (lst sol_0110)) (fitness sol_0110)
         (invalid sol_0110) (weight sol_0110)) = Ret e' /\
    lst e' = complement (lst e) /\
    fitness e' = fitness e.
Proof.
  apply (NumberPartitioning_complement_symmetry 4 [5; 3; 7; 4] sol_0110).
  - unfold NumberPartitioningFacts.a_ok. simpl. lia.
  - reflexivity.
  - solve_bits.
Defined.

(** X17. The fitness [NumberPartitioning.full_eval] gives a 0/1 list is
    the absolute difference of two sums that add up to the sum of all
    the numbers: it is never negative, it has the parity of that sum
    (so no partition of numbers with an odd sum has fitness 0), and
    when no number is negative it is at most that sum. *)
Theorem NumberPartitioning_fitness_parity_and_bounds :
  forall (n : nat) (a : list Z) (sol : Solution),
    length a = n ->
    length (lst sol) = n ->
    is_bitstring (lst sol) ->
    exists e cost1 cost2,
      NumberPartitioning.full_eval n a sol = Ret e /\
      cost1 + cost2 = total a /\
      fitness e = Z.abs (cost1 - cost2) /\
      0 <= fitness e /\
      Z.even (fitness e) = Z.even (total a) /\
      (Z.odd (total a) = true -> 1 <= fitness e) /\
      ((forall x, x ∈ a -> 0 <= x) -> fitness e <= total a).
Proof.
  intros n a sol Ha Hlen Hbits.
  exists (mkSolution (lst sol) (NumberPartitioningFacts.objective a (lst sol))
            false (weight sol)),
         (NumberPartitioningFacts.side a 0 (lst sol)),
         (NumberPartitioningFacts.side a 1 (lst sol)).
  assert (Hsum : NumberPartitioningFacts.side a 0 (lst sol)
                 + NumberPartitioningFacts.side a 1 (lst sol) = total a).
  { rewrite (sides_sum a _ Hbits), Hlen, <- Ha. apply pure_sum_nth_total. }
  split.
  { apply NumberPartitioningFacts.partition_full_eval_ok; [|done].
    unfold NumberPartitioningFacts.a_ok. lia. }
  split; [done|]. simpl.
  set (c1 := NumberPartitioningFacts.side a 0 (lst sol)) in *.
  set (c2 := NumberPartitioningFacts.side a 1 (lst sol)) in *.
  assert (Hobj : NumberPartitioningFacts.objective a (lst sol)
                 = Z.abs (c1 - c2)).
  { unfold NumberPartitioningFacts.objective. fold c1 c2. simpl.
    destruct (c1 >? c2) eqn:E; lia. }
  rewrite Hobj.
  assert (Heven : Z.even (Z.abs (c1 - c2)) = Z.even (total a)).
  { rewrite <- Hsum.
    destruct (Z.abs_eq_or_opp (c1 - c2)) as [-> | ->];
      rewrite ?Z.even_opp, Z.even_sub, Z.even_add; done. }
  split; [done|]. split; [lia|]. split; [done|]. split.
  - intros Hodd. rewrite <- Z.negb_even, <- Heven in Hodd.
    destruct (Z.eq_dec (Z.abs (c1 - c2)) 0) as [E|E]; [|lia].
    rewrite E in Hodd. done.
  - intros Hpos.
    assert (0 <= c1) by (by apply side_nonneg).
    assert (0 <= c2) by (by apply side_nonneg).
    lia.
Qed.

Lemma NumberPartitioning_fitness_parity_and_bounds_witness :
  exists e cost1 cost2,
    NumberPartitioning.full_eval 4 [5; 3; 7; 4] sol_0110 = Ret e /\
    cost1 + cost2 = total [5; 3; 7; 4] /\
    fitness e = Z.abs (cost1 - cost2) /\
    0 <= fitness e /\
    Z.even (fitness e) = Z.even (total [5; 3; 7; 4]) /\
    (Z.odd (total [5; 3; 7; 4]) = true -> 1 <= fitness e) /\
    ((forall x, x ∈ [5; 3; 7; 4] -> 0 <= x) -> fitness e <= total [5; 3; 7; 4]).
Proof.
  apply (NumberPartitioning_fitness_parity_and_bounds 4 [5; 3; 7; 4] sol_0110).
  - reflexivity.
  - reflexivity.
  - solve_bits.
Defined.

(* ===================================================================== *)
(** ** Creating and initialising solutions *)
(* ===================================================================== *)

(** [Solution()], with the defaults of [__init__]. *)
Definition Solution_new : Solution := mkSolution [] 0 false None.

(** [[random.randint(0, 1) for i in range(n)]] *)
Fixpoint rnd_bitstring (n : nat) : M (list Z) :=
  match n with
  | O => ret []
  | S n' =>
      b <- randint0 2 ;;
      rest <- rnd_bitstring n' ;;
      ret (Z.of_nat b :: rest)
  end.

(** [Solution.init_rnd_bitstring] *)
Definition init_rnd_bitstring (self : Solution) (n : nat) : M Solution :=
  l <- rnd_bitstring n ;;
  ret (mkSolution l (fitness self) true (weight self)).

(** [Solution.init_rnd_permutation] *)
Definition init_rnd_permutation (self : Solution) (n : nat) : M Solution :=
  l <- shuffle (range n) ;;
  ret (mkSolution (Z.of_nat <$> l) (fitness self) true (weight self)).

(** The bits the next [n] draws give. *)
Definition drawn_bits (g : Rng) (n : nat) : list Z :=
  (fun k => Z.of_nat (draws g (pos g + k) mod 2)%nat) <$> seq 0 n.

Lemma rnd_bitstring_drawn (n : nat) :
  forall g : Rng,
    rnd_bitstring n g
      = Ret (drawn_bits g n, mkRng (draws g) (pos g + n)).
Proof.
  induction n as [|n IH]; intros g.
  - simpl. unfold ret, drawn_bits. simpl. rewrite Nat.add_0_r. by destruct g.
  - cbn [rnd_bitstring]. unfold bind.
    rewrite (randint0_pos 2 g) by lia. rewrite IH. unfold ret.
    f_equal. f_equal.
    + unfold drawn_bits. cbn [seq fmap list_fmap]. rewrite Nat.add_0_r.
      f_equal. rewrite <- fmap_S_seq, <- list_fmap_compose.
      apply list_fmap_ext. intros i k _. simpl.
      by replace (S (pos g + k))%nat with (pos g + S k)%nat by lia.
    + simpl. f_equal. lia.
Qed.

Lemma drawn_bits_bitstring (g : Rng) (n : nat) : is_bitstring (drawn_bits g n).
Proof.
  unfold is_bitstring, drawn_bits. apply Forall_fmap, Forall_forall.
  intros k _. simpl.
  assert (H : (draws g (pos g + k) mod 2 < 2)%nat)
    by (apply Nat.mod_upper_bound; lia).
  lia.
Qed.

Lemma init_rnd_bitstring_returns (self : Solution) (n : nat) (g : Rng) :
  exists s g',
    init_rnd_bitstring self n g = Ret (s, g') /\
    length (lst s) = n /\ is_bitstring (lst s) /\
    invalid s = true /\ fitness s = fitness self /\
    draws g' = draws g /\ pos g' = (pos g + n)%nat.
Proof.
  eexists. eexists. unfold init_rnd_bitstring, bind.
  rewrite rnd_bitstring_drawn. unfold ret. split; [reflexivity|]. simpl.
  split; [unfold drawn_bits; by rewrite length_fmap, length_seq|].
  split; [apply drawn_bits_bitstring|]. done.
Qed.

(** X18. [init_rnd_bitstring(n)] always returns: the values become a 0/1
    list of length [n], [invalid] is set, the fitness is left as it was
    (stale), and exactly [n] draws are consumed. Every 0/1 list can come
    out: for each one there is a generator that produces it. *)
Theorem init_rnd_bitstring_gives_bitstring :
  forall (self : Solution) (n : nat),
    (forall g : Rng,
       exists s g',
         init_rnd_bitstring self n g = Ret (s, g') /\
         length (lst s) = n /\ is_bitstring (lst s) /\
         invalid s = true /\ fitness s = fitness self /\
         draws g' = draws g /\ pos g' = (pos g + n)%nat) /\
    (forall l : list Z,
       is_bitstring l -> length l = n ->
       exists g s g',
         init_rnd_bitstring self n g = Ret (s, g') /\ lst s = l).
Proof.
  intros self n. split.
  - intros g. apply init_rnd_bitstring_returns.
  - intros l Hbits Hlen.
    exists (mkRng (fun k => Z.to_nat (nth k l 0)) 0).
    eexists. eexists. unfold init_rnd_bitstring, bind.
    rewrite rnd_bitstring_drawn. unfold ret. split; [reflexivity|]. simpl.
    apply list_eq. intros i. unfold drawn_bits. simpl.
    rewrite list_lookup_fmap.
    destruct (lt_dec i n) as [Hi|Hi].
    + rewrite lookup_seq_lt by done. simpl.
      destruct (lookup_lt_is_Some_2 l i ltac:(lia)) as [x Hx].
      rewrite Hx, (nth_lookup_Some _ _ 0 x Hx). f_equal.
      by destruct (is_bitstring_lookup _ _ _ Hbits Hx) as [-> | ->].
    + rewrite lookup_seq_ge by lia. simpl.
      symmetry. apply lookup_ge_None. lia.
Qed.

(** X19. [init_rnd_permutation(n)] always returns: the values become a
    permutation of [0, 1, ..., n - 1] (each of them exactly once),
    [invalid] is set and the fitness is left as it was. *)
Theorem init_rnd_permutation_gives_permutation :
  forall (self : Solution) (n : nat) (g : Rng),
    exists s g',
      init_rnd_permutation self n g = Ret (s, g') /\
      lst s ≡ₚ (Z.of_nat <$> range n) /\
      NoDup (lst s) /\ length (lst s) = n /\
      (forall v, v ∈ lst s <-> 0 <= v < Z.of_nat n) /\
      invalid s = true /\ fitness s = fitness self /\
      draws g' = draws g.
Proof.
  intros self n g. unfold init_rnd_permutation, shuffle, bind.
  destruct (shuffle_from_Permutation (length (range n) - 1) (range n) g)
    as (l & g' & H & Hp & Hd).
  rewrite H. unfold ret. eexists. eexists. split; [reflexivity|]. simpl.
  assert (Hperm : (Z.of_nat <$> l) ≡ₚ (Z.of_nat <$> range n))
    by (by rewrite Hp).
  split; [done|].
  split.
  { rewrite Hperm. apply NoDup_fmap; [apply Nat2Z.inj'|].
    unfold range. apply NoDup_seq. }
  split.
  { rewrite length_fmap, Hp. unfold range. apply length_seq. }
  split; [|done].
  intros v. rewrite Hperm, list_elem_of_fmap. split.
  - intros (k & -> & Hk%elem_of_range). lia.
  - intros Hv. exists (Z.to_nat v). split; [lia|]. apply elem_of_range. lia.
Qed.

Lemma init_rnd_bitstring_gives_bitstring_witness :
  exists g s g',
    init_rnd_bitstring Solution_new 3 g = Ret (s, g') /\ lst s = [0; 1; 1].
Proof.
  apply (proj2 (init_rnd_bitstring_gives_bitstring Solution_new 3)).
  - solve_bits.
  - reflexivity.
Defined.

(* ===================================================================== *)
(** ** Invariants of the whole search *)
(* ===================================================================== *)

(** Whatever the perturbation and the hill climber preserve holds of the
    result of the driver and of every solution in its log. *)
Section DriverInvariant.

Variable p : ProblemInstance.
Variable Q : Solution -> Prop.

Hypothesis perturb_keeps :
  forall fuel s g s' g',
    Q s -> two_rnd_flips p fuel s g = Ret (s', g') -> Q s'.
Hypothesis climb_keeps :
  forall fuel s fi g s' g',
    Q s -> hc fuel s p flip_neighbour_explorer fi g = Ret (s', g') -> Q s'.

Lemma ils_while_keeps (budget : Z) (fi : bool) (inner fuel : nat) :
  forall (best : Solution) (cnt : Z) (log : trajectory) (g : Rng)
         (best' : Solution) (log' : trajectory) (g' : Rng),
    ils_while fuel inner p hc flip_neighbour_explorer budget fi best cnt log g
      = Ret (best', log', g') ->
    Q best ->
    exists more,
      log' = log ++ more /\ Q best' /\
      forall b lo, (b, lo) ∈ more -> Q b /\ Q lo.
Proof.
  induction fuel as [|fuel IH]; intros best cnt log g best' log' g' H Hq;
    simpl in H; destruct (cnt <? budget) eqn:E; try done.
  - injection H as <- <- <-. exists []. rewrite app_nil_r.
    split; [done|]. split; [done|]. intros b lo Hin. inversion Hin.
  - apply bind_inv in H as ([[best1 cnt1] log1] & g1 & Hb & H).
    apply ils_body_inv in Hb as (s & g0 & lo & Hs & Hlo & -> & -> & ->).
    pose proof (perturb_keeps _ _ _ _ _ Hq Hs) as Hqs.
    pose proof (climb_keeps _ _ _ _ _ _ Hqs Hlo) as Hqlo.
    assert (Hq1 : Q (accepted p best lo)).
    { unfold accepted. by destruct (better_or_equal _ _ _). }
    apply IH in H as (more & -> & Hbest' & Hall); [|done].
    exists ((best, lo) :: more). rewrite <- app_assoc. simpl.
    split; [done|]. split; [done|].
    intros b l [[= -> ->] | Hin]%elem_of_cons; [done | by apply Hall].
  - injection H as <- <- <-. exists []. rewrite app_nil_r.
    split; [done|]. split; [done|]. intros b lo Hin. inversion Hin.
Qed.

Lemma ils_keeps (fuel : nat) (sol : Solution) (budget : Z) (fi : bool)
    (g : Rng) (best : Solution) (log : trajectory) (g' : Rng) :
  Q sol ->
  ils fuel sol p hc flip_neighbour_explorer budget fi g = Ret (best, log, g') ->
  Q best /\ forall b lo, (b, lo) ∈ log -> Q b /\ Q lo.
Proof.
  intros Hq H. unfold ils in H.
  apply bind_inv in H as (lo0 & g0 & Hls & H).
  pose proof (climb_keeps _ _ _ _ _ _ Hq Hls) as Hq0.
  apply ils_while_keeps in H as (more & -> & Hbest & Hall); [|done].
  done.
Qed.

End DriverInvariant.

Lemma flipped_twice_bitstring (l l' : list Z) :
  flipped_twice l l' -> is_bitstring l -> is_bitstring l'.
Proof.
  intros (i & j & vi & vj & _ & _ & _ & ->) Hb.
  apply is_bitstring_insert; [|apply flip01_bit].
  apply is_bitstring_insert; [done | apply flip01_bit].
Qed.

Lemma two_rnd_flips_shape (p : ProblemInstance) (fuel : nat) (s : Solution)
    (g : Rng) (s' : Solution) (g' : Rng) :
  variant p ->
  two_rnd_flips p fuel s g = Ret (s', g') ->
  flipped_twice (lst s) (lst s') /\ invalid s' = false.
Proof.
  intros [n c items | n a | m n] H.
  - change (flip_two_then
              (fun l2 => Knapsack.full_eval n c items
                 (mkSolution l2 (fitness s) (invalid s) (weight s)))
              n fuel s g = Ret (s', g')) in H.
    apply flip_two_then_inv in H as (l2 & Hft & Hk & _).
    apply KnapsackFacts.knapsack_full_eval_inv in Hk as (_ & Hl & Hi & _).
    simpl in Hl. by rewrite Hl.
  - change (flip_two_then
              (fun l2 => NumberPartitioning.full_eval n a
                 (mkSolution l2 (fitness s) (invalid s) (weight s)))
              n fuel s g = Ret (s', g')) in H.
    apply flip_two_then_inv in H as (l2 & Hft & Hk & _).
    apply NumberPartitioningFacts.partition_full_eval_inv in Hk
      as (_ & Hl & Hi & _).
    simpl in Hl. by rewrite Hl.
  - simpl in H. apply OneMax_two_rnd_flips_inv in H
      as (i & j & vi & vj & Hne & Hvi & Hvj & -> & _).
    split; [by exists i, j, vi, vj | done].
Qed.

Lemma ils_shape (p : ProblemInstance) (fuel : nat) (sol : Solution)
    (budget : Z) (fi : bool) (g : Rng)
    (best : Solution) (log : trajectory) (g' : Rng) :
  variant p ->
  ils fuel sol p hc flip_neighbour_explorer budget fi g = Ret (best, log, g') ->
  let same_shape s :=
    length (lst s) = length (lst sol) /\
    (is_bitstring (lst sol) -> is_bitstring (lst s)) in
  same_shape best /\ forall b lo, (b, lo) ∈ log -> same_shape b /\ same_shape lo.
Proof.
  intros Hv H same_shape.
  apply (ils_keeps p same_shape) with (fuel := fuel) (sol := sol)
    (budget := budget) (fi := fi) (g := g) (g' := g'); [| |done|done].
  - intros f s g1 s' g1' [Hl Hb] Hs.
    destruct (two_rnd_flips_shape _ _ _ _ _ _ Hv Hs) as [Hft _].
    split; [rewrite <- Hl; by apply flipped_twice_length|].
    intros Hbits. eapply flipped_twice_bitstring; [exact Hft | by apply Hb].
  - intros f s fi1 g1 s' g1' [Hl Hb] Hs.
    destruct (hc_shape _ _ _ _ _ _ _ Hv Hs) as (Hl' & Hb' & _).
    split; [congruence|]. intros Hbits. by apply Hb', Hb.
Qed.

(** X20. On each of the three problem classes, every solution the driver
    handles keeps the shape of the initial solution: the solution [ils]
    returns and both solutions of every line of its log have the length
    of the initial solution, and are 0/1 lists when the initial solution
    is one. *)
Theorem ils_preserves_shape :
  forall (p : ProblemInstance) (fuel : nat) (sol : Solution)
         (non_impr_iters : Z) (fi : bool) (g : Rng)
         (best : Solution) (log : trajectory) (g' : Rng),
    variant p ->
    ils fuel sol p hc flip_neighbour_explorer non_impr_iters fi g
      = Ret (best, log, g') ->
    (length (lst best) = length (lst sol) /\
     (is_bitstring (lst sol) -> is_bitstring (lst best))) /\
    (forall b lo, (b, lo) ∈ log ->
       (length (lst b) = length (lst sol) /\
        (is_bitstring (lst sol) -> is_bitstring (lst b))) /\
       (length (lst lo) = length (lst sol) /\
        (is_bitstring (lst sol) -> is_bitstring (lst lo)))).
Proof.
  intros p fuel sol budget fi g best log g' Hv H.
  exact (ils_shape p fuel sol budget fi g best log g' Hv H).
Qed.

Lemma ils_preserves_shape_witness :
  exists best log g',
    ils_sample counting = Ret (best, log, g') /\
    length (lst best) = length (lst sol_0000) /\
    (is_bitstring (lst sol_0000) -> is_bitstring (lst best)).
Proof.
  destruct (ils_sample counting) as [[[best log] g']| |] eqn:E;
    [|vm_compute in E; discriminate..].
  exists best, log, g'. split; [reflexivity|].
  exact (proj1 (ils_preserves_shape npp4 10 sol_0000 3 true counting
                  best log g' (variant_NumberPartitioning _ _) E)).
Defined.

(* ===================================================================== *)
(** ** One run of the batch driver *)
(* ===================================================================== *)

(** The body of the loop of [main] for one run, lines 214 to 219: a fresh
    solution, a random bitstring of the dimension [n] of the instance, a
    full evaluation, then [ils] with [hc], the flip explorer and the
    default first-improvement mode. *)
Definition run (fuel n : nat) (instance : ProblemInstance) (non_impr_iters : Z)
  : M (Solution * trajectory) :=
  let s := Solution_new in
  s <- init_rnd_bitstring s n ;;
  s <- lift (full_eval instance s) ;;
  ils fuel s instance hc flip_neighbour_explorer non_impr_iters true.

(** X21. One run of [main] on a NumberPartitioning instance of dimension
    [n >= 2] (with its [n] numbers) returns under every fair generator,
    given enough fuel: the random initial solution passes the dimension
    check of [full_eval], the search ends after exactly
    [max(non_impr_iters, 0)] logged jumps, and the solution returned is
    an evaluated 0/1 list of length [n]. *)
Theorem run_NumberPartitioning_returns_evaluated_bitstring :
  forall (n : nat) (a : list Z) (non_impr_iters : Z) (g : Rng),
    length a = n ->
    (2 <= n)%nat ->
    fair n g ->
    exists fuel best log g',
      run fuel n (NumberPartitioning.instance n a) non_impr_iters g
        = Ret (best, log, g') /\
      length log = Z.to_nat non_impr_iters /\
      evaluated (NumberPartitioning.instance n a) best /\
      length (lst best) = n /\ is_bitstring (lst best).
Proof.
  intros n a budget g Ha Hn Hfair.
  destruct (init_rnd_bitstring_returns Solution_new n g)
    as (s0 & g0 & Hinit & Hlen0 & Hbits0 & _ & _ & Hd0 & _).
  assert (Hok : NumberPartitioningFacts.a_ok n a)
    by (unfold NumberPartitioningFacts.a_ok; lia).
  pose proof (NumberPartitioningFacts.partition_full_eval_ok n a s0 Hok Hlen0)
    as Hfe.
  set (s1 := mkSolution (lst s0)
               (NumberPartitioningFacts.objective a (lst s0)) false
               (weight s0)) in *.
  destruct (NumberPartitioning_ils_terminates n a s1 budget true g0)
    as (fuel & best & log & g' & Hils & Hlog); [done | done | done | |].
  { by eapply fair_draws. }
  exists fuel, best, log, g'. split.
  { unfold run, bind. rewrite Hinit. unfold lift.
    change (full_eval (NumberPartitioning.instance n a) s0)
      with (NumberPartitioning.full_eval n a s0).
    rewrite Hfe. exact Hils. }
  split; [done|].
  assert (Hev1 : evaluated (NumberPartitioning.instance n a) s1).
  { eapply (full_eval_evaluated _ s0); [constructor | exact Hfe]. }
  destruct (ils_evaluated _ _ _ _ _ _ _ _ _
              (reevaluates_NumberPartitioning n a) Hev1 Hils) as [Hev _].
  split; [done|].
  destruct (ils_shape _ _ _ _ _ _ _ _ _ (variant_NumberPartitioning n a) Hils)
    as [[Hl Hb] _].
  split; [by rewrite Hl | by apply Hb].
Qed.

Lemma run_NumberPartitioning_returns_evaluated_bitstring_witness :
  exists fuel best log g',
    run fuel 4 npp4 3 counting = Ret (best, log, g') /\
    length log = Z.to_nat 3 /\
    evaluated npp4 best /\
    length (lst best) = 4%nat /\ is_bitstring (lst best).
Proof.
  apply (run_NumberPartitioning_returns_evaluated_bitstring
           4 [5; 3; 7; 4] 3 counting).
  - reflexivity.
  - lia.
  - apply counting_fair. lia.
Defined.

(* ===================================================================== *)
(** ** The options of the batch driver *)
(* ===================================================================== *)

Module Main.

Local Open Scope string_scope.

(** The whitespace [int] strips: the ASCII characters for which
    [str.isspace] holds. *)
Definition is_space (c : ascii) : bool :=
  let k := nat_of_ascii c in
  ((9 <=? k) && (k <=? 13) || (28 <=? k) && (k <=? 32))%nat.

Definition digit_value (c : ascii) : option Z :=
  let k := nat_of_ascii c in
  if ((48 <=? k) && (k <=? 57))%nat then Some (Z.of_nat (k - 48)) else None.

Fixpoint lstrip (s : list ascii) : list ascii :=
  match s with
  | c :: r => if is_space c then lstrip r else s
  | [] => []
  end.

Definition strip (s : list ascii) : list ascii :=
  rev (lstrip (rev (lstrip s))).

(** Decimal digits, single underscores allowed between two digits.
    [after_digit] tells whether the previous character was a digit. *)
Fixpoint digits (acc : Z) (after_digit : bool) (s : list ascii) : outcome Z :=
  match s with
  | [] => if after_digit then Ret acc else Raise ValueError
  | c :: r =>
      match digit_value c with
      | Some d => digits (10 * acc + d) true r
      | None =>
          if Ascii.eqb c "_" && after_digit then digits acc false r
          else Raise ValueError
      end
  end.

(** [int(s)] for a string of ASCII characters, base 10. *)
Definition py_int (s : string) : outcome Z :=
  match strip (list_ascii_of_string s) with
  | c :: r =>
      if Ascii.eqb c "-" then v <~ digits 0 false r ;; Ret (- v)
      else if Ascii.eqb c "+" then digits 0 false r
      else digits 0 false (c :: r)
  | [] => Raise ValueError
  end.

(** [x in (a, b)] on strings. *)
Definition among (x : string) (l : list string) : bool :=
  existsb (String.eqb x) l.

(** The local variables that the option loop of [main] sets. [file] is
    unbound until an option binds it. *)
Record settings : Type := mkSettings {
  file : option string;
  zipname : string;
  nb_runs : Z;
  non_impr_iters : Z;
  seed : Z
}.

Definition defaults : settings := mkSettings None "runs.zip" 100 100 42.

(** How the loop can end early: [sys.exit()] or an exception. *)
Inductive stop : Type :=
| SystemExit
| Uncaught (e : exn).

Definition int_or_stop (s : string) (k : Z -> settings) : stop + settings :=
  match py_int s with
  | Ret v => inr (k v)
  | Raise e => inl (Uncaught e)
  | OutOfFuel => inl (Uncaught ValueError)
  end.

(** One iteration of [for opts, args in opts]: the name of the option is
    in [opts], its argument in [args]. *)
Definition handle_option (opts args : string) (st : settings) : stop + settings :=
  if among opts ["-h"; "--help"] then inl SystemExit
  else if among opts ["-f"; "--file"] then
    inr (mkSettings (Some opts) (opts ++ ".runs.zip") (nb_runs st)
           (non_impr_iters st) (seed st))
  else if among opts ["-n"; "--runs"] then
    int_or_stop opts (fun v =>
      mkSettings (file st) (zipname st) v (non_impr_iters st) (seed st))
  else if among opts ["-i"; "--non_impr_iters"] then
    int_or_stop opts (fun v =>
      mkSettings (file st) (zipname st) (nb_runs st) v (seed st))
  else if among opts ["-s"; "--seed"] then
    int_or_stop opts (fun v =>
      mkSettings (file st) (zipname st) (nb_runs st) (non_impr_iters st) v)
  else inl (Uncaught AssertionError).

(** The option loop, on the list of (option, argument) pairs that
    [getopt.getopt] returned. *)
Fixpoint handle_options (parsed : list (string * string)) (st : settings)
  : stop + settings :=
  match parsed with
  | [] => inr st
  | (opts, args) :: rest =>
      match handle_option opts args st with
      | inr st' => handle_options rest st'
      | inl s => inl s
      end
  end.

End Main.

Lemma among_two (x a b : string) :
  Main.among x [a; b] = true -> x = a \/ x = b.
Proof.
  unfold Main.among. simpl.
  destruct (String.eqb_spec x a) as [-> | _]; [by left|].
  destruct (String.eqb_spec x b) as [-> | _]; [by right | done].
Qed.

(** An option that lets the loop go on is [-f] or [--file], and only
    [file] and [zipname] change, both to values made of its name. *)
Lemma handle_option_goes_on (opts args : string) (st st' : Main.settings) :
  Main.handle_option opts args st = inr st' ->
  (opts = "-f" \/ opts = "--file")%string /\
  st' = Main.mkSettings (Some opts) (opts ++ ".runs.zip") (Main.nb_runs st)
          (Main.non_impr_iters st) (Main.seed st).
Proof.
  unfold Main.handle_option.
  destruct (Main.among opts ["-h"; "--help"]%string); [done|].
  destruct (Main.among opts ["-f"; "--file"]%string) eqn:Ef.
  { intros [= <-]. split; [by apply among_two | done]. }
  destruct (Main.among opts ["-n"; "--runs"]%string) eqn:En.
  { by destruct (among_two _ _ _ En) as [-> | ->]. }
  destruct (Main.among opts ["-i"; "--non_impr_iters"]%string) eqn:Ei.
  { by destruct (among_two _ _ _ Ei) as [-> | ->]. }
  destruct (Main.among opts ["-s"; "--seed"]%string) eqn:Es.
  { by destruct (among_two _ _ _ Es) as [-> | ->]. }
  done.
Qed.

(** X22. The option loop of [main] never reads the argument of an
    option: its outcome depends on the option names alone. It runs to
    its end only when every option is [-f] or [--file]; [nb_runs],
    [non_impr_iters] and [seed] then still have the values they had
    before the loop (100, 100 and 42 in [main]), and [file] and the
    archive name are built from the name of the last option, not from
    its argument. Every other option stops the program before the loop
    ends, by [sys.exit()] or by an exception. *)
Theorem option_loop_never_reads_an_argument :
  forall (parsed : list (string * string)) (st : Main.settings),
    (forall parsed',
       parsed.*1 = parsed'.*1 ->
       Main.handle_options parsed st = Main.handle_options parsed' st) /\
    (forall st',
       Main.handle_options parsed st = inr st' ->
       Forall (fun oa => oa.1 = "-f" \/ oa.1 = "--file")%string parsed /\
       Main.nb_runs st' = Main.nb_runs st /\
       Main.non_impr_iters st' = Main.non_impr_iters st /\
       Main.seed st' = Main.seed st /\
       (parsed = [] /\ st' = st \/
        exists o a,
          last parsed = Some (o, a) /\
          Main.file st' = Some o /\
          Main.zipname st' = (o ++ ".runs.zip")%string)).
Proof.
  induction parsed as [|[o a] parsed IH]; intros st.
  - split.
    + intros [|[o' a'] parsed'] E; [done | discriminate].
    + intros st' [= <-]. split; [constructor|]. repeat split. by left.
  - split.
    + intros [|[o' a'] parsed'] E; [discriminate|].
      simpl in E. injection E as <- E. simpl.
      change (Main.handle_option o a' st) with (Main.handle_option o a st).
      destruct (Main.handle_option o a st) as [s | st1]; [done|].
      by apply (proj1 (IH st1)).
    + intros st' H. simpl in H.
      destruct (Main.handle_option o a st) as [s | st1] eqn:Eo; [done|].
      apply handle_option_goes_on in Eo as [Ho ->].
      destruct (proj2 (IH _) st' H) as (Hall & Hr & Hi & Hs & Hlast).
      simpl in *.
      split; [by constructor|]. split; [done|]. split; [done|].
      split; [done|]. right.
      destruct Hlast as [[-> ->] | (o' & a' & Hl & Hf & Hz)].
      * exists o, a. done.
      * exists o', a'. split; [|done].
        destruct parsed; [done | exact Hl].
Qed.

Lemma option_loop_never_reads_an_argument_witness :
  exists st',
    Main.handle_options [("--file", "knap20.txt")]%string Main.defaults
      = inr st' /\
    Main.nb_runs st' = 100 /\ Main.non_impr_iters st' = 100 /\
    Main.seed st' = 42 /\
    Main.zipname st' = "--file.runs.zip"%string.
Proof.
  destruct (Main.handle_options [("--file", "knap20.txt")]%string
              Main.defaults) as [s | st'] eqn:E;
    [vm_compute in E; discriminate|].
  exists st'. split; [reflexivity|].
  destruct (proj2 (option_loop_never_reads_an_argument _ _) st' E)
    as (_ & Hr & Hi & Hs & Hlast).
  split; [exact Hr|]. split; [exact Hi|]. split; [exact Hs|].
  destruct Hlast as [[Hn _] | (o & a & Hl & _ & Hz)]; [discriminate|].
  injection Hl as <- <-. exact Hz.
Defined.

(** ** Rendering of a solution

    [Solution.__str__] (ils.py, lines 35-37) is what [ils] writes to the log
    for every jump: the fitness, a separator that carries the [invalid] flag,
    and the values of the list, each through [str], joined without a
    separator. *)

Module Rendering.

Local Open Scope string_scope.

(** [str(z)] for an integer. *)
Definition str_int (z : Z) : string :=
  DecimalString.NilZero.string_of_int (Z.to_int z).

(** [''.join(parts)] *)
Fixpoint join (parts : list string) : string :=
  match parts with
  | [] => ""
  | x :: rest => x ++ join rest
  end.

(** [Solution.__str__] *)
Definition Solution_str (s : Solution) : string :=
  str_int (fitness s)
  ++ (if invalid s then " (invalid) " else " ")
  ++ join (map str_int (lst s)).

Fixpoint no_space (s : string) : bool :=
  match s with
  | "" => true
  | String c rest => negb (Ascii.eqb c " ") && no_space rest
  end.

End Rendering.

Section RenderingFacts.

Import Rendering.
Local Open Scope string_scope.

Lemma no_space_uint (d : Decimal.uint) :
  no_space (DecimalString.NilEmpty.string_of_uint d) = true.
Proof. induction d; simpl; auto. Qed.

Lemma str_int_no_space (z : Z) : no_space (str_int z) = true.
Proof.
  unfold str_int. destruct (Z.to_int z) as [d | d]; simpl;
    destruct d; simpl; auto using no_space_uint.
Qed.

Lemma str_int_inj (a b : Z) : str_int a = str_int b -> a = b.
Proof.
  unfold str_int. intros H.
  apply DecimalZ.to_int_inj.
  assert (ok : forall z, Z.to_int z <> Decimal.Pos Decimal.Nil
                         /\ Z.to_int z <> Decimal.Neg Decimal.Nil).
  { intros [|p|p]; simpl; split; try discriminate;
      intros [= E]; by apply DecimalPos.Unsigned.to_uint_nonnil in E. }
  destruct (ok a) as [a1 a2], (ok b) as [b1 b2].
  pose proof (DecimalString.NilZero.isi _ a1 a2) as Ea.
  pose proof (DecimalString.NilZero.isi _ b1 b2) as Eb.
  rewrite H in Ea. congruence.
Qed.

Lemma split_at_space (u v x y : string) :
  no_space u = true -> no_space v = true ->
  u ++ String " " x = v ++ String " " y -> u = v /\ x = y.
Proof.
  revert v. induction u as [|c u IH]; intros [|d v]; simpl; intros Hu Hv H.
  - by injection H.
  - injection H as <- _. by rewrite Ascii.eqb_refl in Hv.
  - injection H as -> _. by rewrite Ascii.eqb_refl in Hu.
  - injection H as -> H. apply andb_prop in Hu as [_ Hu], Hv as [_ Hv].
    destruct (IH v Hu Hv H) as [-> ->]. done.
Qed.

Lemma join_bits_inj (l l' : list Z) :
  is_bitstring l -> is_bitstring l' ->
  join (map str_int l) = join (map str_int l') -> l = l'.
Proof.
  intros Hl. revert l'. induction Hl as [|v l Hv Hl IH]; intros l' Hl' H.
  - destruct Hl' as [|v' l' Hv' _]; [done|].
    by destruct Hv' as [-> | ->].
  - destruct Hl' as [|v' l' Hv' Hl'].
    + by destruct Hv as [-> | ->].
    + destruct Hv as [-> | ->], Hv' as [-> | ->]; simpl in H;
        try discriminate; injection H as H; f_equal; by apply IH.
Qed.

Lemma join_bits_head (l : list Z) :
  is_bitstring l ->
  forall rest, join (map str_int l) <> String "(" rest.
Proof.
  intros [|v l' [-> | ->] _] rest; simpl; discriminate.
Qed.

(** X23. The text [Solution.__str__] produces for a 0/1 solution determines
    the solution's fitness, its [invalid] flag and its list of values: two
    0/1 solutions that render to the same text agree on all three.  (The
    [weight] attribute is not rendered.) *)
Theorem Solution_str_determines_solution (s t : Solution) :
  is_bitstring (lst s) -> is_bitstring (lst t) ->
  Solution_str s = Solution_str t ->
  fitness s = fitness t /\ invalid s = invalid t /\ lst s = lst t.
Proof.
  intros Hs Ht. unfold Solution_str. intros H.
  assert (sep : forall (b : bool) r,
    (if b then " (invalid) " else " ") ++ r
    = String " " ((if b then "(invalid) " else "") ++ r)) by (by intros []).
  rewrite !sep in H.
  apply split_at_space in H as [Hf H]; auto using str_int_no_space.
  apply str_int_inj in Hf. split; [done|].
  destruct (invalid s), (invalid t); simpl in H.
  - injection H as H. split; [done|]. by apply join_bits_inj.
  - symmetry in H. by apply join_bits_head in H.
  - by apply join_bits_head in H.
  - split; [done|]. by apply join_bits_inj.
Qed.

Lemma Solution_str_determines_solution_witness :
  Solution_str (mkSolution [0; 1; 1] (-2) true None)
    = "-2 (invalid) 011" /\
  fitness (mkSolution [0; 1; 1] (-2) true None)
    = fitness (mkSolution [0; 1; 1] (-2) true (Some 12)) /\
  invalid (mkSolution [0; 1; 1] (-2) true None)
    = invalid (mkSolution [0; 1; 1] (-2) true (Some 12)) /\
  lst (mkSolution [0; 1; 1] (-2) true None)
    = lst (mkSolution [0; 1; 1] (-2) true (Some 12)).
Proof.
  split; [reflexivity|].
  apply (Solution_str_determines_solution
           (mkSolution [0; 1; 1] (-2) true None)
           (mkSolution [0; 1; 1] (-2) true (Some 12))).
  - simpl. solve_bits.
  - simpl. solve_bits.
  - reflexivity.
Defined.

End RenderingFacts.
